(** * VELOCIraptor-STF: the MPI partition-and-link engine

    A shallow embedding of the routines of [src/mpiroutines.cxx] that carry
    the distributed Friends-of-Friends pipeline: the chunked point-to-point
    transport, the mesh domain decomposition and its rebalancing, the mesh
    export planner, the cross-domain linker and the group compactor.

    Conventions.
    - C++ [int] is a 32-bit two's complement integer; every narrowing
      conversion to [int] written in the source is written here as [to_int].
      [Int_t] and [Int_tree_t] are typedefs of the NBodylib library whose
      width is a build option; they are kept as [Z].
    - Arrays are lists read with [get] (index converted from [Z]) and written
      with stdpp's list insert; an out-of-range write leaves the list as it
      is, an out-of-range read gives the default.  Both are undefined
      behaviour in C++, so theorems that depend on them state the ranges.
    - [double] is IEEE binary64.  Where the source computes an integer
      through it ([ceil] of a quotient of two [int]s) the model has the
      integer, which is exact there; the two comparisons of the rebalancing
      that are made on [double] values are computed with Rocq's primitive
      floats, which are binary64 with rounding to nearest. *)

From Stdlib Require Floats Uint63.
From stdpp Require Import base numbers list strings gmap sorting.

Local Open Scope Z_scope.

(** ** Machine integers and array access *)

Definition INT_MAX : Z := 2147483647.

(** Conversion to a 32-bit signed [int] (wrap-around). *)
Definition to_int (x : Z) : Z := (x + 2147483648) mod 4294967296 - 2147483648.

(** [ceil(static_cast<Double_t>(a)/static_cast<Double_t>(b))], exact for
    [int] operands and [b > 0]. *)
Definition ceil_div (a b : Z) : Z := - ((- a) / b).

Definition get {A} (d : A) (l : list A) (i : Z) : A :=
  default d (l !! Z.to_nat i).

Definition set {A} (l : list A) (i : Z) (x : A) : list A :=
  if decide (0 <= i) then <[Z.to_nat i := x]> l else l.

Definition sumZ (l : list Z) : Z := foldr Z.add 0 l.

(** [for (j = start; j < stop; j++) l[j] = f(l[j]);] *)
Definition update_range {A} (f : A -> A) (l : list A) (start stop : Z) : list A :=
  imap (fun j x => if decide (start <= Z.of_nat j < stop) then f x else x) l.

(** [(offset, size)] slices that follow each other without gap or overlap,
    starting at [off]. *)
Fixpoint contiguous (off : Z) (l : list (Z * Z)) : Prop :=
  match l with
  | [] => True
  | (o, s) :: l => o = off /\ contiguous (off + s) l
  end.

(** ** Particles and sorting *)

(** The fields of NBodylib's [Particle] that the routines below read or
    write, named after their accessors. *)
Record Particle := mkParticle {
  GetID : Z;
  GetPID : Z;
  GetType : Z
}.

Definition SetID (p : Particle) (id : Z) : Particle :=
  {| GetID := id; GetPID := GetPID p; GetType := GetType p |}.

(** [std::sort(first, last, cmp)] for a comparator [cmp] that is a strict
    weak ordering: elements are inserted one after the other, each before
    the first element it strictly precedes.  [std::sort] leaves the order
    of elements that compare equal open; the insertion fixes one, and the
    properties below rest only on the result being sorted and a permutation
    of the input, or say which order of equal elements they take. *)
Fixpoint sort_insert {A} (cmp : A -> A -> bool) (x : A) (l : list A) : list A :=
  match l with
  | [] => [x]
  | y :: l' => if cmp x y then x :: l else y :: sort_insert cmp x l'
  end.

Definition std_sort {A} (cmp : A -> A -> bool) (l : list A) : list A :=
  foldr (sort_insert cmp) [] l.

(** Modelled from the spec: [IDCompareVec] is the comparator of NBodylib that
    [std::sort] is given to order particles by their id field; with ids set
    to minus the group id, grouped particles come first and ungrouped
    particles (id 0) last. *)
Definition IDCompareVec (a b : Particle) : bool :=
  bool_decide (GetID a < GetID b).

(** ** Transport: chunked pairwise exchange *)

Module Transport.

(** The tuple returned by the source, in its order: number of rounds,
    current send chunk size, current receive chunk size, send offset,
    receive offset. *)
Definition MPIInitialzeCommChunks (nsend nrecv maxchunksize : Z)
  : Z * Z * Z * Z * Z :=
  let cursendchunksize := to_int maxchunksize in
  let currecvchunksize := to_int maxchunksize in
  let nsendchunks := to_int (ceil_div nsend maxchunksize) in
  let nrecvchunks := to_int (ceil_div nrecv maxchunksize) in
  let '(nsendchunks, cursendchunksize) :=
    if decide (cursendchunksize > nsend) then (1, to_int nsend)
    else (nsendchunks, cursendchunksize) in
  let '(nrecvchunks, currecvchunksize) :=
    if decide (currecvchunksize > nrecv) then (1, to_int nrecv)
    else (nrecvchunks, currecvchunksize) in
  let numsendrecv := Z.max nsendchunks nrecvchunks in
  (numsendrecv, cursendchunksize, currecvchunksize, 0, 0).

(** The four reference arguments, after the call. *)
Definition MPIUpdateCommChunks (nsend nrecv : Z)
    (cursendchunksize currecvchunksize sendoffset recvoffset : Z)
  : Z * Z * Z * Z :=
  let sendoffset := sendoffset + cursendchunksize in
  let recvoffset := recvoffset + currecvchunksize in
  let cursendchunksize := to_int (Z.min cursendchunksize (nsend - sendoffset)) in
  let currecvchunksize := to_int (Z.min currecvchunksize (nrecv - recvoffset)) in
  (cursendchunksize, currecvchunksize, sendoffset, recvoffset).

(** One [MPI_Sendrecv] of a chunk loop: its tag and the slices of the send
    and receive buffers it moves. *)
Record Sendrecv := mkSendrecv {
  sr_tag : Z;
  sr_sendoffset : Z;
  sr_sendsize : Z;
  sr_recvoffset : Z;
  sr_recvsize : Z
}.

(** The loop [for (ichunk = 0; ichunk < numsendrecv; ichunk++)] that every
    exchange routine runs on the values of [MPIInitialzeCommChunks]; [tags]
    gives the tags of the [MPI_Sendrecv] calls of round [ichunk], in order.
    [rounds] is the number of rounds still to run. *)
Fixpoint chunk_loop (tags : Z -> list Z) (nsend nrecv : Z) (rounds : nat)
    (ichunk cursendchunksize currecvchunksize sendoffset recvoffset : Z)
  : list Sendrecv :=
  match rounds with
  | O => []
  | S rounds =>
      map (fun t => mkSendrecv t sendoffset cursendchunksize
                                 recvoffset currecvchunksize) (tags ichunk)
      ++
      let '(cs, cr, so, ro) :=
        MPIUpdateCommChunks nsend nrecv cursendchunksize currecvchunksize
                            sendoffset recvoffset in
      chunk_loop tags nsend nrecv rounds (ichunk + 1) cs cr so ro
  end.

Definition chunk_exchange (tags : Z -> list Z) (nsend nrecv maxchunksize : Z)
  : list Sendrecv :=
  let '(numsendrecv, cs, cr, so, ro) :=
    MPIInitialzeCommChunks nsend nrecv maxchunksize in
  chunk_loop tags nsend nrecv (Z.to_nat numsendrecv) 0 cs cr so ro.

(** The schedule of a pair: one entry per round (a single message per
    round, as in [MPIUpdateExportList]). *)
Definition chunk_schedule (nsend nrecv maxchunksize : Z) : list Sendrecv :=
  chunk_exchange (fun ichunk => [ichunk]) nsend nrecv maxchunksize.

(** *** Message tags of the chunk loops

    [TAG_FOF_A] and [TAG_FOF_B] are macros of a header that is not part of
    the sources at hand; they are parameters here. *)
Section tags.
Variables TAG_FOF_A TAG_FOF_B : Z.

(** The chunk loop of [MPIBuildParticleExportList]: two [MPI_Sendrecv]
    calls per round (the FOF records, then the particles).  The calls of
    the extra-property side channel that follow them in builds with gas,
    stars or black holes take the constants [TAG_FOF_B_HYDRO] and the like
    in every round. *)
Definition MPIBuildParticleExportList_exchange
    (nsend nrecv maxchunksize : Z) : list Sendrecv :=
  chunk_exchange (fun ichunk => [TAG_FOF_A; TAG_FOF_B])
                 nsend nrecv maxchunksize.

(** The chunk loop of [MPIUpdateExportList]: one [MPI_Sendrecv] per round. *)
Definition MPIUpdateExportList_exchange
    (nsend nrecv maxchunksize : Z) : list Sendrecv :=
  chunk_exchange (fun ichunk => [TAG_FOF_A + ichunk])
                 nsend nrecv maxchunksize.

(** The tags used in round [ichunk] of an exchange that sends [per_round]
    messages in every round. *)
Definition tags_of_round (ichunk : nat) (per_round : nat)
    (trace : list Sendrecv) : list Z :=
  map sr_tag (take per_round (drop (ichunk * per_round) trace)).
End tags.

(** *** The extra-property side channel (gas)

    The star, black-hole and extra-dark-matter routines are the same text
    over their own field-name lists.  A [float] is carried as its 32-bit
    pattern: the routines only copy it. *)
Record HydroProperties := mkHydroProperties {
  InternalProperties : gmap string Z;
  Chemistry : gmap string Z;
  ChemistryProduction : gmap string Z
}.

(** The default-constructed [HydroProperties x]. *)
Definition HydroProperties_new : HydroProperties :=
  mkHydroProperties ∅ ∅ ∅.

(** The field-name lists of [Options] that the gas routines read. *)
Record Options := mkOptions {
  gas_internalprop_unique_input_names : list string;
  gas_chem_unique_input_names : list string;
  gas_chemproduction_unique_input_names : list string
}.

Definition numextrafields (opt : Options) : Z :=
  Z.of_nat (length (gas_internalprop_unique_input_names opt))
  + Z.of_nat (length (gas_chem_unique_input_names opt))
  + Z.of_nat (length (gas_chemproduction_unique_input_names opt)).

(** [for (iextra...) { field = names[iextra]; Set(field, buff[pos + iextra]); }] *)
Fixpoint set_fields (names : list string) (buff : list Z) (pos : Z)
    (m : gmap string Z) : gmap string Z :=
  match names with
  | [] => m
  | field :: names =>
      set_fields names buff (pos + 1) (<[field := get 0 buff pos]> m)
  end.

(** [for (iextra...) { field = names[iextra]; buff[pos + iextra] = Get(field); }] *)
Fixpoint get_fields (names : list string) (m : gmap string Z) : list Z :=
  match names with
  | [] => []
  | field :: names => default 0 (m !! field) :: get_fields names m
  end.

(** The properties rebuilt for the [i]-th received index. *)
Definition unpack_properties (opt : Options) (proprecvbuff : list Z) (i : Z)
  : HydroProperties :=
  let x := HydroProperties_new in
  let base := i * numextrafields opt in
  let offset := 0 in
  let internal :=
    set_fields (gas_internalprop_unique_input_names opt) proprecvbuff
               (base + offset) (InternalProperties x) in
  let offset := offset + Z.of_nat (length (gas_internalprop_unique_input_names opt)) in
  let chem :=
    set_fields (gas_chem_unique_input_names opt) proprecvbuff
               (base + offset) (Chemistry x) in
  let offset := offset + Z.of_nat (length (gas_chem_unique_input_names opt)) in
  let prod :=
    set_fields (gas_chemproduction_unique_input_names opt) proprecvbuff
               (base + offset) (ChemistryProduction x) in
  mkHydroProperties internal chem prod.

(** [for (i = 0; i < numrecv; i++) { index = indicesrecv[i];
    Part[index].SetHydroProperties(x); ...set every field... }];
    a particle is seen through its gas handle ([None] is the null handle). *)
Fixpoint reconstruct (opt : Options) (proprecvbuff : list Z)
    (indicesrecv : list Z) (i : Z) (Part : list (option HydroProperties))
  : list (option HydroProperties) :=
  match indicesrecv with
  | [] => Part
  | index :: rest =>
      reconstruct opt proprecvbuff rest (i + 1)
        (set Part index (Some (unpack_properties opt proprecvbuff i)))
  end.

(** The indices of the chunk that carry gas properties, and their values in
    field order. *)
Definition pack_indices (nlocalbuff : Z) (Pbuf : list (option HydroProperties))
  : list Z :=
  filter (fun i => is_Some (get None Pbuf i))
         (map Z.of_nat (seq 0 (Z.to_nat nlocalbuff))).

Definition pack_properties (opt : Options)
    (Pbuf : list (option HydroProperties)) (indicessend : list Z) : list Z :=
  flat_map (fun index =>
    let h := default HydroProperties_new (get None Pbuf index) in
    get_fields (gas_internalprop_unique_input_names opt) (InternalProperties h)
    ++ get_fields (gas_chem_unique_input_names opt) (Chemistry h)
    ++ get_fields (gas_chemproduction_unique_input_names opt) (ChemistryProduction h))
    indicessend.

(** [MPISendReceiveHydroInfoBetweenThreads]: [received] is what
    [exchange_indices_and_props] brings back from the partner.  The result
    is the message handed to the exchange ([None] when the routine returns
    before it) and the chunk [Part] after the call. *)
Definition MPISendReceiveHydroInfoBetweenThreads (opt : Options)
    (nlocalbuff : Z) (Pbuf : list (option HydroProperties))
    (nlocal : Z) (Part : list (option HydroProperties))
    (received : list Z * list Z)
  : option (list Z * list Z) * list (option HydroProperties) :=
  if decide (numextrafields opt = 0) then (None, Part)
  else
    let indicessend := pack_indices nlocalbuff Pbuf in
    let propsendbuff := pack_properties opt Pbuf indicessend in
    let '(indicesrecv, proprecvbuff) := received in
    let numrecv := Z.of_nat (length indicesrecv) in
    if decide (numrecv = 0) then (Some (indicessend, propsendbuff), Part)
    else
      let Part := update_range (fun _ => None) Part 0 nlocal in
      (Some (indicessend, propsendbuff),
       reconstruct opt proprecvbuff indicesrecv 0 Part).

(** One round of the baryon exchange of
    [MPISendParticlesBetweenReadThreads], seen on the receiving reader:
<<
    MPI_Sendrecv(&Pbuf[nreadoffset[ireadtask[recvTask]]
                       +mpi_nsend[ThisTask * NProcs + recvTask]+sendoffset],
                 sizeof(Particle)*cursendchunksize, MPI_BYTE, ...,
                 &Pbaryons[Nlocalbaryon[0]], ...);
    MPISendReceiveHydroInfoBetweenThreads(opt, cursendchunksize,
        &Pbuf[nreadoffset[ireadtask[recvTask]]+sendoffset],
        currecvchunksize, &Pbaryons[Nlocalbaryon[0]], ...);
>>
    [Pbuf] is the buffer of the sending reader.  [MPI_Sendrecv] copies the
    particles byte by byte, so a particle arrives with the handle it has on
    the sender; the side channel of the sender is handed the buffer
    without the offset [mpi_nsend]; the receiver has nothing to send.  The
    result is the received chunk after the call on the receiver. *)
Definition baryon_round (opt : Options) (Pbuf : list (option HydroProperties))
    (nreadoffset mpi_nsend sendoffset cursendchunksize : Z)
  : list (option HydroProperties) :=
  let copied :=
    take (Z.to_nat cursendchunksize)
         (drop (Z.to_nat (nreadoffset + mpi_nsend + sendoffset)) Pbuf) in
  let sent :=
    (MPISendReceiveHydroInfoBetweenThreads opt cursendchunksize
       (drop (Z.to_nat (nreadoffset + sendoffset)) Pbuf) 0 [] ([], [])).1 in
  match sent with
  | None => copied
  | Some received =>
      (MPISendReceiveHydroInfoBetweenThreads opt 0 [] cursendchunksize
         copied received).2
  end.

(** [MPISendReceiveFOFHydroInfoBetweenThreads]: the send buffers are filled
    by the caller (and emptied for the caller at the end);
    [FoFGroupDataLocal] is seen through the gas handle of the particle each
    record embeds. *)
Definition MPISendReceiveFOFHydroInfoBetweenThreads (opt : Options)
    (FoFGroupDataLocal : list (option HydroProperties))
    (indicessend propsendbuff : list Z) (received : list Z * list Z)
  : option (list Z * list Z) * list (option HydroProperties) :=
  if decide (numextrafields opt = 0) then (None, FoFGroupDataLocal)
  else
    let '(indicesrecv, proprecvbuff) := received in
    (Some (indicessend, propsendbuff),
     reconstruct opt proprecvbuff indicesrecv 0 FoFGroupDataLocal).

End Transport.

(** ** Domain decomposer on the mesh *)

Module Decomposer.

(** The local [struct zcurvestruct] of [MPIInitialDomainDecompositionWithMesh]. *)
Record zcurvestruct := mkzcurvestruct {
  coord : Z * Z * Z;
  index : Z;
  zcurvevalue : Z
}.

Definition zcurvestruct0 : zcurvestruct := mkzcurvestruct (0, 0, 0) 0 0.

(** [bitset<16>(x)]: the low 16 bits. *)
Definition bitset16 (x : Z) : Z := Z.land x 65535.

(** The 48-bit key, as [to_ullong] reads it after
<<
    for (auto j=0; j<16;j++)
        for (auto i = 0; i<3; i++)
            zcurve[index].zcurvevalue[j*3+i] = zcurvevalue[i][j];
>> *)
Definition interleave (zx zy zz : Z) : Z :=
  foldl (fun key j =>
    foldl (fun key i =>
      let bit := Z.testbit (nth (Z.to_nat i) [zx; zy; zz] 0) j in
      if bit then Z.setbit key (j * 3 + i) else Z.clearbit key (j * 3 + i))
      key [0; 1; 2])
    0 (map Z.of_nat (seq 0 16)).

(** The entries the three nested loops write, in loop order. *)
Definition cells (numcellsperdim : Z) : list zcurvestruct :=
  let range := map Z.of_nat (seq 0 (Z.to_nat numcellsperdim)) in
  flat_map (fun ix =>
    flat_map (fun iy =>
      map (fun iz =>
        let index := ix * numcellsperdim * numcellsperdim
                     + iy * numcellsperdim + iz in
        mkzcurvestruct (ix, iy, iz) index
          (interleave (bitset16 ix) (bitset16 iy) (bitset16 iz)))
        range)
      range)
    range.

(** [vector<zcurvestruct> zcurve(n3)] after the loops: each entry is
    written at [zcurve[index]]. *)
Definition zcurve_fill (numcellsperdim : Z) : list zcurvestruct :=
  let n3 := numcellsperdim * numcellsperdim * numcellsperdim in
  foldl (fun zcurve c => set zcurve (index c) c)
        (replicate (Z.to_nat n3) zcurvestruct0) (cells numcellsperdim).

(** The comparator of the [sort] call. *)
Definition zcurve_cmp (a b : zcurvestruct) : bool :=
  bool_decide (zcurvevalue a < zcurvevalue b).

(** The assignment loop
<<
    for (auto i=0;i<n3;i++) {
        if (count == nsub) { count = 0; itask++; }
        if (itask == NProcs) itask -= 1;
        opt.cellnodeids[zcurve[i].index] = itask;
        opt.cellnodeorder[i] = zcurve[i].index;
        numcellspertask[itask]++;
        count++;
    }
>>
    over the entries of [zcurve] from position [i] on. *)
Fixpoint assign_cells (NProcs nsub : Z) (zcurve : list zcurvestruct)
    (i itask count : Z) (cellnodeids cellnodeorder numcellspertask : list Z)
  : list Z * list Z * list Z :=
  match zcurve with
  | [] => (cellnodeids, cellnodeorder, numcellspertask)
  | c :: zcurve =>
      let '(count, itask) :=
        if decide (count = nsub) then (0, itask + 1) else (count, itask) in
      let itask := if decide (itask = NProcs) then itask - 1 else itask in
      let cellnodeids := set cellnodeids (index c) itask in
      let cellnodeorder := set cellnodeorder i (index c) in
      let numcellspertask :=
        set numcellspertask itask (get 0 numcellspertask itask + 1) in
      assign_cells NProcs nsub zcurve (i + 1) itask (count + 1)
                   cellnodeids cellnodeorder numcellspertask
  end.

(** The result of the decomposition on rank 0, for a resolution
    [numcellsperdim] that has been set: the sorted curve, [cellnodeids],
    [cellnodeorder] and [numcellspertask]. *)
Record Decomposition := mkDecomposition {
  zcurve : list zcurvestruct;
  cellnodeids : list Z;
  cellnodeorder : list Z;
  numcellspertask : list Z
}.

Definition MPIInitialDomainDecompositionWithMesh (numcellsperdim NProcs : Z)
  : Decomposition :=
  let n3 := numcellsperdim * numcellsperdim * numcellsperdim in
  let zcurve := std_sort zcurve_cmp (zcurve_fill numcellsperdim) in
  let nsub := Z.max (to_int (n3 / NProcs)) 1 in
  let '(ids, order, percell) :=
    assign_cells NProcs nsub zcurve 0 0 0
      (replicate (Z.to_nat n3) 0) (replicate (Z.to_nat n3) 0)
      (replicate (Z.to_nat NProcs) 0) in
  mkDecomposition zcurve ids order percell.

(** *** Rebalancing

    The two comparisons of [MPIRepartitionDomainDecompositionWithMesh] that
    are made on [double] values are arguments of the re-cut and of the
    routine: [imbalance_exceeds] is
    [loadimbalance > opt.mpimeshimbalancelimit], and [gt_optimalave numparts]
    is [numparts > optimalave].  What the source computes for them is
    [imbalance_exceeds_double] and [gt_optimalave_double] below. *)

(** The re-cut loop
<<
    for (auto i=0;i<opt.numcells;i++) {
        auto index = opt.cellnodeorder[i];
        numcellspertask[itask]++;
        opt.cellnodeids[index] = itask;
        numparts += opt.cellnodenumparts[index];
        if (numparts > optimalave && itask < NProcs-1) {
            mpinumparts[itask] = numparts;
            itask++;
            numparts = 0;
        }
    }
>>
    over the entries of [cellnodeorder] that are left; [mpinumparts] is a
    [vector<int>]. *)
Fixpoint recut_loop (gt_optimalave : Z -> bool) (NProcs : Z)
    (cellnodenumparts : list Z) (cellnodeorder : list Z) (itask numparts : Z)
    (numcellspertask mpinumparts cellnodeids : list Z)
  : Z * Z * list Z * list Z * list Z :=
  match cellnodeorder with
  | [] => (itask, numparts, numcellspertask, mpinumparts, cellnodeids)
  | index :: cellnodeorder =>
      let numcellspertask :=
        set numcellspertask itask (get 0 numcellspertask itask + 1) in
      let cellnodeids := set cellnodeids index itask in
      let numparts := numparts + get 0 cellnodenumparts index in
      if gt_optimalave numparts && bool_decide (itask < NProcs - 1) then
        recut_loop gt_optimalave NProcs cellnodenumparts cellnodeorder
          (itask + 1) 0 numcellspertask
          (set mpinumparts itask (to_int numparts)) cellnodeids
      else
        recut_loop gt_optimalave NProcs cellnodenumparts cellnodeorder
          itask numparts numcellspertask mpinumparts cellnodeids
  end.

(** The re-cut: the new [cellnodeids] and [mpinumparts], with
    [mpinumparts[NProcs-1] = numparts] done. *)
Definition recut (gt_optimalave : Z -> bool) (NProcs : Z)
    (cellnodenumparts cellnodeorder cellnodeids : list Z) : list Z * list Z :=
  let '(itask, numparts, numcellspertask, mpinumparts, cellnodeids) :=
    recut_loop gt_optimalave NProcs cellnodenumparts cellnodeorder 0 0
      (replicate (Z.to_nat NProcs) 0) (replicate (Z.to_nat NProcs) 0)
      cellnodeids in
  (cellnodeids, set mpinumparts (NProcs - 1) (to_int numparts)).

(** The text of the abort diagnostic: the number of tasks, the total number
    of particles loaded and the suggested number of processes. *)
Record Diagnostic := mkDiagnostic {
  current_tasks : Z;
  mesh_resolution : Z;
  total_particles : Z;
  suggested_tasks : Z
}.

(** How the call ends for the job: [MPI_Abort(MPI_COMM_WORLD, 8)] after
    the diagnostic, or a return with the value returned, [cellnodeids],
    [cellnodenumparts] and [Nlocal]. *)
Inductive Outcome :=
  | Aborted (d : Diagnostic)
  | Returned (reread : bool) (cellnodeids cellnodenumparts : list Z)
             (Nlocal : Z).

(** [cellnodenumparts] holds the counts after the [MPI_Allreduce].  The
    test for an empty process runs on rank 0, on values that every rank
    computes alike, and [MPI_Abort] ends every rank. *)
Definition MPIRepartitionDomainDecompositionWithMesh
    (imbalance_exceeds : bool) (gt_optimalave : Z -> bool)
    (NProcs ThisTask Nlocal iBaryonSearch numcellsperdim : Z)
    (cellnodenumparts cellnodeorder cellnodeids : list Z) : Outcome :=
  if imbalance_exceeds then
    let '(cellnodeids, mpinumparts) :=
      recut gt_optimalave NProcs cellnodenumparts cellnodeorder cellnodeids in
    if bool_decide (Exists (fun x => x = 0) mpinumparts) then
      let sum := sumZ cellnodenumparts in
      Aborted (mkDiagnostic NProcs numcellsperdim sum
                            (to_int (ceil_div sum 10000000)))
    else
      Returned (bool_decide (iBaryonSearch > 0)) cellnodeids
               (map (fun _ => 0) cellnodenumparts)
               (get 0 mpinumparts ThisTask)
  else Returned false cellnodeids cellnodenumparts Nlocal.

(** The per-process counts that [MPILoadBalanceWithMesh] accumulates:
    [mpinumparts[cellnodeids[i]] += cellnodenumparts[i]] for every cell. *)
Definition load_per_task (NProcs : Z) (cellnodenumparts cellnodeids : list Z)
  : list Z :=
  foldl (fun mpinumparts i =>
           let itask := get 0 cellnodeids i in
           set mpinumparts itask
               (get 0 mpinumparts itask + get 0 cellnodenumparts i))
        (replicate (Z.to_nat NProcs) 0)
        (map Z.of_nat (seq 0 (length cellnodeids))).

(** [static_cast<double>(x)] of an [Int_t] or an [int] [x], for
    [|x| < 2^63]. *)
Definition of_Int (x : Z) : PrimFloat.float :=
  if decide (x < 0)
  then PrimFloat.opp (PrimFloat.of_uint63 (Uint63.of_Z (- x)))
  else PrimFloat.of_uint63 (Uint63.of_Z x).

(** The value [MPILoadBalanceWithMesh] returns,
<<
    double minval, maxval, ave, std, sum;
    minval = maxval = mpinumparts[0];
    ave = std = sum = 0;
    for (auto &x:mpinumparts) {
        if (minval > x) minval = x;
        if (maxval < x) maxval = x;
        ave += x;
        std += x*x;
    }
    ave /= (double)NProcs;
    std /= (double)NProcs;
    std = sqrt(std - ave*ave);
    return (maxval-minval)/ave;
>>
    ([std] and [sum] do not enter the value returned and are left out). *)
Definition MPILoadBalanceWithMesh (NProcs : Z)
    (cellnodenumparts cellnodeids : list Z) : PrimFloat.float :=
  let mpinumparts := load_per_task NProcs cellnodenumparts cellnodeids in
  let first := of_Int (get 0 mpinumparts 0) in
  let '(minval, maxval, ave) :=
    foldl (fun '(minval, maxval, ave) x =>
             let minval :=
               if PrimFloat.ltb (of_Int x) minval then of_Int x else minval in
             let maxval :=
               if PrimFloat.ltb maxval (of_Int x) then of_Int x else maxval in
             (minval, maxval, PrimFloat.add ave (of_Int x)))
          (first, first, PrimFloat.zero) mpinumparts in
  let ave := PrimFloat.div ave (of_Int NProcs) in
  PrimFloat.div (PrimFloat.sub maxval minval) ave.

(** [double optimalave = 0;
     for (auto i=0;i<opt.numcells;i++) optimalave += opt.cellnodenumparts[i];
     optimalave /= (double)NProcs;] *)
Definition optimalave (NProcs : Z) (cellnodenumparts : list Z)
  : PrimFloat.float :=
  PrimFloat.div
    (foldl (fun optimalave x => PrimFloat.add optimalave (of_Int x))
           PrimFloat.zero cellnodenumparts)
    (of_Int NProcs).

(** [loadimbalance > opt.mpimeshimbalancelimit] *)
Definition imbalance_exceeds_double (mpimeshimbalancelimit : PrimFloat.float)
    (NProcs : Z) (cellnodenumparts cellnodeids : list Z) : bool :=
  PrimFloat.ltb mpimeshimbalancelimit
                (MPILoadBalanceWithMesh NProcs cellnodenumparts cellnodeids).

(** [numparts > optimalave] *)
Definition gt_optimalave_double (NProcs : Z) (cellnodenumparts : list Z)
    (numparts : Z) : bool :=
  PrimFloat.ltb (optimalave NProcs cellnodenumparts) (of_Int numparts).

(** Signs of a [double], read on its decoded form: the sign bit of a value
    that is not a NaN is [s]; the value is not below zero; the value is not
    above zero. *)
Definition sign_is (s : bool) (f : SpecFloat.spec_float) : Prop :=
  match f with
  | SpecFloat.S754_zero s' | SpecFloat.S754_infinity s'
  | SpecFloat.S754_finite s' _ _ => s' = s
  | SpecFloat.S754_nan => True
  end.

Definition not_negative (f : SpecFloat.spec_float) : Prop :=
  match f with
  | SpecFloat.S754_infinity true | SpecFloat.S754_finite true _ _ => False
  | _ => True
  end.

Definition not_positive (f : SpecFloat.spec_float) : Prop :=
  match f with
  | SpecFloat.S754_infinity false | SpecFloat.S754_finite false _ _ => False
  | _ => True
  end.

(** The number of particles in the cells that [cellnodeids] gives to
    process [p]. *)
Definition assigned_particles (cellnodenumparts cellnodeids : list Z) (p : Z)
  : Z :=
  sumZ (map (fun c => if decide (get 0 cellnodeids c = p)
                      then get 0 cellnodenumparts c else 0)
            (map Z.of_nat (seq 0 (length cellnodeids)))).

(** The number of particles that the process of cell [c] has been given
    along the curve up to position [k]: those of the cells
    [cellnodeorder[0..k]] that [cellnodeids] gives to the process of [c]. *)
Definition accumulated (cellnodenumparts cellnodeids cellnodeorder : list Z)
    (k : nat) (c : Z) : Z :=
  sumZ (map (fun c' => if decide (get 0 cellnodeids c' = get 0 cellnodeids c)
                       then get 0 cellnodenumparts c' else 0)
            (take (S k) cellnodeorder)).

End Decomposer.

(** ** Cross-domain group linker *)

Module Linker.

(** [struct fofdata_in]: the export record. *)
Record fofdata_in := mkfofdata_in {
  Index : Z;
  Task : Z;
  iGroup : Z;
  iGroupTask : Z;
  iLen : Z
}.

Definition set_iLen (f : fofdata_in) (len : Z) : fofdata_in :=
  {| Index := Index f; Task := Task f; iGroup := iGroup f;
     iGroupTask := iGroupTask f; iLen := len |}.

(** What [MPILinkAcross] reads and never writes: the local particles, the
    chains of the local groups, the imported particles and the first id of
    the block reserved for new groups. *)
Record LinkEnv := mkLinkEnv {
  Part : list Particle;
  Head : list Z;
  Next : list Z;
  PartDataGet : list Particle;
  mpi_maxgid : Z
}.

(** What [MPILinkAcross] writes. *)
Record LinkState := mkLinkState {
  pfof : list Z;
  Len : list Z;
  mpi_foftask : list Z;
  mpi_gidoffset : Z;
  FoFDataGet : list fofdata_in;
  links : Z
}.

Definition particle0 : Particle := mkParticle 0 0 0.
Definition fofdata0 : fofdata_in := mkfofdata_in 0 0 0 0 0.

(** The indices a walk from [ss] along [Next] visits, up to the first
    negative link; [None] when [fuel] steps do not reach it. *)
Fixpoint walk (Next : list Z) (fuel : nat) (ss : Z) : option (list Z) :=
  match fuel with
  | O => None
  | S fuel =>
      let nx := get 0 Next ss in
      if decide (nx >= 0) then cons ss <$> walk Next fuel nx
      else Some [ss]
  end.

(** The relabelling loop
<<
    do{
        pfof[Part[ss].GetID()]=FoFDataGet[i].iGroup;
        mpi_foftask[Part[ss].GetID()]=FoFDataGet[i].iGroupTask;
        Len[ss]=FoFDataGet[i].iLen+oldlen;
    }while((ss = Next[ss]) >= 0);
>>
    with [g], [t], [len] the three values written; [None] when the loop has
    not ended after [fuel] iterations. *)
Fixpoint relabel_chain (env : LinkEnv) (g t len : Z) (fuel : nat) (ss : Z)
    (st : LinkState) : option LinkState :=
  match fuel with
  | O => None
  | S fuel =>
      let id := GetID (get particle0 (Part env) ss) in
      let st := mkLinkState (set (pfof st) id g) (set (Len st) ss len)
                            (set (mpi_foftask st) id t)
                            (mpi_gidoffset st) (FoFDataGet st) (links st) in
      let ss := get 0 (Next env) ss in
      if decide (ss >= 0) then relabel_chain env g t len fuel ss st
      else Some st
  end.

(** The body of the inner loop of [MPILinkAcross] (the ball-search variant):
    imported record [i] against the local candidate [k]. *)
Definition link_candidate (env : LinkEnv) (fuel : nat) (i k : Z)
    (st : LinkState) : option LinkState :=
  let f := get fofdata0 (FoFDataGet st) i in
  let head := get particle0 (Part env) (get 0 (Head env) k) in
  let idk := GetID (get particle0 (Part env) k) in
  if decide (iGroup f = 0) then
    if decide (get 0 (pfof st) (GetID head) = 0
               /\ GetPID head > GetPID (get particle0 (PartDataGet env) i))
    then
      Some (mkLinkState
              (set (pfof st) idk (mpi_maxgid env + mpi_gidoffset st))
              (set (Len st) k 1)
              (set (mpi_foftask st) idk (iGroupTask f))
              (mpi_gidoffset st + 1) (FoFDataGet st) (links st + 1))
    else Some st
  else
    if decide (get 0 (pfof st) (GetID head) > 0) then
      if decide (get 0 (pfof st) (GetID head) > iGroup f) then
        let ss := get 0 (Head env) k in
        let oldlen := get 0 (Len st) k in
        st' ← relabel_chain env (iGroup f) (iGroupTask f) (iLen f + oldlen)
                            fuel ss st;
        Some (mkLinkState (pfof st') (Len st') (mpi_foftask st')
                (mpi_gidoffset st')
                (set (FoFDataGet st') i (set_iLen f (iLen f + oldlen)))
                (links st' + 1))
      else Some st
    else
      Some (mkLinkState
              (set (pfof st) idk (iGroup f))
              (set (Len st) k (iLen f))
              (set (mpi_foftask st) idk (iGroupTask f))
              (mpi_gidoffset st)
              (set (FoFDataGet st) i (set_iLen f (iLen f + 1)))
              (links st + 1)).

(** [for (ii = 0; ii < nt; ii++) { k = nn[ii]; ... }] *)
Fixpoint link_candidates (env : LinkEnv) (fuel : nat) (i : Z) (nn : list Z)
    (st : LinkState) : option LinkState :=
  match nn with
  | [] => Some st
  | k :: nn =>
      st ← link_candidate env fuel i k st;
      link_candidates env fuel i nn st
  end.

(** [for (i = 0; i < NImport; i++)]; [search i] is the list the tree search
    tags for the position of imported particle [i]. *)
Fixpoint link_imports (env : LinkEnv) (fuel : nat) (search : Z -> list Z)
    (todo : nat) (i : Z) (st : LinkState) : option LinkState :=
  match todo with
  | O => Some st
  | S todo =>
      st ← link_candidates env fuel i (search i) st;
      link_imports env fuel search todo (i + 1) st
  end.

(** [MPILinkAcross]: the state after the pass; its [links] field is the
    value returned. *)
Definition MPILinkAcross (env : LinkEnv) (fuel : nat) (search : Z -> list Z)
    (NImport : Z) (st : LinkState) : option LinkState :=
  link_imports env fuel search (Z.to_nat NImport) 0
    (mkLinkState (pfof st) (Len st) (mpi_foftask st) (mpi_gidoffset st)
                 (FoFDataGet st) 0).

End Linker.

(** ** Export planner on the mesh *)

Module Planner.

(** The mesh fields of [Options]. *)
Record Mesh := mkMesh {
  numcellsperdim : Z;
  cellnodeids : list Z;
  newcellnodeids : list (list Z)
}.

(** The inclusive cell-index ranges of a search region: the six values
    [floor(xsearch[k][0]*icellwidth[k])] and [floor(xsearch[k][1]*icellwidth[k])]
    that [MPIGetCellNodeIDListInSearchUsingMesh] computes first. *)
Record SearchBox := mkSearchBox {
  ixstart : Z; ixend : Z;
  iystart : Z; iyend : Z;
  izstart : Z; izend : Z
}.

(** [if (i<0) n+i; else if (i>=n) i-n; else i] *)
Definition wrap_axis (n i : Z) : Z :=
  if decide (i < 0) then n + i
  else if decide (i >= n) then i - n
  else i.

Definition cell_index (n ix iy iz : Z) : Z :=
  let index := 0 in
  let index := index + wrap_axis n iz in
  let index := index + wrap_axis n iy * n in
  let index := index + wrap_axis n ix * n * n in
  index.

(** [for (auto i = a; i <= b; i++)] *)
Definition zrange (a b : Z) : list Z :=
  map (fun k => a + Z.of_nat k) (seq 0 (Z.to_nat (b - a + 1))).

(** What one covered cell adds to the list: its owner when that is not
    this task, then the newly associated tasks other than this task. *)
Definition cell_owners (opt : Mesh) (ThisTask index : Z) : list Z :=
  let owner := get 0 (cellnodeids opt) index in
  (if decide (owner <> ThisTask) then [owner] else [])
  ++
  (if decide (length (newcellnodeids opt) = 0%nat) then []
   else if decide (length (get [] (newcellnodeids opt) index) = 0%nat) then []
   else filter (fun c => c <> ThisTask) (get [] (newcellnodeids opt) index)).

Definition MPIGetCellNodeIDListInSearchUsingMesh (opt : Mesh) (ThisTask : Z)
    (xsearch : SearchBox) : list Z :=
  flat_map (fun ix =>
    flat_map (fun iy =>
      flat_map (fun iz =>
        cell_owners opt ThisTask (cell_index (numcellsperdim opt) ix iy iz))
        (zrange (izstart xsearch) (izend xsearch)))
      (zrange (iystart xsearch) (iyend xsearch)))
    (zrange (ixstart xsearch) (ixend xsearch)).

(** The loop over [cellnodeidlist] for particle [i], with [grp] and [len]
    the group id and length stored in its records.  Returns the records
    appended to [FoFDataIn], [nsend_local] and [sent_mpi_domain]. *)
Fixpoint export_particle (ThisTask i grp len : Z) (cellnodeidlist : list Z)
    (nsend_local sent_mpi_domain : list Z)
  : list Linker.fofdata_in * list Z * list Z :=
  match cellnodeidlist with
  | [] => ([], nsend_local, sent_mpi_domain)
  | cellnodeID :: rest =>
      if decide (get 0 sent_mpi_domain cellnodeID = 1) then
        export_particle ThisTask i grp len rest nsend_local sent_mpi_domain
      else
        let r := Linker.mkfofdata_in i cellnodeID grp ThisTask len in
        let nsend_local :=
          set nsend_local cellnodeID (get 0 nsend_local cellnodeID + 1) in
        let sent_mpi_domain :=
          set sent_mpi_domain cellnodeID (get 0 sent_mpi_domain cellnodeID + 1) in
        let '(recs, nsend_local, sent_mpi_domain) :=
          export_particle ThisTask i grp len rest nsend_local sent_mpi_domain in
        (r :: recs, nsend_local, sent_mpi_domain)
  end.

(** The loop over the particles; [boxes] holds the search region of each
    particle from index [i] on. *)
Fixpoint export_loop (opt : Mesh) (ThisTask NProcs : Z) (Part : list Particle)
    (pfof Len : list Z) (boxes : list SearchBox) (i : Z) (nsend_local : list Z)
  : list Linker.fofdata_in * list Z :=
  match boxes with
  | [] => ([], nsend_local)
  | xsearch :: boxes =>
      let sent_mpi_domain := replicate (Z.to_nat NProcs) 0 in
      let cellnodeidlist :=
        MPIGetCellNodeIDListInSearchUsingMesh opt ThisTask xsearch in
      let grp := get 0 pfof (GetID (get (mkParticle 0 0 0) Part i)) in
      let '(recs, nsend_local, _) :=
        export_particle ThisTask i grp (get 0 Len i) cellnodeidlist
                        nsend_local sent_mpi_domain in
      let '(more, nsend_local) :=
        export_loop opt ThisTask NProcs Part pfof Len boxes (i + 1) nsend_local in
      (recs ++ more, nsend_local)
  end.

Definition fof_export_cmp_vec (a b : Linker.fofdata_in) : bool :=
  if decide (Linker.Task a < Linker.Task b) then true else false.

(** [MPIBuildParticleExportListUsingMesh] up to the sort of the export
    records: [FoFDataIn] and the row [nsend_local] of the send-count
    matrix. *)
Definition MPIBuildParticleExportListUsingMesh (opt : Mesh)
    (ThisTask NProcs : Z) (Part : list Particle) (pfof Len : list Z)
    (boxes : list SearchBox) : list Linker.fofdata_in * list Z :=
  let nsend_local := replicate (Z.to_nat NProcs) 0 in
  let '(FoFDataIn, nsend_local) :=
    export_loop opt ThisTask NProcs Part pfof Len boxes 0 nsend_local in
  (std_sort fof_export_cmp_vec FoFDataIn, nsend_local).

End Planner.

(** ** Group compactor *)

Module Compactor.

(** The run loop of [MPICompileGroups] over the particles sorted by id
    (minus the group id):
<<
    for (i=0,start=0;i<nbodies;i++) {
        if (Part[i].GetID()!=Part[start].GetID()) {
            if ((i-start)<minsize) for (Int_t j=start;j<i;j++) Part[j].SetID(0);
            else ngroups++;
            start=i;
        }
        if (Part[i].GetID()>=0) break;
    }
>>
    [todo] is the number of iterations left, [nbodies - i]. *)
Fixpoint run_loop (minsize : Z) (todo : nat) (i start ngroups : Z)
    (Part : list Particle) : list Particle * Z :=
  match todo with
  | O => (Part, ngroups)
  | S todo =>
      let d := mkParticle 0 0 0 in
      let '(Part, start, ngroups) :=
        if decide (GetID (get d Part i) <> GetID (get d Part start)) then
          if decide (i - start < minsize)
          then (update_range (fun p => SetID p 0) Part start i, i, ngroups)
          else (Part, i, ngroups + 1)
        else (Part, start, ngroups) in
      if decide (GetID (get d Part i) >= 0) then (Part, ngroups)
      else run_loop minsize todo (i + 1) start ngroups Part
  end.

(** The second loop of [MPICompileGroups], over [pfof]: it closes a group at
    the first label that differs and stops at the first label 0.  Returns
    [numingroup[1..]] in order. *)
Fixpoint count_loop (todo : nat) (i start : Z) (pfof : list Z) : list Z :=
  match todo with
  | O => []
  | S todo =>
      let closed := decide (get 0 pfof i <> get 0 pfof start) in
      let start' := if closed then i else start in
      let rest :=
        if decide (get 0 pfof i = 0) then []
        else count_loop todo (i + 1) start' pfof in
      if closed then (i - start) :: rest else rest
  end.

(** [MPICompileGroups] from its first sort on, before [ReorderGroupIDs]:
    [Part] holds the local and the imported particles, ids set to minus the
    group id.  Returns [pfof] and [numingroup[1..ngroups]]. *)
Definition MPICompileGroups (Part : list Particle) (minsize NExport : Z)
  : list Z * list Z :=
  let nbodies := Z.of_nat (length Part) in
  let Part := std_sort IDCompareVec Part in
  let '(Part, ngroups) := run_loop minsize (length Part) 0 0 0 Part in
  let Part := std_sort IDCompareVec Part in
  let Part := update_range (fun p => SetID p 0) Part (nbodies - NExport) nbodies in
  let pfof := map (fun p => - GetID p) Part in
  (pfof, count_loop (length pfof) 0 0 pfof).

(** What the run loop is meant to do with a run: reset its ids when it is
    shorter than [minsize]. *)
Definition keep_run (minsize : Z) (run : list Particle) : list Particle :=
  if decide (Z.of_nat (length run) < minsize)
  then map (fun p => SetID p 0) run else run.

Definition run_id (run : list Particle) : Z :=
  GetID (hd (mkParticle 0 0 0) run).

(** [runs] are maximal runs of grouped particles: none is empty, each has
    one negative id, neighbours differ ([prev] is the id of the run before
    the first). *)
Fixpoint maximal_runs (prev : option Z) (runs : list (list Particle)) : Prop :=
  match runs with
  | [] => True
  | run :: runs =>
      run <> [] /\ run_id run < 0 /\
      Forall (fun p => GetID p = run_id run) run /\
      prev <> Some (run_id run) /\
      maximal_runs (Some (run_id run)) runs
  end.

(** The runs [run :: runs] with every run filtered by [keep_run], except
    that the last one is left as it is unless [last_too]; and the number of
    runs that were filtered and kept. *)
Fixpoint filter_runs (minsize : Z) (last_too : bool) (run : list Particle)
    (runs : list (list Particle)) : list Particle :=
  match runs with
  | [] => if last_too then keep_run minsize run else run
  | next :: runs =>
      keep_run minsize run ++ filter_runs minsize last_too next runs
  end.

Fixpoint count_runs (minsize : Z) (last_too : bool) (run : list Particle)
    (runs : list (list Particle)) : Z :=
  let kept := if decide (Z.of_nat (length run) < minsize) then 0 else 1 in
  match runs with
  | [] => if last_too then kept else 0
  | next :: runs => kept + count_runs minsize last_too next runs
  end.

(** [struct fofid_in]: a particle copy with its source index, task and
    group id. *)
Record fofid_in := mkfofid_in {
  p : Particle;
  Index : Z;
  Task : Z;
  iGroup : Z
}.

(** The [qsort] comparator. *)
Definition fof_id_cmp (a b : fofid_in) : Z :=
  if decide (iGroup a > iGroup b) then -1
  else if decide (iGroup a < iGroup b) then 1
  else if decide (GetType (p a) < GetType (p b)) then -1
  else if decide (GetType (p a) > GetType (p b)) then 1
  else if decide (GetID (p a) < GetID (p b)) then -1
  else if decide (GetID (p a) > GetID (p b)) then 1
  else 0.

(** The [std::sort] comparator. *)
Definition fof_id_cmp_vec (a b : fofid_in) : bool :=
  if decide (iGroup a < iGroup b) then true
  else if decide (iGroup a > iGroup b) then false
  else
    if decide (GetType (p a) < GetType (p b)) then true
    else if decide (GetType (p a) > GetType (p b)) then false
    else
      if decide (GetID (p a) < GetID (p b)) then true
      else false.

(** [qsort(base, n, size, cmp)] orders by [cmp(a, b) < 0]. *)
Definition qsort {A} (cmp : A -> A -> Z) (l : list A) : list A :=
  std_sort (fun a b => bool_decide (cmp a b < 0)) l.

Definition set_iGroup (a : fofid_in) (g : Z) : fofid_in :=
  {| p := p a; Index := Index a; Task := Task a; iGroup := g |}.

(** The run loop of the second branch of [MPIBaryonCompileGroups], over
    [FoFGroupDataLocal]; it stops at the first record with [iGroup == 0]. *)
Fixpoint baryon_run_loop (minsize : Z) (todo : nat) (i start ngroups : Z)
    (FoFGroupDataLocal : list fofid_in) : list fofid_in * Z :=
  match todo with
  | O => (FoFGroupDataLocal, ngroups)
  | S todo =>
      let d := mkfofid_in (mkParticle 0 0 0) 0 0 0 in
      let '(FoFGroupDataLocal, start, ngroups) :=
        if decide (iGroup (get d FoFGroupDataLocal i)
                   <> iGroup (get d FoFGroupDataLocal start)) then
          if decide (i - start < minsize)
          then (update_range (fun a => set_iGroup a 0) FoFGroupDataLocal start i,
                i, ngroups)
          else (FoFGroupDataLocal, i, ngroups + 1)
        else (FoFGroupDataLocal, start, ngroups) in
      if decide (iGroup (get d FoFGroupDataLocal i) = 0)
      then (FoFGroupDataLocal, ngroups)
      else baryon_run_loop minsize todo (i + 1) start ngroups FoFGroupDataLocal
  end.

(** The second branch of [MPIBaryonCompileGroups] up to its first count of
    groups, for a given sorting routine. *)
Definition baryon_compile (sort : list fofid_in -> list fofid_in)
    (FoFGroupDataLocal : list fofid_in) (minsize : Z) : list fofid_in * Z :=
  let FoFGroupDataLocal := sort FoFGroupDataLocal in
  baryon_run_loop minsize (length FoFGroupDataLocal) 0 0 0 FoFGroupDataLocal.

(** As the source has it now. *)
Definition MPIBaryonCompileGroups := baryon_compile (std_sort fof_id_cmp_vec).

(** As the source had it (the call kept in its comment). *)
Definition MPIBaryonCompileGroups_qsort := baryon_compile (qsort fof_id_cmp).

End Compactor.

(** ** Pairing of the processes for the point-to-point exchanges *)

Module Pairing.

(** The nested loops of [MPIGenerateCommPairs]: the pairs
    [task1 < task2] with traffic in one direction at least, in loop order.
    [send_info] is the [NProcs*NProcs] matrix gathered on every process. *)
Definition comm_candidates (NProcs : Z) (send_info : list Z) : list (Z * Z) :=
  flat_map (fun task1 =>
    flat_map (fun task2 =>
      if decide (get 0 send_info (task1 * NProcs + task2) = 0 /\
                 get 0 send_info (task2 * NProcs + task1) = 0)
      then [] else [(task1, task2)])
      (Planner.zrange (task1 + 1) (NProcs - 1)))
    (Planner.zrange 0 (NProcs - 1)).

Definition MPISetSendRecvTask (ThisTask task1 task2 : Z) : Z * Z :=
  let sendTask := task1 in
  let recvTask := task2 in
  if decide (ThisTask = task2) then (task2, task1) else (sendTask, recvTask).

Section shuffle.
(** [shuffle(first, last, std::default_random_engine(4322))]: the
    rearrangement the library makes with the fixed seed. *)
Variable shuffle : list (Z * Z) -> list (Z * Z).

Definition MPIGenerateCommPairs (NProcs : Z) (send_info : list Z)
  : list (Z * Z) :=
  shuffle (comm_candidates NProcs send_info).

(** The loop every exchange routine runs over the pairs,
<<
    for (auto [task1, task2] : commpair) {
        if (ThisTask != task1 && ThisTask != task2) continue;
        auto [sendTask, recvTask] = MPISetSendRecvTask(task1, task2);
        ...
>>
    as the [(sendTask, recvTask)] of the exchanges the process makes, in
    order. *)
Definition comm_loop (NProcs ThisTask : Z) (send_info : list Z)
  : list (Z * Z) :=
  map (fun pair => MPISetSendRecvTask ThisTask pair.1 pair.2)
      (filter (fun pair => ~ (ThisTask <> pair.1 /\ ThisTask <> pair.2))
              (MPIGenerateCommPairs NProcs send_info)).
End shuffle.

End Pairing.

(** ** Export counts, offsets and cell lists on the mesh *)

Module Counting.
Import Planner.

(** The loop over [cellnodeidlist] of [MPIGetExportNumUsingMesh]. *)
Fixpoint count_particle (cellnodeidlist : list Z) (nexport : Z)
    (nsend_local sent_mpi_domain : list Z) : Z * list Z * list Z :=
  match cellnodeidlist with
  | [] => (nexport, nsend_local, sent_mpi_domain)
  | cellnodeID :: rest =>
      if decide (get 0 sent_mpi_domain cellnodeID = 1) then
        count_particle rest nexport nsend_local sent_mpi_domain
      else
        count_particle rest (nexport + 1)
          (set nsend_local cellnodeID (get 0 nsend_local cellnodeID + 1))
          (set sent_mpi_domain cellnodeID
               (get 0 sent_mpi_domain cellnodeID + 1))
  end.

Fixpoint count_loop (opt : Mesh) (ThisTask NProcs : Z)
    (boxes : list SearchBox) (nexport : Z) (nsend_local : list Z)
  : Z * list Z :=
  match boxes with
  | [] => (nexport, nsend_local)
  | xsearch :: boxes =>
      let sent_mpi_domain := replicate (Z.to_nat NProcs) 0 in
      let cellnodeidlist :=
        MPIGetCellNodeIDListInSearchUsingMesh opt ThisTask xsearch in
      let '(nexport, nsend_local, _) :=
        count_particle cellnodeidlist nexport nsend_local sent_mpi_domain in
      count_loop opt ThisTask NProcs boxes nexport nsend_local
  end.

(** [MPIGetExportNumUsingMesh]: [NExport] and the row [nsend_local] that is
    gathered into [mpi_nsend]. *)
Definition MPIGetExportNumUsingMesh (opt : Mesh) (ThisTask NProcs : Z)
    (boxes : list SearchBox) : Z * list Z :=
  count_loop opt ThisTask NProcs boxes 0 (replicate (Z.to_nat NProcs) 0).

(** [for(j = 1, noffset[0] = 0; j < NProcs; j++)
       noffset[j]=noffset[j-1] + nsend_local[j-1];]
    for an array [nsend_local] of [NProcs] entries: the entries of
    [noffset] from the one that holds [prev] on. *)
Fixpoint noffset_from (prev : Z) (nsend_local : list Z) : list Z :=
  match nsend_local with
  | [] => []
  | n :: nsend_local => prev :: noffset_from (prev + n) nsend_local
  end.

Definition noffset (nsend_local : list Z) : list Z :=
  noffset_from 0 nsend_local.

(** The offset of the slice of the receive buffer that takes what
    [recvTask] sends,
    [nbuffer[recvTask] = 0;
     for (int k=0;k<recvTask;k++) nbuffer[recvTask]+=mpi_nsend[sendTask+k*NProcs];]
    with [sendTask] this process. *)
Definition nbuffer (NProcs : Z) (mpi_nsend : list Z) (sendTask recvTask : Z)
  : Z :=
  foldl (fun nbuffer k => nbuffer + get 0 mpi_nsend (sendTask + k * NProcs))
        0 (zrange 0 (recvTask - 1)).

(** [NImport=0;for (j=0;j<NProcs;j++)NImport+=mpi_nsend[ThisTask+j*NProcs];] *)
Definition NImport (NProcs ThisTask : Z) (mpi_nsend : list Z) : Z :=
  foldl (fun NImport j => NImport + get 0 mpi_nsend (ThisTask + j * NProcs))
        0 (zrange 0 (NProcs - 1)).

(** The [qsort] comparator of the export records. *)
Definition fof_export_cmp (a b : Linker.fofdata_in) : Z :=
  if decide (Linker.Task a < Linker.Task b) then -1
  else if decide (Linker.Task a > Linker.Task b) then 1
  else 0.

(** [MPIGetCellListInSearchUsingMesh]: the covered cells, without the
    cells of this process when [ignorelocalcells]. *)
Definition MPIGetCellListInSearchUsingMesh (opt : Mesh) (ThisTask : Z)
    (xsearch : SearchBox) (ignorelocalcells : bool) : list Z :=
  flat_map (fun ix =>
    flat_map (fun iy =>
      flat_map (fun iz =>
        let index := cell_index (numcellsperdim opt) ix iy iz in
        if ignorelocalcells
           && bool_decide (get 0 (cellnodeids opt) index = ThisTask)
        then [] else [index])
        (zrange (izstart xsearch) (izend xsearch)))
      (zrange (iystart xsearch) (iyend xsearch)))
    (zrange (ixstart xsearch) (ixend xsearch)).

(** The loop of [MPISearchForOverlapUsingMesh] over [cellnodeidlist]. *)
Fixpoint overlap_loop (cellnodeidlist : list Z) (numoverlap : Z)
    (sent_mpi_domain : list Z) : Z :=
  match cellnodeidlist with
  | [] => numoverlap
  | cellnodeID :: rest =>
      if decide (get 0 sent_mpi_domain cellnodeID = 1) then
        overlap_loop rest numoverlap sent_mpi_domain
      else
        overlap_loop rest (numoverlap + 1)
          (set sent_mpi_domain cellnodeID
               (get 0 sent_mpi_domain cellnodeID + 1))
  end.

Definition MPISearchForOverlapUsingMesh (opt : Mesh) (ThisTask NProcs : Z)
    (xsearch : SearchBox) : Z :=
  let sent_mpi_domain := replicate (Z.to_nat NProcs) 0 in
  let cellnodeidlist :=
    MPIGetCellNodeIDListInSearchUsingMesh opt ThisTask xsearch in
  overlap_loop cellnodeidlist 0 sent_mpi_domain.

End Counting.

(** ** Reading tasks and their files

    The build without parallel HDF5 ([USEPARALLELHDF] not defined).  The
    quotient [static_cast<int>(static_cast<float>(a)/static_cast<float>(b))]
    is the truncated quotient of the integers: for [0 <= a] and [0 < b]
    below [2^24] both conversions are exact and the rounded quotient is
    never rounded up to the next integer. *)

Module Reader.

(** [MPIDistributeReadTasks]: [opt.nsnapread], [ireadtask] and
    [readtaskID] after the call. *)
Definition MPIDistributeReadTasks (NProcs nsnapread num_files : Z)
    (ireadtask readtaskID : list Z) : Z * list Z * list Z :=
  let nsnapread := if decide (nsnapread > NProcs) then NProcs else nsnapread in
  let nsnapread :=
    if decide (num_files < nsnapread) then num_files else nsnapread in
  let ireadtask := update_range (fun _ => -1) ireadtask 0 NProcs in
  let spacing := Z.max 1 (to_int (Z.quot NProcs nsnapread)) in
  let '(ireadtask, readtaskID) :=
    foldl (fun '(ireadtask, readtaskID) i =>
             (set ireadtask (i * spacing) i, set readtaskID i (i * spacing)))
          (ireadtask, readtaskID) (Planner.zrange 0 (nsnapread - 1)) in
  (nsnapread, ireadtask, readtaskID).

(** [MPISetFilesRead]: the value returned and [ireadfile] after the call. *)
Definition MPISetFilesRead (ThisTask nsnapread num_files : Z)
    (ireadfile ireadtask : list Z) : Z * list Z :=
  let ireadfile := update_range (fun _ => 0) ireadfile 0 num_files in
  let nread := to_int (Z.quot num_files nsnapread) in
  let niread := get 0 ireadtask ThisTask * nread in
  let nfread := (get 0 ireadtask ThisTask + 1) * nread in
  let nfread :=
    if decide (get 0 ireadtask ThisTask = nsnapread - 1) then num_files
    else nfread in
  (niread, update_range (fun _ => 1) ireadfile niread nfread).

End Reader.

(** ** Global group ids *)

Module GroupIDs.

(** [MPIAdjustGroupIDs]: [pfof] after the call. *)
Definition MPIAdjustGroupIDs (ThisTask : Z) (mpi_ngroups : list Z)
    (nbodies : Z) (pfof : list Z) : list Z :=
  let noffset :=
    foldl (fun noffset j => noffset + get 0 mpi_ngroups j) 0
          (Planner.zrange 0 (ThisTask - 1)) in
  update_range (fun g => if decide (g > 0) then g + noffset else g)
               pfof 0 nbodies.

(** The copy loop of [MPICollectFOF] on rank 0,
    [for (i = 0; i < n; i++) mpi_pfof[mpi_indexlist[i]] = pfof[i];] *)
Definition collect (mpi_pfof mpi_indexlist pfof : list Z) (n : Z) : list Z :=
  foldl (fun mpi_pfof i =>
           set mpi_pfof (get 0 mpi_indexlist i) (get 0 pfof i))
        mpi_pfof (Planner.zrange 0 (n - 1)).

(** [MPICollectFOF] as rank 0 sees it: [tasks] holds [pfof] and
    [mpi_indexlist] of every process in rank order, each with its [Nlocal]
    entries; every process adjusts its ids, rank 0 copies its own and then
    those it receives from ranks 1, 2, ... in turn.  The result is
    [mpi_pfof]. *)
Fixpoint collect_from (mpi_ngroups : list Z) (j : Z)
    (tasks : list (list Z * list Z)) (mpi_pfof : list Z) : list Z :=
  match tasks with
  | [] => mpi_pfof
  | (pfof, mpi_indexlist) :: tasks =>
      let Nlocal := Z.of_nat (length pfof) in
      let pfof := MPIAdjustGroupIDs j mpi_ngroups Nlocal pfof in
      collect_from mpi_ngroups (j + 1) tasks
                   (collect mpi_pfof mpi_indexlist pfof Nlocal)
  end.

Definition MPICollectFOF (mpi_ngroups : list Z)
    (tasks : list (list Z * list Z)) (mpi_pfof : list Z) : list Z :=
  collect_from mpi_ngroups 0 tasks mpi_pfof.

End GroupIDs.

(** ** Utilities ([src/utilities.cxx]) *)

Module Utilities.

(** [std::string::rfind(c)]: the position of the last [c], [None] for
    [npos]. *)
Fixpoint rfind (c : Ascii.ascii) (s : string) : option nat :=
  match s with
  | EmptyString => None
  | String a s' =>
      match rfind c s' with
      | Some pos => Some (S pos)
      | None => if decide (a = c) then Some 0%nat else None
      end
  end.

(** [std::string::substr(pos)] for [pos <= size()]: the characters from
    [pos] to the end. *)
Fixpoint substr (pos : nat) (s : string) : string :=
  match pos, s with
  | O, _ => s
  | S pos, String _ s' => substr pos s'
  | S _, EmptyString => EmptyString
  end.

(** The character ['/'] (code 47, low bit first). *)
Definition sep : Ascii.ascii :=
  Ascii.Ascii true true true true false true false false.

(** [vr::basename] *)
Definition basename (filename : string) : string :=
  let basenamed := filename in
  match rfind sep basenamed with
  | Some last_sep => substr (last_sep + 1) basenamed
  | None => basenamed
  end.

(** [CompareInt]: the difference of two [Int_t] returned as [int]. *)
Definition CompareInt (val1 val2 : Z) : Z := to_int (val1 - val2).

End Utilities.

(** * Properties *)

(** ** Arithmetic helpers *)

Lemma to_int_id x : - 2147483648 <= x <= INT_MAX -> to_int x = x.
Proof.
  unfold to_int, INT_MAX. intros H.
  rewrite Z.mod_small by lia. lia.
Qed.

Lemma ceil_div_bounds a b :
  0 < b -> 0 <= a -> (ceil_div a b - 1) * b < a <= ceil_div a b * b.
Proof.
  intros Hb Ha. unfold ceil_div.
  pose proof (Z.div_mod (- a) b ltac:(lia)) as Hdm.
  pose proof (Z.mod_pos_bound (- a) b Hb) as Hm.
  nia.
Qed.

Lemma ceil_div_nonneg a b : 0 < b -> 0 <= a -> 0 <= ceil_div a b.
Proof. intros Hb Ha. pose proof (ceil_div_bounds a b Hb Ha). nia. Qed.

Lemma ceil_div_le a b : 0 < b -> 0 <= a -> ceil_div a b <= a.
Proof.
  intros Hb Ha. pose proof (ceil_div_bounds a b Hb Ha).
  destruct (decide (ceil_div a b <= a)); [done|]. nia.
Qed.

(** ** Transport: the chunk schedule *)

Lemma sumZ_cons x l : sumZ (x :: l) = x + sumZ l.
Proof. reflexivity. Qed.

Section chunk_schedule.
Import Transport.
Variables nsend nrecv maxchunksize : Z.
Hypothesis Hmax : 0 < maxchunksize <= INT_MAX.

(** Between two rounds a chunk size is what remains, capped by the
    maximum; [MPIUpdateCommChunks] keeps it so. *)
Lemma chunk_size_update n cur off :
  0 <= off <= n -> cur = Z.min maxchunksize (n - off) ->
  0 <= off + cur <= n /\
  to_int (Z.min cur (n - (off + cur))) = Z.min maxchunksize (n - (off + cur)).
Proof using Hmax.
  intros Hoff ->.
  rewrite to_int_id by (unfold INT_MAX in *; lia). lia.
Qed.

Lemma chunk_loop_sizes rounds : forall ichunk cs cr so ro,
  0 <= so <= nsend -> cs = Z.min maxchunksize (nsend - so) ->
  0 <= ro <= nrecv -> cr = Z.min maxchunksize (nrecv - ro) ->
  let sched := chunk_loop (fun i => [i]) nsend nrecv rounds ichunk cs cr so ro in
  length sched = rounds /\
  Forall (fun e => 0 <= sr_sendsize e <= maxchunksize /\
                   0 <= sr_recvsize e <= maxchunksize) sched /\
  contiguous so (map (fun e => (sr_sendoffset e, sr_sendsize e)) sched) /\
  contiguous ro (map (fun e => (sr_recvoffset e, sr_recvsize e)) sched) /\
  sumZ (map sr_sendsize sched) = Z.min (nsend - so) (Z.of_nat rounds * maxchunksize) /\
  sumZ (map sr_recvsize sched) = Z.min (nrecv - ro) (Z.of_nat rounds * maxchunksize).
Proof using Hmax.
  induction rounds as [|r IH]; intros ichunk cs cr so ro Hso Hcs Hro Hcr.
  - simpl. repeat split; [constructor | lia | lia].
  - cbn [chunk_loop MPIUpdateCommChunks map app].
    destruct (chunk_size_update _ _ _ Hso Hcs) as [Hso' Hcs'].
    destruct (chunk_size_update _ _ _ Hro Hcr) as [Hro' Hcr'].
    destruct (IH (ichunk + 1) _ _ _ _ Hso' Hcs' Hro' Hcr')
      as (Hlen & Hall & Hctgs & Hctgr & Hss & Hsr).
    cbn [length map contiguous sr_sendsize sr_recvsize
         sr_sendoffset sr_recvoffset].
    rewrite !sumZ_cons, Hss, Hsr, Hlen.
    assert (Z.of_nat (S r) * maxchunksize
            = Z.of_nat r * maxchunksize + maxchunksize) as -> by lia.
    assert (0 <= Z.of_nat r * maxchunksize) by nia.
    repeat split; try done; try lia.
    constructor; [cbn; lia | done].
Qed.
End chunk_schedule.

Lemma ceil_div_small a b : 0 < a <= b -> ceil_div a b = 1.
Proof.
  intros H. pose proof (ceil_div_bounds a b ltac:(lia) ltac:(lia)). nia.
Qed.

(** The values [MPIInitialzeCommChunks] returns on operands in [int] range. *)
Lemma MPIInitialzeCommChunks_values nsend nrecv maxchunksize :
  0 <= nsend <= INT_MAX -> 0 <= nrecv <= INT_MAX ->
  0 < maxchunksize <= INT_MAX ->
  Transport.MPIInitialzeCommChunks nsend nrecv maxchunksize =
    (Z.max (if decide (maxchunksize > nsend) then 1 else ceil_div nsend maxchunksize)
           (if decide (maxchunksize > nrecv) then 1 else ceil_div nrecv maxchunksize),
     Z.min maxchunksize nsend, Z.min maxchunksize nrecv, 0, 0).
Proof.
  intros Hs Hr Hm. unfold Transport.MPIInitialzeCommChunks.
  pose proof (ceil_div_nonneg nsend maxchunksize ltac:(lia) ltac:(lia)).
  pose proof (ceil_div_nonneg nrecv maxchunksize ltac:(lia) ltac:(lia)).
  pose proof (ceil_div_le nsend maxchunksize ltac:(lia) ltac:(lia)).
  pose proof (ceil_div_le nrecv maxchunksize ltac:(lia) ltac:(lia)).
  rewrite !to_int_id by (unfold INT_MAX in *; lia).
  repeat case_decide; repeat f_equal; lia.
Qed.



Example chunk_schedule_5_1_2 :
  map (fun e => (Transport.sr_sendsize e, Transport.sr_recvsize e))
      (Transport.chunk_schedule 5 1 2) = [(2, 1); (2, 0); (1, 0)].
Proof. vm_compute. reflexivity. Qed.


(** ** Transport: message tags *)

Lemma chunk_loop_tags (tag : Z -> Z) nsend nrecv rounds :
  forall ichunk cs cr so ro,
  map Transport.sr_tag
      (Transport.chunk_loop (fun i => [tag i]) nsend nrecv rounds ichunk cs cr so ro)
  = map (fun k => tag (ichunk + Z.of_nat k)) (seq 0 rounds).
Proof.
  induction rounds as [|r IH]; intros ichunk cs cr so ro; [done|].
  cbn [Transport.chunk_loop Transport.MPIUpdateCommChunks map app seq
       Transport.sr_tag].
  rewrite IH, <- seq_shift, map_map. f_equal.
  - f_equal. lia.
  - apply map_ext. intros k. f_equal. lia.
Qed.

(** X1. In [MPIUpdateExportList] the tag of round [i] is [TAG_FOF_A + i]: no two
    rounds of a pair share a tag. *)
Lemma MPIUpdateExportList_tags_distinct TAG_FOF_A nsend nrecv maxchunksize :
  NoDup (map Transport.sr_tag
           (Transport.MPIUpdateExportList_exchange TAG_FOF_A nsend nrecv maxchunksize)).
Proof.
  unfold Transport.MPIUpdateExportList_exchange, Transport.chunk_exchange.
  destruct (Transport.MPIInitialzeCommChunks nsend nrecv maxchunksize)
    as [[[[n cs] cr] so] ro].
  rewrite (chunk_loop_tags (fun i => TAG_FOF_A + i)).
  apply NoDup_fmap_2; [|apply NoDup_seq].
  intros j k H. lia.
Qed.

(** In [MPIBuildParticleExportList] the tags are the same two constants in
    every round, whatever the counts. *)
Lemma MPIBuildParticleExportList_tags_constant TAG_FOF_A TAG_FOF_B
    nsend nrecv maxchunksize :
  Forall (fun t => t = TAG_FOF_A \/ t = TAG_FOF_B)
    (map Transport.sr_tag
       (Transport.MPIBuildParticleExportList_exchange
          TAG_FOF_A TAG_FOF_B nsend nrecv maxchunksize)).
Proof.
  unfold Transport.MPIBuildParticleExportList_exchange, Transport.chunk_exchange.
  destruct (Transport.MPIInitialzeCommChunks nsend nrecv maxchunksize)
    as [[[[n cs] cr] so] ro].
  generalize 0. revert cs cr so ro.
  induction (Z.to_nat n) as [|r IH]; intros cs cr so ro ichunk; [constructor|].
  cbn [Transport.chunk_loop Transport.MPIUpdateCommChunks map app
       Transport.sr_tag].
  constructor; [by left|]. constructor; [by right|]. apply IH.
Qed.

(** C9 (evaluation at the failing input). With 3 records to send, none to
    receive and a chunk limit of 2, the chunk loop of
    [MPIBuildParticleExportList] runs two rounds and uses the tags
    [TAG_FOF_A], [TAG_FOF_B] in both: the tags of round 1 are those of
    round 0, whereas [MPIUpdateExportList] on the same counts uses
    [TAG_FOF_A] and [TAG_FOF_A + 1]. *)
Theorem MPIBuildParticleExportList_tags_repeat (TAG_FOF_A TAG_FOF_B : Z) :
  let trace := Transport.MPIBuildParticleExportList_exchange TAG_FOF_A TAG_FOF_B 3 0 2 in
  map Transport.sr_sendsize trace = [2; 2; 1; 1] /\
  Transport.tags_of_round 0 2 trace = [TAG_FOF_A; TAG_FOF_B] /\
  Transport.tags_of_round 1 2 trace = [TAG_FOF_A; TAG_FOF_B] /\
  map Transport.sr_tag (Transport.MPIUpdateExportList_exchange TAG_FOF_A 3 0 2)
  = [TAG_FOF_A + 0; TAG_FOF_A + 1].
Proof. repeat split. Qed.

(** ** Compactor: the comparators of [fofid_in] *)

(** What each comparator decides. *)
Lemma fof_id_cmp_lt a b :
  Compactor.fof_id_cmp a b < 0 <->
  Compactor.iGroup a > Compactor.iGroup b \/
  Compactor.iGroup a = Compactor.iGroup b /\
  (GetType (Compactor.p a) < GetType (Compactor.p b) \/
   GetType (Compactor.p a) = GetType (Compactor.p b) /\
   GetID (Compactor.p a) < GetID (Compactor.p b)).
Proof. unfold Compactor.fof_id_cmp. repeat case_decide; lia. Qed.

Lemma fof_id_cmp_vec_true a b :
  Compactor.fof_id_cmp_vec a b = true <->
  Compactor.iGroup a < Compactor.iGroup b \/
  Compactor.iGroup a = Compactor.iGroup b /\
  (GetType (Compactor.p a) < GetType (Compactor.p b) \/
   GetType (Compactor.p a) = GetType (Compactor.p b) /\
   GetID (Compactor.p a) < GetID (Compactor.p b)).
Proof.
  unfold Compactor.fof_id_cmp_vec.
  repeat case_decide; split; intros; try done; try lia.
Qed.

(** On records of different groups the two comparators order in opposite
    directions. *)
Lemma fof_id_cmp_vec_opposite a b :
  Compactor.iGroup a <> Compactor.iGroup b ->
  (Compactor.fof_id_cmp a b < 0 <-> Compactor.fof_id_cmp_vec b a = true).
Proof. rewrite fof_id_cmp_lt, fof_id_cmp_vec_true. lia. Qed.

(** C10 (evaluation at the failing input). For [a] in group 2 and [b] in
    group 1, [fof_id_cmp a b] is negative but [fof_id_cmp_vec a b] is false.
    On the records with groups 0, 5, 5 and [minsize = 1], sorting with
    [fof_id_cmp_vec] puts the ungrouped record first, the run loop of
    [MPIBaryonCompileGroups] stops on it and counts no group; sorting with
    [fof_id_cmp] puts it last and the loop counts the group. *)
Theorem fof_id_cmp_vec_not_fof_id_cmp :
  let rec g := Compactor.mkfofid_in (mkParticle 0 0 0) 0 0 g in
  Compactor.fof_id_cmp (rec 2) (rec 1) = -1 /\
  Compactor.fof_id_cmp_vec (rec 2) (rec 1) = false /\
  map Compactor.iGroup (std_sort Compactor.fof_id_cmp_vec [rec 0; rec 5; rec 5])
  = [0; 5; 5] /\
  map Compactor.iGroup (Compactor.qsort Compactor.fof_id_cmp [rec 0; rec 5; rec 5])
  = [5; 5; 0] /\
  (Compactor.MPIBaryonCompileGroups [rec 0; rec 5; rec 5] 1).2 = 0 /\
  (Compactor.MPIBaryonCompileGroups_qsort [rec 0; rec 5; rec 5] 1).2 = 1.
Proof. repeat split. Qed.

(** ** Compactor: the run loop of [MPICompileGroups] *)

(** C4 (evaluation at the failing input). One particle of group 5 and no
    ungrouped particle, [minsize = 2], nothing exported: the only run has
    length 1, below [minsize], and keeps its label; the loop never reaches
    the test that would reset it, and no group is counted. *)
Theorem MPICompileGroups_last_run_kept :
  Compactor.MPICompileGroups [mkParticle (-5) 0 0] 2 0 = ([5], []).
Proof. reflexivity. Qed.

Example MPICompileGroups_small_run_reset :
  Compactor.MPICompileGroups
    [mkParticle 0 0 0; mkParticle (-5) 1 0; mkParticle (-7) 2 0; mkParticle (-7) 3 0] 2 0
  = ([7; 7; 0; 0], [2]).
Proof. reflexivity. Qed.

Example MPICompileGroups_last_run_of_two :
  Compactor.MPICompileGroups
    [mkParticle (-5) 1 0; mkParticle (-7) 2 0; mkParticle (-7) 3 0] 2 0
  = ([7; 7; 5], [2]).
Proof. reflexivity. Qed.

(** ** Transport: unpacking the side channel *)

Lemma update_range_length {A} (f : A -> A) l a b :
  length (update_range f l a b) = length l.
Proof. unfold update_range. apply length_imap. Qed.

Lemma update_range_lookup {A} (f : A -> A) l a b (j : nat) :
  update_range f l a b !! j =
  (fun x => if decide (a <= Z.of_nat j < b) then f x else x) <$> (l !! j).
Proof. unfold update_range. apply list_lookup_imap. Qed.

Lemma set_length {A} (l : list A) i x : length (set l i x) = length l.
Proof. unfold set. case_decide; [apply length_insert | done]. Qed.

Lemma set_lookup_eq {A} (l : list A) i x :
  0 <= i < Z.of_nat (length l) -> set l i x !! Z.to_nat i = Some x.
Proof.
  intros H. unfold set. rewrite decide_True by lia.
  apply list_lookup_insert_eq. lia.
Qed.

Lemma set_lookup_ne {A} (l : list A) i x (j : nat) :
  i <> Z.of_nat j -> set l i x !! j = l !! j.
Proof.
  intros H. unfold set. case_decide; [|done].
  apply list_lookup_insert_ne. lia.
Qed.

Section reconstruct.
Import Transport.
Variables (opt : Options) (proprecvbuff : list Z).

Lemma reconstruct_length indicesrecv : forall i Part,
  length (reconstruct opt proprecvbuff indicesrecv i Part) = length Part.
Proof.
  induction indicesrecv as [|index rest IH]; intros i Part; [done|].
  cbn [reconstruct]. rewrite IH. apply set_length.
Qed.

(** A particle whose index was not received is not touched. *)
Lemma reconstruct_other indicesrecv (j : nat) : forall i Part,
  Z.of_nat j ∉ indicesrecv ->
  reconstruct opt proprecvbuff indicesrecv i Part !! j = Part !! j.
Proof.
  induction indicesrecv as [|index rest IH]; intros i Part Hj; [done|].
  cbn [reconstruct]. rewrite not_elem_of_cons in Hj. destruct Hj as [Hne Hj].
  rewrite IH by done. apply set_lookup_ne. done.
Qed.

(** The [k]-th received index gets the properties unpacked from the
    [k]-th block of the buffer. *)
Lemma reconstruct_received indicesrecv : forall i Part (k : nat) index,
  NoDup indicesrecv ->
  Forall (fun index => 0 <= index < Z.of_nat (length Part)) indicesrecv ->
  indicesrecv !! k = Some index ->
  reconstruct opt proprecvbuff indicesrecv i Part !! Z.to_nat index
  = Some (Some (unpack_properties opt proprecvbuff (i + Z.of_nat k))).
Proof.
  induction indicesrecv as [|index0 rest IH]; intros i Part k index Hnd Hall Hk;
    [done|].
  cbn [reconstruct].
  apply NoDup_cons in Hnd as [Hnotin Hnd].
  apply Forall_cons in Hall as [Hin0 Hall].
  destruct k as [|k]; simplify_eq/=.
  - rewrite reconstruct_other by (rewrite Z2Nat.id by lia; done).
    rewrite set_lookup_eq by done. do 3 f_equal. lia.
  - rewrite (IH (i + 1) _ k index); try done.
    + do 3 f_equal. lia.
    + rewrite set_length. done.
Qed.
End reconstruct.

(** C8 (evaluation at the failing input).  One extra field is configured
    and the received chunk holds one particle that came with the handle it
    had on the sender: when no index is received the call returns before
    its clearing loop and the handle is still there.  The baryon exchange
    of [MPISendParticlesBetweenReadThreads] produces that state: the buffer
    of the sender holds a dark-matter particle and, behind it, a gas
    particle; the gas particle is the one copied, the dark-matter particle
    the one the side channel looks at, so no index is sent and the gas
    particle keeps the handle of the sender. *)
Theorem stale_handle_kept_when_nothing_received :
  let opt := Transport.mkOptions ["Temperature"] [] [] in
  let stale := Some Transport.HydroProperties_new in
  Transport.MPISendReceiveHydroInfoBetweenThreads opt 0 [] 1 [stale] ([], [])
  = (Some ([], []), [stale]) /\
  Transport.baryon_round opt [None; stale] 0 1 0 1 = [stale].
Proof. vm_compute. split; reflexivity. Qed.

(** X28. What the receiving side of the gas side channel does to a chunk
    of [nlocal] received particles.  When no extra field is configured or
    no index is received, the chunk is returned as it was.  Otherwise every
    particle of the chunk whose index was not received ends with a null
    handle, the particles behind the chunk are left as they were and the
    [k]-th received index ends with the properties unpacked from the
    [k]-th block of the buffer. *)
Theorem MPISendReceiveHydroInfoBetweenThreads_unpack
    (opt : Transport.Options) (nlocalbuff : Z)
    (Pbuf : list (option Transport.HydroProperties)) (nlocal : Z)
    (Part : list (option Transport.HydroProperties))
    (indicesrecv proprecvbuff : list Z) :
  0 <= nlocal <= Z.of_nat (length Part) ->
  NoDup indicesrecv ->
  Forall (fun index => 0 <= index < nlocal) indicesrecv ->
  let Part' := (Transport.MPISendReceiveHydroInfoBetweenThreads
                  opt nlocalbuff Pbuf nlocal Part (indicesrecv, proprecvbuff)).2 in
  (Transport.numextrafields opt = 0 \/ indicesrecv = [] -> Part' = Part) /\
  (Transport.numextrafields opt <> 0 -> indicesrecv <> [] ->
     length Part' = length Part /\
     (forall j : nat, Z.of_nat j < nlocal -> Z.of_nat j ∉ indicesrecv ->
        Part' !! j = Some None) /\
     (forall j : nat, nlocal <= Z.of_nat j -> Part' !! j = Part !! j) /\
     (forall (k : nat) index, indicesrecv !! k = Some index ->
        Part' !! Z.to_nat index
        = Some (Some (Transport.unpack_properties opt proprecvbuff (Z.of_nat k))))).
Proof.
  intros Hnlocal Hnd Hall Part'. subst Part'.
  unfold Transport.MPISendReceiveHydroInfoBetweenThreads. split.
  - intros [Hnf| ->]; case_decide; done.
  - intros Hnf Hne. rewrite decide_False by done.
    rewrite decide_False by (destruct indicesrecv; [done | cbn; lia]).
    cbn [snd]. split; [|split; [|split]].
    + rewrite reconstruct_length. apply update_range_length.
    + intros j Hj Hnotin. rewrite reconstruct_other by done.
      rewrite update_range_lookup.
      destruct (lookup_lt_is_Some_2 Part j ltac:(lia)) as [x ->].
      cbn. by rewrite decide_True by lia.
    + intros j Hj. rewrite reconstruct_other.
      * rewrite update_range_lookup.
        destruct (Part !! j); [cbn|done]. by rewrite decide_False by lia.
      * intros Hin. rewrite Forall_forall in Hall. apply Hall in Hin. lia.
    + intros k index Hk.
      rewrite (reconstruct_received opt proprecvbuff indicesrecv 0 _ k index);
        try done.
      rewrite update_range_length.
      eapply Forall_impl; [exact Hall|]. intros x Hx. cbn in Hx. lia.
Qed.

(** The theorem on a chunk of two particles with stale handles, of which
    the second is received. *)
Lemma MPISendReceiveHydroInfoBetweenThreads_unpack_witness :
  let opt := Transport.mkOptions ["Temperature"] [] [] in
  let stale := Some Transport.HydroProperties_new in
  let Part' := (Transport.MPISendReceiveHydroInfoBetweenThreads
                  opt 0 [] 2 [stale; stale] ([1], [42])).2 in
  (Transport.numextrafields opt = 0 \/ [1] = [] -> Part' = [stale; stale]) /\
  (Transport.numextrafields opt <> 0 -> [1] <> [] ->
     length Part' = length [stale; stale] /\
     (forall j : nat, Z.of_nat j < 2 -> Z.of_nat j ∉ [1] ->
        Part' !! j = Some None) /\
     (forall j : nat, 2 <= Z.of_nat j -> Part' !! j = [stale; stale] !! j) /\
     (forall (k : nat) index, [1] !! k = Some index ->
        Part' !! Z.to_nat index
        = Some (Some (Transport.unpack_properties opt [42] (Z.of_nat k))))).
Proof.
  intros opt stale.
  apply (MPISendReceiveHydroInfoBetweenThreads_unpack opt 0 [] 2 [stale; stale] [1] [42]).
  - cbn. lia.
  - apply NoDup_singleton.
  - repeat constructor; lia.
Defined.

(** X7. [MPISendReceiveFOFHydroInfoBetweenThreads] clears nothing: a record
    whose index was not received keeps its handle. *)
Lemma MPISendReceiveFOFHydroInfoBetweenThreads_keeps opt FoFGroupDataLocal
    indicessend propsendbuff indicesrecv proprecvbuff (j : nat) :
  Z.of_nat j ∉ indicesrecv ->
  (Transport.MPISendReceiveFOFHydroInfoBetweenThreads opt FoFGroupDataLocal
     indicessend propsendbuff (indicesrecv, proprecvbuff)).2 !! j
  = FoFGroupDataLocal !! j.
Proof.
  intros Hj. unfold Transport.MPISendReceiveFOFHydroInfoBetweenThreads.
  case_decide; [done|]. cbn [snd]. by apply reconstruct_other.
Qed.

(** ** Linker: the merge rule of [MPILinkAcross] *)

Lemma set_lookup {A} (l : list A) i x (j : nat) :
  0 <= i < Z.of_nat (length l) ->
  set l i x !! j = if decide (i = Z.of_nat j) then Some x else l !! j.
Proof.
  intros Hi. case_decide as Hij.
  - subst i. pose proof (set_lookup_eq l (Z.of_nat j) x Hi) as H.
    by rewrite Nat2Z.id in H.
  - apply set_lookup_ne. done.
Qed.

Lemma get_lookup {A} (d : A) l (i : Z) x :
  l !! Z.to_nat i = Some x -> get d l i = x.
Proof. unfold get. intros ->. done. Qed.

(** More fuel does not change a walk that ended. *)
Lemma walk_more_fuel Next fuel : forall fuel' ss c,
  (fuel <= fuel')%nat ->
  Linker.walk Next fuel ss = Some c -> Linker.walk Next fuel' ss = Some c.
Proof.
  induction fuel as [|fuel IH]; intros fuel' ss c Hle; [done|].
  destruct fuel' as [|fuel']; [lia|]. cbn [Linker.walk].
  case_decide; [|done].
  destruct (Linker.walk Next fuel _) as [c'|] eqn:Hw; [|done].
  rewrite (IH fuel' _ c') by (done || lia). done.
Qed.

(** Case analysis on the membership tests of a goal. *)
Ltac member_cases :=
  repeat case_decide; try done; exfalso;
  repeat match goal with
  | H : _ ∈ _ :: _ |- _ => apply elem_of_cons in H as [?|?]
  | H : _ ∈ [] |- _ => by apply elem_of_nil in H
  | H : _ ∉ _ :: _ |- _ => apply not_elem_of_cons in H as [? ?]
  end; try done; try congruence.

Section relabel.
Import Linker.
Variables (env : LinkEnv) (g t len : Z).

Let idof (s : Z) : Z := GetID (get particle0 (Part env) s).

(** The chain loop ends whenever the walk does, writes the three values at
    every index of the chain and nowhere else. *)
Lemma relabel_chain_spec fuel : forall ss st c,
  walk (Next env) fuel ss = Some c ->
  Forall (fun s => 0 <= s < Z.of_nat (length (Len st)) /\
                   0 <= idof s < Z.of_nat (length (pfof st)) /\
                   0 <= idof s < Z.of_nat (length (mpi_foftask st))) c ->
  exists st',
    relabel_chain env g t len fuel ss st = Some st' /\
    (forall j : nat, pfof st' !! j =
       if decide (Z.of_nat j ∈ map idof c) then Some g else pfof st !! j) /\
    (forall j : nat, Len st' !! j =
       if decide (Z.of_nat j ∈ c) then Some len else Len st !! j) /\
    (forall j : nat, mpi_foftask st' !! j =
       if decide (Z.of_nat j ∈ map idof c) then Some t else mpi_foftask st !! j) /\
    mpi_gidoffset st' = mpi_gidoffset st /\
    FoFDataGet st' = FoFDataGet st /\
    links st' = links st.
Proof using Type.
  induction fuel as [|fuel IH]; intros ss st c Hwalk Hrange; [done|].
  cbn [walk relabel_chain] in *. fold (idof ss).
  case_decide as Hnx.
  - destruct (walk (Next env) fuel _) as [c'|] eqn:Hw; [|done].
    injection Hwalk as <-.
    apply Forall_cons in Hrange as [(Hs & Hp & Hf) Hrange].
    edestruct (IH _ (mkLinkState (set (pfof st) (idof ss) g)
                       (set (Len st) ss len) (set (mpi_foftask st) (idof ss) t)
                       (mpi_gidoffset st) (FoFDataGet st) (links st)) c' Hw)
      as (st' & Hrun & Hpf & Hlen & Htask & Hgid & Hget & Hlinks).
    { cbn. rewrite !set_length. done. }
    exists st'. cbn in *. split; [done|].
    repeat split; try done.
    + intros j. rewrite Hpf, set_lookup by done.
      member_cases.
    + intros j. rewrite Hlen, set_lookup by done.
      member_cases.
    + intros j. rewrite Htask, set_lookup by done.
      member_cases.
  - injection Hwalk as <-.
    apply Forall_cons in Hrange as [(Hs & Hp & Hf) _].
    eexists. split; [done|]. cbn.
    repeat split; try done; intros j; rewrite set_lookup by done;
      member_cases.
Qed.
End relabel.

(** C1 (counterexample). A local chain of two particles labelled 3 and an
    imported record of group 7: the foreign id exceeds the local one and the
    chain keeps its label.  With the ids swapped (local 7, foreign 3) the
    foreign id does not exceed the local one and the chain is relabelled. *)
Lemma link_grouped_foreign_larger_unchanged :
  let env := Linker.mkLinkEnv [mkParticle 0 10 0; mkParticle 1 11 0]
                              [0; 0] [1; -1] [mkParticle 0 5 0] 100 in
  let st g := Linker.mkLinkState [g; g] [2; 2] [0; 0] 0
                [Linker.mkfofdata_in 0 0 (10 - g) 1 4] 0 in
  (Linker.pfof <$> Linker.link_candidate env 2 0 0 (st 3) = Some [3; 3]
   /\ Linker.iGroup (get Linker.fofdata0 (Linker.FoFDataGet (st 3)) 0) > 3)
  /\
  (Linker.pfof <$> Linker.link_candidate env 2 0 0 (st 7) = Some [3; 3]
   /\ ~ Linker.iGroup (get Linker.fofdata0 (Linker.FoFDataGet (st 7)) 0) > 7).
Proof. repeat split; vm_compute; congruence. Qed.

(** C1 (amended). Imported record [i] has a nonzero group id, the head of
    candidate [k] is grouped ([pfof > 0]) and the chain from the head ends
    within [fuel] steps, all indices in range.  Then the step returns, and:
    if the local group id exceeds the foreign one, every particle of the
    chain carries the foreign group id and group task, every [Len] of the
    chain is the foreign length plus the old [Len[k]], labels outside the
    chain are as before, the record's length has grown by [Len[k]] and one
    link is counted; otherwise the state is unchanged. *)
Theorem link_grouped_relabels_when_local_larger
    (env : Linker.LinkEnv) (fuel : nat) (i k : Z) (st : Linker.LinkState)
    (c : list Z) :
  let f := get Linker.fofdata0 (Linker.FoFDataGet st) i in
  let head := get 0 (Linker.Head env) k in
  let idof s := GetID (get Linker.particle0 (Linker.Part env) s) in
  let local := get 0 (Linker.pfof st) (idof head) in
  Linker.iGroup f <> 0 ->
  local > 0 ->
  Linker.walk (Linker.Next env) fuel head = Some c ->
  Forall (fun s => 0 <= s < Z.of_nat (length (Linker.Len st)) /\
                   0 <= idof s < Z.of_nat (length (Linker.pfof st)) /\
                   0 <= idof s < Z.of_nat (length (Linker.mpi_foftask st))) c ->
  0 <= i < Z.of_nat (length (Linker.FoFDataGet st)) ->
  exists st',
    Linker.link_candidate env fuel i k st = Some st' /\
    (local > Linker.iGroup f ->
       Forall (fun s =>
                 get 0 (Linker.pfof st') (idof s) = Linker.iGroup f /\
                 get 0 (Linker.mpi_foftask st') (idof s) = Linker.iGroupTask f /\
                 get 0 (Linker.Len st') s
                 = Linker.iLen f + get 0 (Linker.Len st) k) c /\
       (forall j : nat, Z.of_nat j ∉ map idof c ->
          Linker.pfof st' !! j = Linker.pfof st !! j) /\
       Linker.iLen (get Linker.fofdata0 (Linker.FoFDataGet st') i)
       = Linker.iLen f + get 0 (Linker.Len st) k /\
       Linker.links st' = Linker.links st + 1) /\
    (~ local > Linker.iGroup f -> st' = st).
Proof.
  intros f head idof local Hgrouped Hlocal Hwalk Hrange Hi.
  unfold Linker.link_candidate.
  fold f. fold head. fold (idof head). fold local.
  rewrite decide_False by done. rewrite decide_True by done.
  case_decide as Hcmp.
  - destruct (relabel_chain_spec env (Linker.iGroup f) (Linker.iGroupTask f)
                (Linker.iLen f + get 0 (Linker.Len st) k) fuel head st c
                Hwalk Hrange)
      as (st1 & -> & Hpf & Hlen & Htask & Hgid & Hget & Hlinks).
    cbn [mbind option_bind]. eexists. split; [done|].
    split; [|done]. intros _. cbn. split; [|split; [|split]].
    + rewrite Forall_forall in Hrange. apply Forall_forall. intros s Hs.
      destruct (Hrange s Hs) as (Hs1 & Hs2 & Hs3).
      split; [|split]; apply get_lookup.
      * rewrite Hpf, Z2Nat.id, decide_True by (lia || by apply (list_elem_of_fmap_2 idof)).
        done.
      * rewrite Htask, Z2Nat.id, decide_True by (lia || by apply (list_elem_of_fmap_2 idof)).
        done.
      * rewrite Hlen, Z2Nat.id, decide_True by (lia || done). done.
    + intros j Hj. rewrite Hpf, decide_False by done. done.
    + rewrite Hget. erewrite get_lookup; [|apply set_lookup_eq; done]. done.
    + lia.
  - eexists. split; [done|]. split; [done|]. done.
Qed.

(** The theorem on a chain of two particles labelled 7, against an imported
    record of group 3 and length 4. *)
Lemma link_grouped_relabels_when_local_larger_witness :
  let env := Linker.mkLinkEnv [mkParticle 0 10 0; mkParticle 1 11 0]
                              [0; 0] [1; -1] [mkParticle 0 5 0] 100 in
  let st := Linker.mkLinkState [7; 7] [2; 2] [0; 0] 0
              [Linker.mkfofdata_in 0 0 3 1 4] 0 in
  exists st',
    Linker.link_candidate env 2 0 1 st = Some st' /\
    (7 > 3 ->
       Forall (fun s =>
                 get 0 (Linker.pfof st')
                     (GetID (get Linker.particle0 (Linker.Part env) s)) = 3 /\
                 get 0 (Linker.mpi_foftask st')
                     (GetID (get Linker.particle0 (Linker.Part env) s)) = 1 /\
                 get 0 (Linker.Len st') s = 4 + 2) [0; 1] /\
       (forall j : nat,
          Z.of_nat j ∉ map (fun s => GetID (get Linker.particle0 (Linker.Part env) s))
                           [0; 1] ->
          Linker.pfof st' !! j = Linker.pfof st !! j) /\
       Linker.iLen (get Linker.fofdata0 (Linker.FoFDataGet st') 0) = 4 + 2 /\
       Linker.links st' = 0 + 1) /\
    (~ 7 > 3 -> st' = st).
Proof.
  intros env st.
  apply (link_grouped_relabels_when_local_larger env 2 0 1 st [0; 1]).
  - vm_compute. discriminate.
  - reflexivity.
  - reflexivity.
  - repeat constructor; vm_compute; congruence.
  - vm_compute. split; congruence.
Defined.

(** C2 (counterexample). Imported record and candidate both ungrouped.
    With the local head PID (10) above the foreign PID (5) the candidate
    gets a new group id; with the local head PID (10) below the foreign PID
    (50) nothing changes. *)
Lemma link_ungrouped_local_pid_larger_allocates :
  let env pid := Linker.mkLinkEnv [mkParticle 0 10 0] [0] [-1]
                                  [mkParticle 0 pid 0] 100 in
  let st := Linker.mkLinkState [0] [0] [0] 3
              [Linker.mkfofdata_in 0 0 0 1 0] 0 in
  (GetPID (get Linker.particle0 (Linker.Part (env 5)) 0)
     > GetPID (get Linker.particle0 (Linker.PartDataGet (env 5)) 0)
   /\ Linker.link_candidate (env 5) 1 0 0 st
      = Some (Linker.mkLinkState [103] [1] [1] 4
                [Linker.mkfofdata_in 0 0 0 1 0] 1))
  /\
  (GetPID (get Linker.particle0 (Linker.Part (env 50)) 0)
     < GetPID (get Linker.particle0 (Linker.PartDataGet (env 50)) 0)
   /\ Linker.link_candidate (env 50) 1 0 0 st = Some st).
Proof. repeat split; vm_compute; congruence. Qed.

(** C2 (amended). Imported record [i] is ungrouped and the head of
    candidate [k] is ungrouped, indices in range.  If the PID of the local
    head is greater than the PID of the imported particle, the candidate is
    given the id [mpi_maxgid + mpi_gidoffset], the offset is incremented,
    [Len[k]] is 1, the group task of the imported record is recorded for the
    candidate and one link is counted; otherwise the state is unchanged. *)
Theorem link_ungrouped_allocates_when_local_pid_larger
    (env : Linker.LinkEnv) (fuel : nat) (i k : Z) (st : Linker.LinkState) :
  let f := get Linker.fofdata0 (Linker.FoFDataGet st) i in
  let head := get Linker.particle0 (Linker.Part env) (get 0 (Linker.Head env) k) in
  let idk := GetID (get Linker.particle0 (Linker.Part env) k) in
  let foreign := get Linker.particle0 (Linker.PartDataGet env) i in
  Linker.iGroup f = 0 ->
  get 0 (Linker.pfof st) (GetID head) = 0 ->
  0 <= k < Z.of_nat (length (Linker.Len st)) ->
  0 <= idk < Z.of_nat (length (Linker.pfof st)) ->
  0 <= idk < Z.of_nat (length (Linker.mpi_foftask st)) ->
  exists st',
    Linker.link_candidate env fuel i k st = Some st' /\
    (GetPID head > GetPID foreign ->
       get 0 (Linker.pfof st') idk
       = Linker.mpi_maxgid env + Linker.mpi_gidoffset st /\
       Linker.mpi_gidoffset st' = Linker.mpi_gidoffset st + 1 /\
       get 0 (Linker.Len st') k = 1 /\
       get 0 (Linker.mpi_foftask st') idk = Linker.iGroupTask f /\
       (forall j : nat, idk <> Z.of_nat j ->
          Linker.pfof st' !! j = Linker.pfof st !! j) /\
       Linker.FoFDataGet st' = Linker.FoFDataGet st /\
       Linker.links st' = Linker.links st + 1) /\
    (~ GetPID head > GetPID foreign -> st' = st).
Proof.
  intros f head idk foreign Hf Hhead Hk Hidp Hidt.
  unfold Linker.link_candidate.
  fold f. fold head. fold idk. fold foreign.
  rewrite decide_True by done.
  case_decide as Hcmp.
  - destruct Hcmp as [_ Hcmp]. eexists. split; [done|]. cbn.
    split; [|done]. intros _.
    repeat split; try done.
    + apply get_lookup, set_lookup_eq. done.
    + apply get_lookup, set_lookup_eq. done.
    + apply get_lookup, set_lookup_eq. done.
    + intros j Hj. apply set_lookup_ne. done.
  - eexists. split; [done|]. split; [|done].
    intros Hpid. destruct Hcmp. done.
Qed.

(** The theorem on one ungrouped local particle of PID 10 against an
    ungrouped imported particle of PID 5. *)
Lemma link_ungrouped_allocates_when_local_pid_larger_witness :
  let env := Linker.mkLinkEnv [mkParticle 0 10 0] [0] [-1]
                              [mkParticle 0 5 0] 100 in
  let st := Linker.mkLinkState [0] [0] [0] 3
              [Linker.mkfofdata_in 0 0 0 1 0] 0 in
  exists st',
    Linker.link_candidate env 1 0 0 st = Some st' /\
    (10 > 5 ->
       get 0 (Linker.pfof st') 0 = 100 + 3 /\
       Linker.mpi_gidoffset st' = 3 + 1 /\
       get 0 (Linker.Len st') 0 = 1 /\
       get 0 (Linker.mpi_foftask st') 0 = 1 /\
       (forall j : nat, 0 <> Z.of_nat j ->
          Linker.pfof st' !! j = Linker.pfof st !! j) /\
       Linker.FoFDataGet st' = Linker.FoFDataGet st /\
       Linker.links st' = 0 + 1) /\
    (~ 10 > 5 -> st' = st).
Proof.
  intros env st.
  apply (link_ungrouped_allocates_when_local_pid_larger env 1 0 0 st);
    try reflexivity; vm_compute; split; congruence.
Defined.

(** ** Sorting *)

Lemma sort_insert_perm {A} (cmp : A -> A -> bool) x l :
  sort_insert cmp x l ≡ₚ x :: l.
Proof.
  induction l as [|y l IH]; [done|]. cbn [sort_insert].
  destruct (cmp x y); [done|]. rewrite IH. apply Permutation_swap.
Qed.

Lemma std_sort_perm {A} (cmp : A -> A -> bool) l : std_sort cmp l ≡ₚ l.
Proof.
  induction l as [|x l IH]; [done|].
  cbn [std_sort foldr]. fold (std_sort cmp l).
  rewrite sort_insert_perm, IH. done.
Qed.

(** ** Planner: exports on the mesh *)

Lemma get_Forall {A} (P : A -> Prop) d l i :
  P d -> Forall P l -> P (get d l i).
Proof.
  intros Hd Hl. unfold get.
  destruct (l !! Z.to_nat i) as [x|] eqn:Hx; [|done].
  cbn. eapply Forall_lookup_1; done.
Qed.

Lemma get_set_eq {A} (d : A) l i x :
  0 <= i < Z.of_nat (length l) -> get d (set l i x) i = x.
Proof. intros H. apply get_lookup, set_lookup_eq. done. Qed.

Lemma get_set_ne {A} (d : A) l i j x :
  0 <= j -> i <> j -> get d (set l i x) j = get d l j.
Proof.
  intros Hj Hij. unfold get. rewrite set_lookup_ne; [done|]. lia.
Qed.

Lemma wrap_axis_mod n i :
  0 < n -> - n <= i < 2 * n -> Planner.wrap_axis n i = i mod n.
Proof.
  intros Hn Hi. unfold Planner.wrap_axis. repeat case_decide.
  - rewrite <- (Z.mod_add i 1 n) by lia. rewrite Z.mod_small; lia.
  - rewrite <- (Z.mod_add i (-1) n) by lia. rewrite Z.mod_small; lia.
  - rewrite Z.mod_small; lia.
Qed.

Lemma elem_of_zrange a b i : i ∈ Planner.zrange a b <-> a <= i <= b.
Proof.
  unfold Planner.zrange. rewrite list_elem_of_fmap. split.
  - intros (k & -> & Hk). apply elem_of_seq in Hk. lia.
  - intros H. exists (Z.to_nat (i - a)). split; [lia|].
    apply elem_of_seq. lia.
Qed.

Section planner.
Import Planner.
Variables (opt : Mesh) (ThisTask NProcs : Z).
Hypothesis HThisTask : 0 <= ThisTask < NProcs.
Hypothesis Hids : Forall (fun c => 0 <= c < NProcs) (cellnodeids opt).
Hypothesis Hnew :
  Forall (Forall (fun c => 0 <= c < NProcs)) (newcellnodeids opt).

Lemma cell_owners_spec index :
  Forall (fun c => c <> ThisTask /\ 0 <= c < NProcs)
         (cell_owners opt ThisTask index).
Proof using HThisTask Hids Hnew.
  unfold cell_owners. apply Forall_app. split.
  - case_decide; [|constructor]. apply Forall_singleton. split; [done|].
    apply (get_Forall (fun c => 0 <= c < NProcs)); [lia | done].
  - repeat case_decide; try constructor.
    apply Forall_forall. intros c Hc.
    apply list_elem_of_filter in Hc as [Hne Hc]. split; [done|].
    pose proof (get_Forall (Forall (fun c => 0 <= c < NProcs)) []
                  (newcellnodeids opt) index ltac:(constructor) Hnew) as Hall.
    rewrite Forall_forall in Hall. by apply Hall.
Qed.

Lemma cellnodeidlist_spec xsearch :
  Forall (fun c => c <> ThisTask /\ 0 <= c < NProcs)
         (MPIGetCellNodeIDListInSearchUsingMesh opt ThisTask xsearch).
Proof using HThisTask Hids Hnew.
  unfold MPIGetCellNodeIDListInSearchUsingMesh.
  repeat (apply Forall_flat_map, List.Forall_forall; intros ? _).
  apply cell_owners_spec.
Qed.

(** The flag array makes the destinations of one particle distinct. *)
Lemma export_particle_spec i grp len cellnodeidlist :
  forall nsend_local sent_mpi_domain,
  Forall (fun c => c <> ThisTask /\ 0 <= c < NProcs) cellnodeidlist ->
  length sent_mpi_domain = Z.to_nat NProcs ->
  length nsend_local = Z.to_nat NProcs ->
  Forall (fun s => s = 0 \/ s = 1) sent_mpi_domain ->
  exists recs nsend_local' sent',
    export_particle ThisTask i grp len cellnodeidlist nsend_local sent_mpi_domain
    = (recs, nsend_local', sent') /\
    Forall (fun r => Linker.Index r = i /\ Linker.Task r <> ThisTask /\
                     0 <= Linker.Task r /\
                     get 0 sent_mpi_domain (Linker.Task r) <> 1) recs /\
    NoDup (map Linker.Task recs) /\
    length nsend_local' = Z.to_nat NProcs /\
    get 0 nsend_local' ThisTask = get 0 nsend_local ThisTask.
Proof using HThisTask.
  induction cellnodeidlist as [|c rest IH];
    intros nsend_local sent Hall Hlsent Hlns Hflags.
  - do 3 eexists. split; [done|]. repeat split; try done; constructor.
  - apply Forall_cons in Hall as [[Hc Hcr] Hall]. cbn [export_particle].
    case_decide as Hsent.
    + destruct (IH nsend_local sent Hall Hlsent Hlns Hflags)
        as (recs & ns' & s' & -> & Hrecs & Hnd & Hlen & Hself).
      do 3 eexists. split; [done|]. done.
    + assert (get 0 sent c = 0) as Hzero.
      { pose proof (get_Forall (fun s => s = 0 \/ s = 1) 0 sent c
                      ltac:(by left) Hflags). cbn in *. lia. }
      destruct (IH (set nsend_local c (get 0 nsend_local c + 1))
                   (set sent c (get 0 sent c + 1)))
        as (recs & ns' & s' & -> & Hrecs & Hnd & Hlen & Hself); try done.
      { by rewrite set_length. }
      { by rewrite set_length. }
      { unfold set. rewrite decide_True by lia.
        apply Forall_insert; [done|]. rewrite Hzero. by right. }
      do 3 eexists. split; [done|].
      assert (Forall (fun r => Linker.Task r <> c /\
                get 0 sent (Linker.Task r) <> 1) recs) as Hrecs'.
      { eapply Forall_impl; [exact Hrecs|]. cbn.
        intros r (_ & _ & Hr0 & Hr).
        assert (Linker.Task r <> c) as Hne.
        { intros Heq. apply Hr. rewrite Heq, get_set_eq by lia. lia. }
        split; [done|]. rewrite get_set_ne in Hr by done. done. }
      split; [|split; [|split]].
      * constructor; [cbn; repeat split; try done; lia|].
        rewrite Forall_forall in Hrecs, Hrecs'. apply Forall_forall.
        intros r Hr. destruct (Hrecs r Hr) as (Hi & Ht & H0 & _).
        destruct (Hrecs' r Hr) as [_ Hs]. done.
      * cbn [map Linker.Task]. apply NoDup_cons. split; [|done].
        intros Hin. apply list_elem_of_fmap in Hin as (r & Hr & Hin).
        rewrite Forall_forall in Hrecs'. destruct (Hrecs' r Hin) as [Hne _].
        cbn in Hr. congruence.
      * done.
      * rewrite Hself. apply get_set_ne; [lia | done].
Qed.
End planner.

Section planner_loop.
Import Planner.
Variables (opt : Mesh) (ThisTask NProcs : Z).
Variables (Part : list Particle) (pfof Len : list Z).
Hypothesis HThisTask : 0 <= ThisTask < NProcs.
Hypothesis Hids : Forall (fun c => 0 <= c < NProcs) (cellnodeids opt).
Hypothesis Hnew :
  Forall (Forall (fun c => 0 <= c < NProcs)) (newcellnodeids opt).

Lemma export_loop_spec boxes : forall i nsend_local,
  length nsend_local = Z.to_nat NProcs ->
  exists recs nsend_local',
    export_loop opt ThisTask NProcs Part pfof Len boxes i nsend_local
    = (recs, nsend_local') /\
    Forall (fun r => i <= Linker.Index r /\ Linker.Task r <> ThisTask) recs /\
    NoDup (map (fun r => (Linker.Index r, Linker.Task r)) recs) /\
    length nsend_local' = Z.to_nat NProcs /\
    get 0 nsend_local' ThisTask = get 0 nsend_local ThisTask.
Proof using HThisTask Hids Hnew.
  induction boxes as [|xsearch boxes IH]; intros i nsend_local Hlen.
  - do 2 eexists. split; [done|]. repeat split; try done; constructor.
  - cbn [export_loop].
    destruct (export_particle_spec ThisTask NProcs HThisTask i
                (get 0 pfof (GetID (get (mkParticle 0 0 0) Part i)))
                (get 0 Len i)
                (MPIGetCellNodeIDListInSearchUsingMesh opt ThisTask xsearch)
                nsend_local (replicate (Z.to_nat NProcs) 0))
      as (recs & ns1 & s1 & -> & Hrecs & Hnd & Hlen1 & Hself1); try done.
    { by apply cellnodeidlist_spec. }
    { apply length_replicate. }
    { apply Forall_replicate. by left. }
    destruct (IH (i + 1) ns1 Hlen1) as (more & ns2 & -> & Hmore & Hnd2 & Hlen2 & Hself2).
    do 2 eexists. split; [done|].
    rewrite Forall_forall in Hrecs, Hmore.
    split; [|split; [|split]].
    + apply Forall_app. split; apply Forall_forall; intros r Hr.
      * destruct (Hrecs r Hr) as (-> & Ht & _). split; [lia | done].
      * destruct (Hmore r Hr) as (Hi & Ht). split; [lia | done].
    + rewrite map_app. apply NoDup_app. split; [|split; [|done]].
      * rewrite (map_ext_in _ (fun r => (i, Linker.Task r))).
        { rewrite <- (map_map Linker.Task (fun t => (i, t))).
          assert (Inj (=) (=) (fun t : Z => (i, t))) by (intros t1 t2 [= ->]; done).
          by apply (NoDup_fmap_2 (fun t : Z => (i, t))). }
        intros r Hr. apply list_elem_of_In in Hr.
        destruct (Hrecs r Hr) as (-> & _). done.
      * intros x Hx1 Hx2.
        apply list_elem_of_fmap in Hx1 as (r1 & -> & Hr1).
        apply list_elem_of_fmap in Hx2 as (r2 & [= Hi Ht] & Hr2).
        destruct (Hrecs r1 Hr1) as (Hi1 & _).
        destruct (Hmore r2 Hr2) as (Hi2 & _). lia.
    + done.
    + congruence.
Qed.
End planner_loop.

(** C5 (counterexample). On a grid of 4 cells per dimension the cell
    coordinate -5 is mapped to the index -1: it is wrapped by one period
    only, the modular wrap would give 3, and -1 is no cell of the grid. *)
Lemma cell_index_beyond_one_period :
  Planner.cell_index 4 0 0 (-5) = -1 /\
  Planner.cell_index 4 0 0 (-5) <> (0 mod 4) * 4 * 4 + (0 mod 4) * 4 + (-5) mod 4.
Proof. split; [reflexivity | discriminate]. Qed.

(** C5 (amended). On a mesh whose owner tables only hold process ids, for
    particles whose covered cell coordinates all lie within one period of
    the grid ([-n <= i < 2n] on every axis): every covered cell index is the
    modular wrap of its coordinates and a cell of the grid; no export record
    has this process as destination; no two export records share (particle,
    destination); and the entry of this process in its own send-count row
    is zero. *)
Theorem mesh_export_plan (opt : Planner.Mesh) (ThisTask NProcs : Z)
    (Part : list Particle) (pfof Len : list Z) (boxes : list Planner.SearchBox) :
  let n := Planner.numcellsperdim opt in
  let plan := Planner.MPIBuildParticleExportListUsingMesh
                opt ThisTask NProcs Part pfof Len boxes in
  0 < n ->
  0 <= ThisTask < NProcs ->
  length (Planner.cellnodeids opt) = Z.to_nat (n * n * n) ->
  Forall (fun c => 0 <= c < NProcs) (Planner.cellnodeids opt) ->
  Forall (Forall (fun c => 0 <= c < NProcs)) (Planner.newcellnodeids opt) ->
  Forall (fun b => - n <= Planner.ixstart b /\ Planner.ixend b < 2 * n /\
                   - n <= Planner.iystart b /\ Planner.iyend b < 2 * n /\
                   - n <= Planner.izstart b /\ Planner.izend b < 2 * n) boxes ->
  (forall b ix iy iz, b ∈ boxes ->
     ix ∈ Planner.zrange (Planner.ixstart b) (Planner.ixend b) ->
     iy ∈ Planner.zrange (Planner.iystart b) (Planner.iyend b) ->
     iz ∈ Planner.zrange (Planner.izstart b) (Planner.izend b) ->
     Planner.cell_index n ix iy iz
     = (ix mod n) * n * n + (iy mod n) * n + iz mod n /\
     0 <= Planner.cell_index n ix iy iz
       < Z.of_nat (length (Planner.cellnodeids opt))) /\
  Forall (fun r => Linker.Task r <> ThisTask) plan.1 /\
  NoDup (map (fun r => (Linker.Index r, Linker.Task r)) plan.1) /\
  get 0 plan.2 ThisTask = 0.
Proof.
  intros n plan Hn HThisTask Hlen Hids Hnew Hboxes. split.
  - intros b ix iy iz Hb Hx Hy Hz.
    rewrite Forall_forall in Hboxes.
    destruct (Hboxes b Hb) as (? & ? & ? & ? & ? & ?).
    apply elem_of_zrange in Hx, Hy, Hz.
    unfold Planner.cell_index.
    rewrite !wrap_axis_mod by lia.
    pose proof (Z.mod_pos_bound ix n Hn).
    pose proof (Z.mod_pos_bound iy n Hn).
    pose proof (Z.mod_pos_bound iz n Hn).
    split; [lia|]. rewrite Hlen, Z2Nat.id by nia. nia.
  - subst plan. unfold Planner.MPIBuildParticleExportListUsingMesh.
    destruct (export_loop_spec opt ThisTask NProcs Part pfof Len HThisTask
                Hids Hnew boxes 0 (replicate (Z.to_nat NProcs) 0))
      as (recs & ns & -> & Hrecs & Hnd & _ & Hself).
    { apply length_replicate. }
    cbn [fst snd]. split; [|split].
    + rewrite std_sort_perm. eapply Forall_impl; [exact Hrecs|].
      intros r [_ Hr]. done.
    + rewrite std_sort_perm. done.
    + rewrite Hself. unfold get.
      rewrite lookup_replicate_2 by lia. done.
Qed.

(** The theorem on a grid of 2 cells per dimension split between two
    processes, for one particle of process 0 whose search region covers
    all cells with one wrapped layer. *)
Lemma mesh_export_plan_witness :
  let opt := Planner.mkMesh 2 [0; 0; 0; 0; 1; 1; 1; 1] [] in
  let boxes := [Planner.mkSearchBox 0 1 0 1 (-1) 0] in
  let plan := Planner.MPIBuildParticleExportListUsingMesh
                opt 0 2 [mkParticle 0 7 0] [0] [1] boxes in
  (forall b ix iy iz, b ∈ boxes ->
     ix ∈ Planner.zrange (Planner.ixstart b) (Planner.ixend b) ->
     iy ∈ Planner.zrange (Planner.iystart b) (Planner.iyend b) ->
     iz ∈ Planner.zrange (Planner.izstart b) (Planner.izend b) ->
     Planner.cell_index 2 ix iy iz
     = (ix mod 2) * 2 * 2 + (iy mod 2) * 2 + iz mod 2 /\
     0 <= Planner.cell_index 2 ix iy iz
       < Z.of_nat (length (Planner.cellnodeids opt))) /\
  Forall (fun r => Linker.Task r <> 0) plan.1 /\
  NoDup (map (fun r => (Linker.Index r, Linker.Task r)) plan.1) /\
  get 0 plan.2 0 = 0.
Proof.
  intros opt boxes.
  apply (mesh_export_plan opt 0 2 [mkParticle 0 7 0] [0] [1] boxes).
  - reflexivity.
  - lia.
  - reflexivity.
  - repeat constructor; lia.
  - constructor.
  - repeat constructor; cbn; lia.
Defined.

Example mesh_export_plan_dedup :
  Planner.MPIBuildParticleExportListUsingMesh
    (Planner.mkMesh 2 [0; 0; 0; 0; 1; 1; 1; 1] []) 0 2
    [mkParticle 0 7 0] [0] [1] [Planner.mkSearchBox 0 1 0 1 (-1) 0]
  = ([Linker.mkfofdata_in 0 1 0 0 1], [0; 1]).
Proof. reflexivity. Qed.

(** ** Decomposer: the initial mesh decomposition *)

Lemma std_sort_sorted {A} (cmp : A -> A -> bool) (R : relation A) l :
  (forall x y, cmp x y = true -> R x y) ->
  (forall x y, cmp x y = false -> R y x) ->
  Sorted R (std_sort cmp l).
Proof.
  intros Htrue Hfalse. induction l as [|x l IH]; [constructor|].
  cbn [std_sort foldr]. fold (std_sort cmp l).
  induction IH as [|y l' Hsorted IH' Hhd]; cbn [sort_insert].
  - repeat constructor.
  - destruct (cmp x y) eqn:Hxy.
    + constructor; [by constructor|]. constructor. by apply Htrue.
    + constructor; [done|].
      destruct l' as [|z l'']; cbn [sort_insert] in *.
      * constructor. by apply Hfalse.
      * destruct (cmp x z); constructor; [by apply Hfalse|].
        by inversion Hhd.
Qed.

Lemma foldl_set_length {A} (idx : A -> Z) (ws : list A) init :
  length (foldl (fun l w => set l (idx w) w) init ws) = length init.
Proof.
  induction ws as [|x ws IH] using rev_ind; [done|].
  rewrite foldl_app. cbn. by rewrite set_length.
Qed.

(** Writes at the positions the written values name: every position named
    by a write ends with a value that names it. *)
Lemma foldl_set_lookup {A} (idx : A -> Z) (ws : list A) : forall init (k : nat),
  Forall (fun w => 0 <= idx w < Z.of_nat (length init)) ws ->
  (exists w, w ∈ ws /\ idx w = Z.of_nat k) ->
  exists c, foldl (fun l w => set l (idx w) w) init ws !! k = Some c
            /\ idx c = Z.of_nat k.
Proof.
  induction ws as [|w ws IH] using rev_ind; intros init k Hall [w' [Hin Hk]].
  - by apply elem_of_nil in Hin.
  - rewrite foldl_app. cbn [foldl].
    apply Forall_app in Hall as [Hall Hw].
    rewrite Forall_singleton in Hw.
    rewrite set_lookup by (rewrite foldl_set_length; lia).
    case_decide as Hcase; [by exists w|].
    apply IH; [done|]. exists w'. split; [|done].
    apply elem_of_app in Hin as [Hin|Hin]; [done|].
    apply list_elem_of_singleton in Hin. congruence.
Qed.

Lemma elem_of_range n x :
  x ∈ map Z.of_nat (seq 0 (Z.to_nat n)) <-> 0 <= x < n.
Proof.
  rewrite list_elem_of_fmap. split.
  - intros (k & -> & Hk). apply elem_of_seq in Hk. lia.
  - intros H. exists (Z.to_nat x). split; [lia|]. apply elem_of_seq. lia.
Qed.

Lemma elem_of_flat_map {A B} (f : A -> list B) l y :
  y ∈ flat_map f l <-> exists x, x ∈ l /\ y ∈ f x.
Proof.
  rewrite list_elem_of_In, in_flat_map.
  split; intros (x & Hx & Hy); exists x; by rewrite ?list_elem_of_In in *.
Qed.

Lemma elem_of_cells n c :
  c ∈ Decomposer.cells n <->
  exists ix iy iz, 0 <= ix < n /\ 0 <= iy < n /\ 0 <= iz < n /\
    c = Decomposer.mkzcurvestruct (ix, iy, iz) (ix * n * n + iy * n + iz)
          (Decomposer.interleave (Decomposer.bitset16 ix)
             (Decomposer.bitset16 iy) (Decomposer.bitset16 iz)).
Proof.
  unfold Decomposer.cells. rewrite elem_of_flat_map. split.
  - intros (ix & Hix & Hc). apply elem_of_flat_map in Hc as (iy & Hiy & Hc).
    apply list_elem_of_fmap in Hc as (iz & -> & Hiz).
    apply elem_of_range in Hix, Hiy, Hiz. by exists ix, iy, iz.
  - intros (ix & iy & iz & Hix & Hiy & Hiz & ->).
    exists ix. split; [by apply elem_of_range|].
    apply elem_of_flat_map. exists iy. split; [by apply elem_of_range|].
    apply list_elem_of_fmap. exists iz. split; [done|]. by apply elem_of_range.
Qed.

Lemma cells_index_range n :
  Forall (fun c => 0 <= Decomposer.index c < n * n * n) (Decomposer.cells n).
Proof.
  apply Forall_forall. intros c Hc.
  apply elem_of_cells in Hc as (ix & iy & iz & Hix & Hiy & Hiz & ->).
  cbn. nia.
Qed.

Lemma cells_cover n k :
  0 <= k < n * n * n ->
  exists c, c ∈ Decomposer.cells n /\ Decomposer.index c = k.
Proof.
  intros Hk.
  assert (0 < n) as Hn by nia.
  pose proof (Z.div_mod k (n * n) ltac:(nia)) as Hk1.
  pose proof (Z.mod_pos_bound k (n * n) ltac:(nia)) as Hr.
  pose proof (Z.div_mod (k mod (n * n)) n ltac:(lia)) as Hk2.
  pose proof (Z.mod_pos_bound (k mod (n * n)) n Hn) as Hz.
  assert (0 <= k / (n * n) < n) as Hx.
  { split; [apply Z.div_pos; nia|]. apply Z.div_lt_upper_bound; nia. }
  assert (0 <= k mod (n * n) / n < n) as Hy.
  { split; [apply Z.div_pos; lia|]. apply Z.div_lt_upper_bound; lia. }
  eexists. split.
  - apply elem_of_cells.
    exists (k / (n * n)), (k mod (n * n) / n), ((k mod (n * n)) mod n). done.
  - cbn. lia.
Qed.

(** After the loops entry [k] of [zcurve] names cell [k]. *)
Lemma zcurve_fill_index n :
  0 <= n ->
  map Decomposer.index (Decomposer.zcurve_fill n)
  = map Z.of_nat (seq 0 (Z.to_nat (n * n * n))).
Proof.
  intros Hn. apply list_eq. intros k. unfold Decomposer.zcurve_fill.
  rewrite !list_lookup_fmap.
  destruct (decide (k < Z.to_nat (n * n * n))%nat) as [Hk|Hk].
  - destruct (cells_cover n (Z.of_nat k) ltac:(lia)) as (c & Hc & Hidx).
    destruct (foldl_set_lookup Decomposer.index (Decomposer.cells n)
                (replicate (Z.to_nat (n * n * n)) Decomposer.zcurvestruct0) k)
      as (c' & -> & Hc').
    + rewrite length_replicate, Z2Nat.id by nia. apply cells_index_range.
    + by exists c.
    + rewrite lookup_seq_lt by done. cbn. by rewrite Hc'.
  - rewrite lookup_seq_ge by lia.
    rewrite lookup_ge_None_2; [done|].
    rewrite foldl_set_length, length_replicate. lia.
Qed.

(** ** Remainders of consecutive numbers *)

Lemma div_mod_succ_small i n :
  0 < n -> i mod n + 1 < n ->
  (i + 1) / n = i / n /\ (i + 1) mod n = i mod n + 1.
Proof.
  intros Hn Hlt.
  pose proof (Z.div_mod i n ltac:(lia)).
  pose proof (Z.mod_pos_bound i n Hn).
  split.
  - symmetry. apply (Z.div_unique _ _ _ (i mod n + 1)); lia.
  - symmetry. apply (Z.mod_unique _ _ (i / n)); lia.
Qed.

Lemma div_mod_succ_wrap i n :
  0 < n -> i mod n + 1 = n ->
  (i + 1) / n = i / n + 1 /\ (i + 1) mod n = 0.
Proof.
  intros Hn Hlt.
  pose proof (Z.div_mod i n ltac:(lia)).
  split.
  - symmetry. apply (Z.div_unique _ _ _ 0); lia.
  - symmetry. apply (Z.mod_unique _ _ (i / n + 1)); lia.
Qed.

Lemma div_pred_multiple i n :
  0 < n -> i mod n = 0 -> (i - 1) / n = i / n - 1.
Proof.
  intros Hn Hz.
  pose proof (Z.div_mod i n ltac:(lia)).
  symmetry. apply (Z.div_unique _ _ _ (n - 1)); lia.
Qed.

Section assign.
Import Decomposer.
Variables NProcs nsub : Z.
Hypothesis HNProcs : 0 < NProcs.
Hypothesis Hnsub : 0 < nsub.

(** The task of the cell of rank [i]. *)
Let task_of_rank (i : Z) : Z := Z.min (i / nsub) (NProcs - 1).

(** What [itask] and [count] are when the loop reaches rank [i]. *)
Let at_rank (i itask count : Z) : Prop :=
  (count < nsub /\ count = i mod nsub /\ itask = task_of_rank i) \/
  (count = nsub /\ i mod nsub = 0 /\ 0 < i /\ itask = task_of_rank (i - 1)).

Lemma assign_step i itask count :
  0 <= i -> at_rank i itask count ->
  let cnt_tsk :=
    if decide (count = nsub) then (0, itask + 1) else (count, itask) in
  let itask' :=
    if decide (cnt_tsk.2 = NProcs) then cnt_tsk.2 - 1 else cnt_tsk.2 in
  itask' = task_of_rank i /\ at_rank (i + 1) itask' (cnt_tsk.1 + 1).
Proof using HNProcs Hnsub.
  intros Hi Hinv. unfold at_rank, task_of_rank in *.
  pose proof (Z.mod_pos_bound i nsub Hnsub) as Hmod.
  pose proof (Z.div_pos i nsub Hi Hnsub) as Hdiv.
  destruct Hinv as [(Hlt & Hcount & Htask) | (Hfull & Hzero & Hpos & Htask)].
  - destruct (decide (count = nsub)); [lia|]. cbn [fst snd].
    destruct (decide (itask = NProcs)); [lia|]. split; [done|].
    destruct (decide (count + 1 < nsub)) as [Hnext|Hnext].
    + left. destruct (div_mod_succ_small i nsub Hnsub ltac:(lia)) as [-> ->].
      lia.
    + right. destruct (div_mod_succ_wrap i nsub Hnsub ltac:(lia)) as [ _ ->].
      replace (i + 1 - 1) with i by lia. lia.
  - destruct (decide (count = nsub)); [|done]. cbn [fst snd].
    rewrite (div_pred_multiple i nsub Hnsub Hzero) in Htask.
    assert ((if decide (itask + 1 = NProcs) then itask + 1 - 1 else itask + 1)
            = Z.min (i / nsub) (NProcs - 1)) as Hassigned.
    { case_decide; lia. }
    rewrite Hassigned. split; [done|].
    destruct (decide (1 < nsub)) as [Hnext|Hnext].
    + left. destruct (div_mod_succ_small i nsub Hnsub ltac:(lia)) as [-> ->].
      lia.
    + right. destruct (div_mod_succ_wrap i nsub Hnsub ltac:(lia)) as [ _ ->].
      replace (i + 1 - 1) with i by lia. lia.
Qed.

(** The cell of rank [i + j] is given the task [min((i + j) / nsub,
    NProcs - 1)] and written at position [i + j] of [cellnodeorder]. *)
Lemma assign_cells_spec zcurve :
  forall i itask count cellnodeids cellnodeorder numcellspertask,
  0 <= i -> at_rank i itask count ->
  NoDup (map index zcurve) ->
  Forall (fun c => 0 <= index c < Z.of_nat (length cellnodeids)) zcurve ->
  i + Z.of_nat (length zcurve) <= Z.of_nat (length cellnodeorder) ->
  exists ids order percell,
    assign_cells NProcs nsub zcurve i itask count
                 cellnodeids cellnodeorder numcellspertask
    = (ids, order, percell) /\
    length ids = length cellnodeids /\
    length order = length cellnodeorder /\
    (forall (j : nat) c, zcurve !! j = Some c ->
       get 0 ids (index c) = task_of_rank (i + Z.of_nat j) /\
       order !! (Z.to_nat i + j)%nat = Some (index c)) /\
    (forall k : nat, Z.of_nat k ∉ map index zcurve ->
       ids !! k = cellnodeids !! k) /\
    (forall k : nat, Z.of_nat k < i -> order !! k = cellnodeorder !! k).
Proof using HNProcs Hnsub.
  induction zcurve as [|c zc IH];
    intros i itask count ids0 order0 nct0 Hi Hinv Hnd Hrange Hlen.
  - do 3 eexists. split; [done|]. repeat split; try done.
  - cbn [assign_cells].
    destruct (assign_step i itask count Hi Hinv) as [Htask Hinv'].
    destruct (if decide (count = nsub) then (0, itask + 1) else (count, itask))
      as [count1 itask1] eqn:Hif.
    cbn [fst snd] in Htask, Hinv'.
    set (itask2 := if decide (itask1 = NProcs) then itask1 - 1 else itask1) in *.
    cbn [map] in Hnd. apply NoDup_cons in Hnd as [Hnotin Hnd].
    apply Forall_cons in Hrange as [Hc Hrange].
    cbn [length] in Hlen.
    destruct (IH (i + 1) itask2 (count1 + 1) (set ids0 (index c) itask2)
                 (set order0 i (index c))
                 (set nct0 itask2 (get 0 nct0 itask2 + 1)))
      as (ids & order & percell & -> & Hlids & Hlorder & Hcells & Hother & Hbefore);
      try done.
    { lia. }
    { by rewrite set_length. }
    { rewrite set_length. lia. }
    rewrite set_length in Hlids, Hlorder.
    do 3 eexists. split; [done|].
    split; [done|]. split; [done|]. split; [|split].
    + intros [|j] c' Hj; cbn in Hj.
      * injection Hj as <-. split.
        -- apply get_lookup.
           rewrite <- (Z2Nat.id (index c)) in Hnotin by lia.
           rewrite (Hother _ Hnotin), set_lookup_eq by done.
           rewrite Z.add_0_r. by rewrite Htask.
        -- rewrite Nat.add_0_r, Hbefore by lia.
           apply set_lookup_eq. lia.
      * destruct (Hcells j c' Hj) as [Hget Hord]. split.
        -- rewrite Hget. f_equal. lia.
        -- rewrite <- Hord. f_equal. lia.
    + intros k Hk. cbn [map] in Hk. apply not_elem_of_cons in Hk as [Hne Hk].
      rewrite (Hother k Hk). apply set_lookup_ne. done.
    + intros k Hk. rewrite Hbefore by lia. apply set_lookup_ne. lia.
Qed.
End assign.

(** C6 (counterexample). 8 cells on 3 processes: [ceil(8/3)] is 3, but the
    first process is given the 2 cells of Z-order ranks 0 and 1, the second
    the next 2, the last the remaining 4. *)
Lemma mesh_decomposition_not_ceil :
  let d := Decomposer.MPIInitialDomainDecompositionWithMesh 2 3 in
  ceil_div 8 3 = 3 /\
  Decomposer.numcellspertask d = [2; 2; 4] /\
  map (fun c => get 0 (Decomposer.cellnodeids d) (Decomposer.index c))
      (Decomposer.zcurve d) = [0; 0; 1; 1; 2; 2; 2; 2].
Proof. vm_compute. done. Qed.

(** C6 (amended). For [numcellsperdim > 0] with the cell count in [int]
    range and [NProcs > 0], with [nsub = max(floor(cells/NProcs), 1)]: the
    curve holds every cell once, in non-decreasing key order;
    [cellnodeorder] lists the cells in that order; the cell of rank [i] is
    given to process [min(floor(i/nsub), NProcs-1)], that is, runs of [nsub]
    consecutive ranks per process with the last process taking all that
    remains; and when there are at least as many cells as processes every
    process is given a cell. *)
Theorem mesh_decomposition_runs (numcellsperdim NProcs : Z) :
  let n3 := numcellsperdim * numcellsperdim * numcellsperdim in
  let nsub := Z.max (n3 / NProcs) 1 in
  let d := Decomposer.MPIInitialDomainDecompositionWithMesh numcellsperdim NProcs in
  0 < numcellsperdim -> n3 <= INT_MAX -> 0 < NProcs ->
  map Decomposer.index (Decomposer.zcurve d)
    ≡ₚ map Z.of_nat (seq 0 (Z.to_nat n3)) /\
  Sorted (fun a b => Decomposer.zcurvevalue a <= Decomposer.zcurvevalue b)
         (Decomposer.zcurve d) /\
  Decomposer.cellnodeorder d = map Decomposer.index (Decomposer.zcurve d) /\
  (forall (i : nat) c, Decomposer.zcurve d !! i = Some c ->
     get 0 (Decomposer.cellnodeids d) (Decomposer.index c)
     = Z.min (Z.of_nat i / nsub) (NProcs - 1)) /\
  (NProcs <= n3 -> forall p, 0 <= p < NProcs ->
     exists (i : nat) c,
       Decomposer.zcurve d !! i = Some c /\
       get 0 (Decomposer.cellnodeids d) (Decomposer.index c) = p).
Proof.
  intros n3 nsub d Hn Hn3 HP.
  assert (0 <= n3) as Hn3pos by (subst n3; nia).
  assert (0 <= n3 / NProcs <= n3) as Hdiv.
  { split; [apply Z.div_pos; lia|].
    apply Z.div_le_upper_bound; [lia|]. nia. }
  set (zc := std_sort Decomposer.zcurve_cmp (Decomposer.zcurve_fill numcellsperdim)).
  assert (map Decomposer.index zc ≡ₚ map Z.of_nat (seq 0 (Z.to_nat n3))) as Hperm.
  { subst zc. unfold n3. rewrite <- zcurve_fill_index by lia.
    apply fmap_Permutation, std_sort_perm. }
  assert (length zc = Z.to_nat n3) as Hlen.
  { rewrite <- (length_map Decomposer.index zc), Hperm.
    by rewrite length_map, length_seq. }
  assert (NoDup (map Decomposer.index zc)) as Hnd.
  { rewrite Hperm. apply (NoDup_fmap_2 _), NoDup_seq. }
  assert (Forall (fun c => 0 <= Decomposer.index c < n3) zc) as Hrange.
  { apply Forall_forall. intros c Hc.
    apply (list_elem_of_fmap_2 Decomposer.index) in Hc.
    rewrite Hperm in Hc. apply elem_of_range in Hc. done. }
  assert (0 < nsub) as Hnsub by lia.
  destruct (assign_cells_spec NProcs nsub HP Hnsub zc 0 0 0
              (replicate (Z.to_nat n3) 0) (replicate (Z.to_nat n3) 0)
              (replicate (Z.to_nat NProcs) 0))
    as (ids & order & percell & Hrun & Hlids & Hlorder & Hcells & _ & _).
  { lia. }
  { left. rewrite Z.mod_0_l, Z.div_0_l by lia. lia. }
  { done. }
  { rewrite length_replicate, Z2Nat.id by lia. done. }
  { rewrite length_replicate. lia. }
  assert (d = Decomposer.mkDecomposition zc ids order percell) as ->.
  { subst d. unfold Decomposer.MPIInitialDomainDecompositionWithMesh.
    fold n3. fold zc. rewrite to_int_id by (unfold INT_MAX in *; lia).
    fold nsub. by rewrite Hrun. }
  cbn [Decomposer.zcurve Decomposer.cellnodeids Decomposer.cellnodeorder].
  split; [done|]. split; [|split; [|split]].
  - subst zc. apply std_sort_sorted; unfold Decomposer.zcurve_cmp; intros x y H.
    + apply bool_decide_eq_true in H. lia.
    + apply bool_decide_eq_false in H. lia.
  - apply list_eq. intros i. rewrite list_lookup_fmap.
    destruct (zc !! i) as [c|] eqn:Hc.
    + destruct (Hcells i c Hc) as [_ Hord].
      change (Z.to_nat 0 + i)%nat with i in Hord. by rewrite Hord.
    + cbn. apply lookup_ge_None_2. apply lookup_ge_None_1 in Hc.
      rewrite Hlorder, length_replicate. lia.
  - intros i c Hc. destruct (Hcells i c Hc) as [Hget _].
    rewrite Hget. f_equal.
  - intros Hle p Hp.
    assert (1 <= n3 / NProcs) as Hq.
    { apply Z.div_le_lower_bound; lia. }
    assert (nsub = n3 / NProcs) as Hnsubeq by lia.
    pose proof (Z.mul_div_le n3 NProcs HP) as Hmul.
    assert (p * nsub < n3) as Hrank by nia.
    destruct (lookup_lt_is_Some_2 zc (Z.to_nat (p * nsub)) ltac:(lia)) as [c Hc].
    exists (Z.to_nat (p * nsub)), c. split; [done|].
    destruct (Hcells _ c Hc) as [Hget _]. rewrite Hget.
    rewrite Z2Nat.id by nia. rewrite Z.add_0_l, Z.div_mul by lia. lia.
Qed.

(** The scenario of the specification: 4 cells per dimension on 8
    processes. *)
Lemma mesh_decomposition_runs_witness :
  let d := Decomposer.MPIInitialDomainDecompositionWithMesh 4 8 in
  map Decomposer.index (Decomposer.zcurve d)
    ≡ₚ map Z.of_nat (seq 0 (Z.to_nat (4 * 4 * 4))) /\
  Sorted (fun a b => Decomposer.zcurvevalue a <= Decomposer.zcurvevalue b)
         (Decomposer.zcurve d) /\
  Decomposer.cellnodeorder d = map Decomposer.index (Decomposer.zcurve d) /\
  (forall (i : nat) c, Decomposer.zcurve d !! i = Some c ->
     get 0 (Decomposer.cellnodeids d) (Decomposer.index c)
     = Z.min (Z.of_nat i / Z.max (4 * 4 * 4 / 8) 1) (8 - 1)) /\
  (8 <= 4 * 4 * 4 -> forall p, 0 <= p < 8 ->
     exists (i : nat) c,
       Decomposer.zcurve d !! i = Some c /\
       get 0 (Decomposer.cellnodeids d) (Decomposer.index c) = p).
Proof.
  apply (mesh_decomposition_runs 4 8); unfold INT_MAX; lia.
Defined.

Example mesh_decomposition_4_8 :
  let d := Decomposer.MPIInitialDomainDecompositionWithMesh 4 8 in
  Decomposer.numcellspertask d = [8; 8; 8; 8; 8; 8; 8; 8] /\
  map (fun c => get 0 (Decomposer.cellnodeids d) (Decomposer.index c))
      (Decomposer.zcurve d)
  = flat_map (fun p => replicate 8 p) [0; 1; 2; 3; 4; 5; 6; 7] /\
  take 10 (Decomposer.cellnodeorder d) = [0; 16; 4; 20; 1; 17; 5; 21; 32; 48].
Proof. vm_compute. done. Qed.

(** ** Decomposer: rebalancing *)

Lemma sumZ_perm l1 l2 : l1 ≡ₚ l2 -> sumZ l1 = sumZ l2.
Proof.
  induction 1 as [|x l1 l2 _ IH|x y l|l1 l2 l3 _ IH1 _ IH2];
    rewrite ?sumZ_cons in *; lia.
Qed.

Lemma sumZ_nonneg l : Forall (fun x => 0 <= x) l -> 0 <= sumZ l.
Proof. induction 1; rewrite ?sumZ_cons; [done | lia]. Qed.

Section recut.
Import Decomposer.
Variables (gt_optimalave : Z -> bool) (NProcs : Z) (cellnodenumparts : list Z).
Hypothesis Hgt : forall n, gt_optimalave n = true -> 0 < n.

(** The particles of the cells of [l] that [ids] gives to process [p]. *)
Let share (ids : list Z) (p : Z) (l : list Z) : Z :=
  sumZ (map (fun c => if decide (get 0 ids c = p)
                      then get 0 cellnodenumparts c else 0) l).

Lemma share_none ids p l :
  Forall (fun c => get 0 ids c <> p) l -> share ids p l = 0.
Proof using Type.
  unfold share. induction 1 as [|c l Hc _ IH]; [done|].
  cbn [map]. rewrite sumZ_cons, IH, decide_False by done. done.
Qed.

Lemma recut_loop_spec order :
  forall itask numparts numcellspertask mpinumparts ids,
  0 <= itask <= NProcs - 1 ->
  NoDup order ->
  Forall (fun c => 0 <= c < Z.of_nat (length ids)) order ->
  length mpinumparts = Z.to_nat NProcs ->
  exists itask' numparts' percell mp ids',
    recut_loop gt_optimalave NProcs cellnodenumparts order itask numparts
               numcellspertask mpinumparts ids
    = (itask', numparts', percell, mp, ids') /\
    itask <= itask' <= NProcs - 1 /\
    length ids' = length ids /\
    length mp = length mpinumparts /\
    (forall k : nat, Z.of_nat k ∉ order -> ids' !! k = ids !! k) /\
    Forall (fun c => itask <= get 0 ids' c <= itask') order /\
    (forall p, 0 <= p -> p < itask \/ itask' <= p ->
       get 0 mp p = get 0 mpinumparts p) /\
    (forall p, itask <= p < itask' ->
       let s := (if decide (p = itask) then numparts else 0)
                + share ids' p order in
       get 0 mp p = to_int s /\ 0 < s) /\
    numparts' = (if decide (itask' = itask) then numparts else 0)
                + share ids' itask' order.
Proof using Hgt.
  induction order as [|index order IH];
    intros itask numparts nct mp0 ids Htask Hnd Hrange Hlen.
  - do 5 eexists. split; [done|].
    split; [lia|]. split; [done|]. split; [done|]. split; [done|].
    split; [constructor|]. split; [done|]. split.
    + intros p Hp. lia.
    + rewrite decide_True by done. unfold share. cbn. lia.
  - cbn [recut_loop].
    apply NoDup_cons in Hnd as [Hnotin Hnd].
    apply Forall_cons in Hrange as [Hindex Hrange].
    set (np1 := numparts + get 0 cellnodenumparts index).
    set (ids1 := set ids index itask).
    set (nct1 := set nct itask (get 0 nct itask + 1)).
    assert (forall ids', length ids' = length ids1 ->
              (forall k : nat, Z.of_nat k ∉ order -> ids' !! k = ids1 !! k) ->
              get 0 ids' index = itask) as Hhead.
    { intros ids' Hl Hother. apply get_lookup.
      rewrite Hother by (rewrite Z2Nat.id by lia; done).
      subst ids1. apply set_lookup_eq. done. }
    assert (forall ids' p, get 0 ids' index = itask ->
              share ids' p (index :: order)
              = (if decide (itask = p) then get 0 cellnodenumparts index else 0)
                + share ids' p order) as Hshare.
    { intros ids' p Hget. unfold share. cbn [map].
      rewrite sumZ_cons, Hget. done. }
    destruct (gt_optimalave np1 && bool_decide (itask < NProcs - 1)) eqn:Hcut.
    + apply andb_true_iff in Hcut as [Hgtnp Hlt].
      apply bool_decide_eq_true in Hlt. apply Hgt in Hgtnp.
      destruct (IH (itask + 1) 0 nct1 (set mp0 itask (to_int np1)) ids1)
        as (itask' & np' & percell & mp & ids' & -> & Htask' & Hlids & Hlmp
            & Hother & Hin & Hout & Hcuts & Hnp); try done.
      { lia. }
      { subst ids1. by rewrite set_length. }
      { by rewrite set_length. }
      rewrite set_length in Hlmp.
      pose proof (Hhead ids' Hlids Hother) as Hget.
      do 5 eexists. split; [done|].
      split; [lia|]. split; [by subst ids1; rewrite set_length in Hlids|].
      split; [done|]. split; [|split; [|split; [|split]]].
      * intros k Hk. apply not_elem_of_cons in Hk as [Hne Hk].
        rewrite (Hother k Hk). subst ids1. apply set_lookup_ne. done.
      * constructor; [lia|]. eapply Forall_impl; [exact Hin|].
        intros c Hc. cbn in Hc. lia.
      * intros p Hp0 Hp. rewrite Hout by lia.
        apply get_set_ne; lia.
      * intros p Hp. rewrite (Hshare ids' p Hget).
        destruct (decide (p = itask)) as [->|Hne].
        -- rewrite Hout by lia. rewrite get_set_eq by lia.
           rewrite decide_True by done.
           rewrite (share_none ids' itask order).
           { subst np1. rewrite Z.add_0_r. cbn. split; [done | lia]. }
           eapply Forall_impl; [exact Hin|]. intros c Hc. cbn in Hc. lia.
        -- destruct (Hcuts p ltac:(lia)) as [Hmp Hpos].
           rewrite decide_False by lia. cbn zeta.
           replace ((if decide (p = itask + 1) then 0 else 0)) with 0 in *
             by (case_decide; done).
           done.
      * rewrite (Hshare ids' itask' Hget), (decide_False (P := itask' = itask)),
          (decide_False (P := itask = itask')) by lia.
        replace ((if decide (itask' = itask + 1) then 0 else 0)) with 0 in Hnp
          by (case_decide; done).
        lia.
    + destruct (IH itask np1 nct1 mp0 ids1)
        as (itask' & np' & percell & mp & ids' & -> & Htask' & Hlids & Hlmp
            & Hother & Hin & Hout & Hcuts & Hnp); try done.
      { subst ids1. by rewrite set_length. }
      pose proof (Hhead ids' Hlids Hother) as Hget.
      do 5 eexists. split; [done|].
      split; [lia|]. split; [by subst ids1; rewrite set_length in Hlids|].
      split; [done|]. split; [|split; [|split; [|split]]].
      * intros k Hk. apply not_elem_of_cons in Hk as [Hne Hk].
        rewrite (Hother k Hk). subst ids1. apply set_lookup_ne. done.
      * constructor; [lia|]. done.
      * done.
      * intros p Hp. rewrite (Hshare ids' p Hget).
        destruct (Hcuts p Hp) as [Hmp Hpos]. cbn zeta in *.
        subst np1. repeat case_decide; try lia.
        -- rewrite Hmp. split; [f_equal|]; lia.
        -- rewrite Hmp. split; [f_equal|]; lia.
      * rewrite (Hshare ids' itask' Hget). subst np1.
        repeat case_decide; lia.
Qed.
End recut.

Lemma sumZ_map_le {A} (f g : A -> Z) l :
  (forall x, x ∈ l -> f x <= g x) -> sumZ (map f l) <= sumZ (map g l).
Proof.
  induction l as [|x l IH]; intros H; [done|]. cbn [map].
  rewrite !sumZ_cons.
  pose proof (H x ltac:(left)).
  pose proof (IH (fun y Hy => H y ltac:(by right))). lia.
Qed.

Lemma sumZ_get_seq l :
  sumZ (map (fun c => get 0 l c) (map Z.of_nat (seq 0 (length l)))) = sumZ l.
Proof.
  induction l as [|x l IH]; [done|].
  cbn [length seq map]. rewrite !sumZ_cons, <- seq_shift, !map_map.
  rewrite <- IH, map_map. f_equal. f_equal.
  apply map_ext. intros k. unfold get. rewrite !Nat2Z.id. done.
Qed.

Lemma Exists_get (P : Z -> Prop) (l : list Z) :
  Exists P l <-> exists p, 0 <= p < Z.of_nat (length l) /\ P (get 0 l p).
Proof.
  rewrite Exists_exists. split.
  - intros (x & Hx & HP). apply list_elem_of_lookup in Hx as [k Hk].
    exists (Z.of_nat k). split.
    + apply lookup_lt_Some in Hk. lia.
    + unfold get. by rewrite Nat2Z.id, Hk.
  - intros (p & Hp & HP).
    destruct (lookup_lt_is_Some_2 l (Z.to_nat p) ltac:(lia)) as [x Hx].
    exists x. split; [by eapply list_elem_of_lookup_2|].
    unfold get in HP. by rewrite Hx in HP.
Qed.

(** The particles a process is given, counted along [cellnodeorder]. *)
Lemma assigned_particles_order parts ids order p :
  order ≡ₚ map Z.of_nat (seq 0 (length ids)) ->
  Decomposer.assigned_particles parts ids p
  = sumZ (map (fun c => if decide (get 0 ids c = p) then get 0 parts c else 0)
              order).
Proof.
  intros Hperm. unfold Decomposer.assigned_particles.
  apply sumZ_perm, fmap_Permutation. done.
Qed.

Lemma assigned_particles_bounds parts ids p :
  length ids = length parts ->
  Forall (fun x => 0 <= x) parts ->
  0 <= Decomposer.assigned_particles parts ids p <= sumZ parts.
Proof.
  intros Hlen Hpos. unfold Decomposer.assigned_particles.
  assert (forall c, 0 <= get 0 parts c) as Hget.
  { intros c. apply (get_Forall (fun x => 0 <= x)); [lia | done]. }
  split.
  - apply sumZ_nonneg, Forall_forall. intros x Hx.
    apply list_elem_of_fmap in Hx as (c & -> & _).
    case_decide; [apply Hget | lia].
  - rewrite <- (sumZ_get_seq parts), <- Hlen.
    apply sumZ_map_le. intros c _. case_decide; [lia | apply Hget].
Qed.

(** After the re-cut, [mpinumparts] holds a zero exactly when the new
    [cellnodeids] leaves some process without particles. *)
Lemma recut_zero_iff (gt_optimalave : Z -> bool) (NProcs : Z)
    (parts order ids : list Z) :
  0 < NProcs ->
  (forall n, gt_optimalave n = true -> 0 < n) ->
  length ids = length parts ->
  order ≡ₚ map Z.of_nat (seq 0 (length ids)) ->
  Forall (fun x => 0 <= x) parts ->
  sumZ parts <= INT_MAX ->
  let r := Decomposer.recut gt_optimalave NProcs parts order ids in
  Exists (fun x => x = 0) r.2 <->
  exists p, 0 <= p < NProcs /\ Decomposer.assigned_particles parts r.1 p = 0.
Proof.
  intros HP Hgt Hlen Hperm Hpos Hmax r. subst r. unfold Decomposer.recut.
  destruct (recut_loop_spec gt_optimalave NProcs parts Hgt order 0 0
              (replicate (Z.to_nat NProcs) 0) (replicate (Z.to_nat NProcs) 0) ids)
    as (itask' & np' & percell & mp & ids' & -> & Htask & Hlids & Hlmp
        & _ & Hin & Hout & Hcuts & Hnp).
  { lia. }
  { rewrite Hperm. apply (NoDup_fmap_2 _), NoDup_seq. }
  { apply Forall_forall. intros c Hc. rewrite Hperm in Hc.
    rewrite <- (Nat2Z.id (length ids)) in Hc.
    apply elem_of_range in Hc. lia. }
  { apply length_replicate. }
  cbn [fst snd]. rewrite length_replicate in Hlmp.
  assert (forall p, Decomposer.assigned_particles parts ids' p
            = sumZ (map (fun c => if decide (get 0 ids' c = p)
                                  then get 0 parts c else 0) order)) as Hassigned.
  { intros p. apply assigned_particles_order. by rewrite Hlids. }
  assert (forall p, 0 <= Decomposer.assigned_particles parts ids' p <= INT_MAX)
    as Hbounds.
  { intros p.
    pose proof (assigned_particles_bounds parts ids' p ltac:(congruence) Hpos).
    lia. }
  assert (forall p, itask' < p ->
            Decomposer.assigned_particles parts ids' p = 0) as Hbeyond.
  { intros p Hp. rewrite Hassigned.
    apply (share_none parts ids' p order).
    eapply Forall_impl; [exact Hin|]. intros c Hc. cbn in Hc. lia. }
  assert (forall p, 0 <= p < itask' ->
            get 0 mp p = Decomposer.assigned_particles parts ids' p /\
            0 < Decomposer.assigned_particles parts ids' p) as Hbefore.
  { intros p Hp. destruct (Hcuts p Hp) as [Hmp Hs]. cbn zeta in *.
    replace (if decide (p = 0) then 0 else 0) with 0 in * by (case_decide; done).
    rewrite Z.add_0_l, <- Hassigned in Hmp, Hs.
    rewrite to_int_id in Hmp by (pose proof (Hbounds p); lia). done. }
  assert (np' = Decomposer.assigned_particles parts ids' itask') as Hlast.
  { rewrite Hnp, Hassigned. case_decide; lia. }
  assert (forall p, 0 <= p -> itask' <= p -> get 0 mp p = 0) as Hafter.
  { intros p Hp0 Hp. rewrite Hout by lia. unfold get.
    destruct (replicate (Z.to_nat NProcs) 0 !! Z.to_nat p) as [x|] eqn:Hx;
      [|done].
    apply lookup_replicate_1 in Hx as [-> _]. done. }
  rewrite to_int_id by (pose proof (Hbounds itask'); lia).
  rewrite Exists_get, set_length, Hlmp. split.
  - intros (p & Hp & Hzero).
    destruct (decide (itask' = NProcs - 1)) as [Heq|Hne].
    + exists (NProcs - 1). split; [lia|].
      destruct (decide (p = NProcs - 1)) as [->|Hp'].
      * rewrite get_set_eq in Hzero by lia. congruence.
      * rewrite get_set_ne in Hzero by lia.
        destruct (Hbefore p ltac:(lia)) as [Hmp Hs]. lia.
    + exists (NProcs - 1). split; [lia|]. apply Hbeyond. lia.
  - intros (p & Hp & Hzero).
    destruct (decide (itask' = NProcs - 1)) as [Heq|Hne].
    + exists (NProcs - 1). split; [lia|]. rewrite get_set_eq by lia.
      destruct (decide (p = NProcs - 1)) as [->|Hp']; [congruence|].
      destruct (Hbefore p ltac:(lia)) as [_ Hs]. lia.
    + exists itask'. split; [lia|]. rewrite get_set_ne by lia.
      apply Hafter; lia.
Qed.

Lemma get_replicate_0 (n : nat) (j : Z) : get 0 (replicate n 0) j = 0.
Proof.
  unfold get. destruct (replicate n 0 !! Z.to_nat j) as [x|] eqn:Hx; [|done].
  apply lookup_replicate in Hx as [-> _]. done.
Qed.

(** After a re-cut that leaves no zero in [mpinumparts], every entry of
    [mpinumparts] is the number of particles in the cells the process is
    given. *)
Lemma recut_counts (gt_optimalave : Z -> bool) (NProcs : Z)
    (parts order ids : list Z) :
  0 < NProcs ->
  (forall n, gt_optimalave n = true -> 0 < n) ->
  length ids = length parts ->
  order ≡ₚ map Z.of_nat (seq 0 (length ids)) ->
  Forall (fun x => 0 <= x) parts ->
  sumZ parts <= INT_MAX ->
  let r := Decomposer.recut gt_optimalave NProcs parts order ids in
  ~ Exists (fun x => x = 0) r.2 ->
  length r.1 = length ids /\
  Forall (fun c => 0 <= get 0 r.1 c < NProcs) order /\
  forall p, 0 <= p < NProcs ->
    get 0 r.2 p = Decomposer.assigned_particles parts r.1 p.
Proof.
  intros HP Hgt Hlen Hperm Hpos Hmax r. subst r. unfold Decomposer.recut.
  destruct (recut_loop_spec gt_optimalave NProcs parts Hgt order 0 0
              (replicate (Z.to_nat NProcs) 0) (replicate (Z.to_nat NProcs) 0) ids)
    as (itask' & np' & percell & mp & ids' & -> & Htask & Hlids & Hlmp
        & _ & Hin & Hout & Hcuts & Hnp).
  { lia. }
  { rewrite Hperm. apply (NoDup_fmap_2 _), NoDup_seq. }
  { apply Forall_forall. intros c Hc. rewrite Hperm in Hc.
    rewrite <- (Nat2Z.id (length ids)) in Hc.
    apply elem_of_range in Hc. lia. }
  { apply length_replicate. }
  cbn [fst snd]. rewrite length_replicate in Hlmp. intros Hnozero.
  assert (forall p, Decomposer.assigned_particles parts ids' p
            = sumZ (map (fun c => if decide (get 0 ids' c = p)
                                  then get 0 parts c else 0) order)) as Hassigned.
  { intros p. apply assigned_particles_order. by rewrite Hlids. }
  assert (forall p, 0 <= Decomposer.assigned_particles parts ids' p <= INT_MAX)
    as Hbounds.
  { intros p.
    pose proof (assigned_particles_bounds parts ids' p ltac:(congruence) Hpos).
    lia. }
  assert (forall p, 0 <= p < itask' ->
            get 0 mp p = Decomposer.assigned_particles parts ids' p) as Hbefore.
  { intros p Hp. destruct (Hcuts p Hp) as [Hmp Hs]. cbn zeta in *.
    replace (if decide (p = 0) then 0 else 0) with 0 in * by (case_decide; done).
    rewrite Z.add_0_l, <- Hassigned in Hmp, Hs.
    rewrite to_int_id in Hmp by (pose proof (Hbounds p); lia). done. }
  assert (np' = Decomposer.assigned_particles parts ids' itask') as Hlast.
  { rewrite Hnp, Hassigned. case_decide; lia. }
  assert (itask' = NProcs - 1) as Hfull.
  { destruct (decide (itask' = NProcs - 1)) as [|Hne]; [done|].
    exfalso. apply Hnozero. apply Exists_get. exists itask'.
    rewrite set_length, Hlmp. split; [lia|].
    rewrite get_set_ne by lia. rewrite Hout by lia. apply get_replicate_0. }
  split; [done|]. split.
  - eapply Forall_impl; [exact Hin|]. intros c Hc. cbn in Hc. lia.
  - intros p Hp. destruct (decide (p = NProcs - 1)) as [->|Hne].
    + rewrite get_set_eq by lia.
      rewrite to_int_id by (pose proof (Hbounds itask'); lia).
      by rewrite Hlast, Hfull.
    + rewrite get_set_ne by lia. apply Hbefore. lia.
Qed.

(** What the call does for any outcome of its two comparisons. *)
Lemma repartition_outcome
    (imbalance_exceeds : bool) (gt_optimalave : Z -> bool)
    (NProcs ThisTask Nlocal iBaryonSearch numcellsperdim : Z)
    (parts order ids : list Z) :
  0 < NProcs ->
  (forall n, gt_optimalave n = true -> 0 < n) ->
  length ids = length parts ->
  order ≡ₚ map Z.of_nat (seq 0 (length ids)) ->
  Forall (fun x => 0 <= x) parts ->
  sumZ parts <= INT_MAX ->
  let out := Decomposer.MPIRepartitionDomainDecompositionWithMesh
               imbalance_exceeds gt_optimalave NProcs ThisTask Nlocal
               iBaryonSearch numcellsperdim parts order ids in
  let ids' := (Decomposer.recut gt_optimalave NProcs parts order ids).1 in
  (imbalance_exceeds = false ->
     out = Decomposer.Returned false ids parts Nlocal) /\
  (imbalance_exceeds = true ->
     ((exists d, out = Decomposer.Aborted d) <->
      (exists p, 0 <= p < NProcs /\
                 Decomposer.assigned_particles parts ids' p = 0)) /\
     (forall d, out = Decomposer.Aborted d ->
        d = Decomposer.mkDiagnostic NProcs numcellsperdim (sumZ parts)
              (ceil_div (sumZ parts) 10000000)) /\
     ((forall p, 0 <= p < NProcs ->
         0 < Decomposer.assigned_particles parts ids' p) ->
      exists Nlocal',
        out = Decomposer.Returned (bool_decide (iBaryonSearch > 0)) ids'
                (map (fun _ => 0) parts) Nlocal')).
Proof.
  intros HP Hgt Hlen Hperm Hpos Hmax out ids'.
  pose proof (recut_zero_iff gt_optimalave NProcs parts order ids
                HP Hgt Hlen Hperm Hpos Hmax) as Hiff.
  cbn zeta in Hiff. fold ids' in Hiff.
  subst out. unfold Decomposer.MPIRepartitionDomainDecompositionWithMesh.
  split; [by intros ->|]. intros ->.
  subst ids'.
  destruct (Decomposer.recut gt_optimalave NProcs parts order ids)
    as [ids1 mp] eqn:Hrecut.
  cbn [fst snd] in *.
  destruct (bool_decide (Exists (fun x => x = 0) mp)) eqn:Hzero.
  - apply bool_decide_eq_true in Hzero. split; [|split].
    + split; [intros _; by apply Hiff | intros _; by eexists].
    + intros d [= <-]. f_equal. apply to_int_id.
      pose proof (sumZ_nonneg parts Hpos).
      pose proof (ceil_div_nonneg (sumZ parts) 10000000 ltac:(lia) ltac:(lia)).
      pose proof (ceil_div_le (sumZ parts) 10000000 ltac:(lia) ltac:(lia)).
      unfold INT_MAX in *. lia.
    + intros Hall. apply Hiff in Hzero as (p & Hp & Hz).
      specialize (Hall p Hp). lia.
  - apply bool_decide_eq_false in Hzero. split; [|split].
    + split; [by intros [d [=]] | intros H; by apply Hiff in H].
    + by intros d [=].
    + intros _. by eexists.
Qed.

(** *** Where the re-cut cuts

    The loop gives the first cell of the curve to the current process, and
    after every cell moves on to the next process exactly when the count
    accumulated for the process of that cell exceeds the average and a
    further process is left. *)
Lemma recut_loop_cuts (gt_optimalave : Z -> bool) (NProcs : Z)
    (parts : list Z) (order : list Z) :
  forall itask numparts numcellspertask mpinumparts ids,
  NoDup order ->
  Forall (fun c => 0 <= c < Z.of_nat (length ids)) order ->
  exists itask' numparts' percell mp ids',
    Decomposer.recut_loop gt_optimalave NProcs parts order itask
      numparts numcellspertask mpinumparts ids
    = (itask', numparts', percell, mp, ids') /\
    length ids' = length ids /\
    (forall k : nat, Z.of_nat k ∉ order -> ids' !! k = ids !! k) /\
    Forall (fun c => itask <= get 0 ids' c) order /\
    (forall c, head order = Some c -> get 0 ids' c = itask) /\
    (forall (k : nat) c d, order !! k = Some c -> order !! S k = Some d ->
       get 0 ids' d =
       if gt_optimalave
            ((if decide (get 0 ids' c = itask) then numparts else 0)
             + Decomposer.accumulated parts ids' order k c)
          && bool_decide (get 0 ids' c < NProcs - 1)
       then get 0 ids' c + 1 else get 0 ids' c).
Proof.
  induction order as [|index order IH];
    intros itask numparts nct mp0 ids Hnd Hrange.
  - do 5 eexists. split; [done|]. split; [done|]. split; [done|].
    split; [constructor|]. split; intros; done.
  - apply NoDup_cons in Hnd as [Hnotin Hnd].
    apply Forall_cons in Hrange as [Hindex Hrange].
    cbn [Decomposer.recut_loop]. cbv zeta.
    set (ids1 := set ids index itask).
    set (nct1 := set nct itask (get 0 nct itask + 1)).
    set (np := numparts + get 0 parts index).
    set (cut := gt_optimalave np && bool_decide (itask < NProcs - 1)).
    assert (length ids1 = length ids) as Hl1 by apply set_length.
    set (itask1 := if cut then itask + 1 else itask).
    set (np1 := if cut then 0 else np).
    assert (exists mp1,
              (if cut
               then Decomposer.recut_loop gt_optimalave NProcs parts order
                      (itask + 1) 0 nct1 (set mp0 itask (to_int np)) ids1
               else Decomposer.recut_loop gt_optimalave NProcs parts order
                      itask np nct1 mp0 ids1)
              = Decomposer.recut_loop gt_optimalave NProcs parts order
                  itask1 np1 nct1 mp1 ids1) as [mp1 ->].
    { subst itask1 np1. destruct cut; by eexists. }
    destruct (IH itask1 np1 nct1 mp1 ids1)
      as (itask' & np' & pc & mp & ids' & -> & Hlen & Hkeep & Hall
          & Hhead & Hchain); [done | by rewrite Hl1 |].
    assert (get 0 ids' index = itask) as Hidx.
    { unfold get. rewrite Hkeep by (rewrite Z2Nat.id by lia; done).
      unfold ids1. rewrite set_lookup_eq by done. done. }
    assert (itask <= itask1) as Hstep by (subst itask1; destruct cut; lia).
    do 5 eexists. split; [done|]. split; [congruence|].
    split; [|split; [|split]].
    + intros k Hk. rewrite not_elem_of_cons in Hk. destruct Hk as [Hne Hk].
      rewrite Hkeep by done. unfold ids1. apply set_lookup_ne. done.
    + constructor; [lia|]. eapply Forall_impl; [exact Hall|].
      intros c Hc. cbn in Hc. lia.
    + intros c [= <-]. done.
    + intros k c d Hc Hd. destruct k as [|k]; cbn in Hc, Hd.
      * injection Hc as <-. rewrite Hidx.
        rewrite (Hhead d) by (destruct order; [done | cbn in *; congruence]).
        unfold Decomposer.accumulated. cbn [take map].
        rewrite take_0. cbn [map]. rewrite sumZ_cons, Hidx.
        rewrite !decide_True by done.
        replace (numparts + (get 0 parts index + sumZ [])) with np
          by (subst np; unfold sumZ; cbn; lia).
        fold cut. subst itask1. by destruct cut.
      * rewrite (Hchain k c d Hc Hd).
        assert (itask1 <= get 0 ids' c) as Hge.
        { rewrite Forall_forall in Hall. apply Hall.
          by eapply list_elem_of_lookup_2. }
        unfold Decomposer.accumulated. cbn [take map].
        rewrite sumZ_cons, Hidx.
        match goal with
        | |- (if gt_optimalave ?a && _ then _ else _)
             = (if gt_optimalave ?b && _ then _ else _) =>
            replace a with b; [done|]
        end.
        subst itask1 np1 np. destruct cut; repeat case_decide; lia.
Qed.

Lemma recut_cuts (gt_optimalave : Z -> bool) (NProcs : Z)
    (parts order ids : list Z) :
  NoDup order ->
  Forall (fun c => 0 <= c < Z.of_nat (length ids)) order ->
  let ids' := (Decomposer.recut gt_optimalave NProcs parts order ids).1 in
  (forall c, head order = Some c -> get 0 ids' c = 0) /\
  (forall (k : nat) c d, order !! k = Some c -> order !! S k = Some d ->
     get 0 ids' d =
     if gt_optimalave (Decomposer.accumulated parts ids' order k c)
        && bool_decide (get 0 ids' c < NProcs - 1)
     then get 0 ids' c + 1 else get 0 ids' c).
Proof.
  intros Hnd Hrange. unfold Decomposer.recut.
  destruct (recut_loop_cuts gt_optimalave NProcs parts order 0 0
              (replicate (Z.to_nat NProcs) 0) (replicate (Z.to_nat NProcs) 0)
              ids)
    as (itask' & np' & pc & mp & ids' & -> & _ & _ & _ & Hhead & Hchain);
    [done | done |].
  cbn [fst]. split; [done|]. intros k c d Hc Hd.
  rewrite (Hchain k c d Hc Hd).
  by destruct (decide (get 0 ids' c = 0)); rewrite Z.add_0_l.
Qed.

(** *** The comparison with the average, in [double] *)

Lemma binary_round_aux_sign prec emax sx mx ex lx :
  Decomposer.sign_is sx (SpecFloat.binary_round_aux prec emax sx mx ex lx).
Proof.
  unfold SpecFloat.binary_round_aux.
  destruct (SpecFloat.shr_fexp prec emax mx ex lx) as [mrs' e'].
  destruct (SpecFloat.shr_fexp _ _ _ _ _) as [mrs'' e''].
  destruct (SpecFloat.shr_m mrs''); [done| |done].
  by destruct (_ <=? _).
Qed.

Lemma binary_normalize_sign prec emax m e :
  0 <= m ->
  Decomposer.sign_is false (SpecFloat.binary_normalize prec emax m e false).
Proof.
  intros Hm. destruct m as [|m|m]; [done| |lia].
  unfold SpecFloat.binary_normalize, SpecFloat.binary_round.
  destruct (SpecFloat.shl_align _ _ _) as [mz ez].
  apply binary_round_aux_sign.
Qed.

Lemma sign_is_not_negative f :
  Decomposer.sign_is false f -> Decomposer.not_negative f.
Proof. destruct f as [s|s| |s m e]; try done; by intros ->. Qed.

(** An [Int_t] that is not negative converts to a [double] with a clear
    sign bit, one that is not positive to a [double] that is not positive. *)
Lemma of_uint63_sign n :
  Decomposer.sign_is false (FloatOps.Prim2SF (PrimFloat.of_uint63 n)).
Proof.
  rewrite FloatAxioms.of_uint63_spec. apply binary_normalize_sign.
  apply Uint63.to_Z_bounded.
Qed.

Lemma of_Int_sign x :
  0 <= x -> Decomposer.sign_is false (FloatOps.Prim2SF (Decomposer.of_Int x)).
Proof.
  intros Hx. unfold Decomposer.of_Int. rewrite decide_False by lia.
  apply of_uint63_sign.
Qed.

Lemma of_Int_not_positive x :
  x <= 0 -> Decomposer.not_positive (FloatOps.Prim2SF (Decomposer.of_Int x)).
Proof.
  intros Hx. unfold Decomposer.of_Int. case_decide.
  - rewrite FloatAxioms.opp_spec.
    pose proof (of_uint63_sign (Uint63.of_Z (- x))) as Hs.
    destruct (FloatOps.Prim2SF _) as [s|s| |s m e]; cbn in *; try done;
      by subst s.
  - assert (x = 0) as -> by lia. vm_compute. done.
Qed.

(** Sums and quotients of values that are not negative are not negative. *)
Lemma SFadd_not_negative prec emax x y :
  Decomposer.not_negative x -> Decomposer.sign_is false y ->
  Decomposer.not_negative (SpecFloat.SFadd prec emax x y).
Proof.
  intros Hx Hy.
  destruct x as [sx|sx| |sx mx ex], y as [sy|sy| |sy my ey]; cbn in *;
    try done; subst; try (by destruct sx).
  apply sign_is_not_negative.
  destruct sx; [done|]. apply binary_normalize_sign. cbn. lia.
Qed.

Lemma SFdiv_not_negative prec emax x y :
  Decomposer.not_negative x -> Decomposer.sign_is false y ->
  Decomposer.not_negative (SpecFloat.SFdiv prec emax x y).
Proof.
  intros Hx Hy.
  destruct x as [sx|sx| |sx mx ex], y as [sy|sy| |sy my ey]; cbn in *;
    try done; subst; try (by destruct sx).
  destruct sx; [done|].
  destruct (SpecFloat.SFdiv_core_binary _ _ _ _ _ _) as [[mz ez] lz].
  apply sign_is_not_negative. apply binary_round_aux_sign.
Qed.

Lemma SFltb_not_negative_not_positive x y :
  Decomposer.not_negative x -> Decomposer.not_positive y ->
  SpecFloat.SFltb x y = false.
Proof.
  intros Hx Hy. unfold SpecFloat.SFltb.
  destruct x as [sx|sx| |sx mx ex], y as [sy|sy| |sy my ey]; cbn in *;
    try done; try (by destruct sx); try (by destruct sy);
    by destruct sx, sy.
Qed.

Lemma sum_not_negative (l : list Z) : forall acc,
  Decomposer.not_negative (FloatOps.Prim2SF acc) ->
  Forall (fun x => 0 <= x) l ->
  Decomposer.not_negative
    (FloatOps.Prim2SF
       (foldl (fun acc x => PrimFloat.add acc (Decomposer.of_Int x)) acc l)).
Proof.
  induction l as [|x l IH]; intros acc Hacc Hl; [done|].
  apply Forall_cons in Hl as [Hx Hl]. cbn [foldl]. apply IH; [|done].
  rewrite FloatAxioms.add_spec. apply SFadd_not_negative; [done|].
  by apply of_Int_sign.
Qed.

(** With counts that are not negative, [numparts > optimalave] holds for
    positive [numparts] only. *)
Lemma gt_optimalave_double_positive NProcs parts n :
  0 < NProcs -> Forall (fun x => 0 <= x) parts ->
  Decomposer.gt_optimalave_double NProcs parts n = true -> 0 < n.
Proof.
  intros HP Hparts Hgt. destruct (decide (0 < n)) as [|Hn]; [done|].
  unfold Decomposer.gt_optimalave_double, Decomposer.optimalave in Hgt.
  rewrite FloatAxioms.ltb_spec, FloatAxioms.div_spec in Hgt.
  rewrite SFltb_not_negative_not_positive in Hgt; [done| |].
  - apply SFdiv_not_negative; [|apply of_Int_sign; lia].
    by apply sum_not_negative.
  - apply of_Int_not_positive. lia.
Qed.




(** The measured imbalance and the two ends of the call on that mesh:
    loads of 8 and 2 particles give the imbalance [(8-2)/5]; the re-cut
    closes process 0 behind the third cell of the curve, where its count
    of 8 exceeds the average 5, and the call returns; with all particles
    in the last cell of the curve the re-cut gives every cell to process 0
    and the job is aborted. *)
Example repartition_recut_returns :
  let dec := Decomposer.MPIInitialDomainDecompositionWithMesh 2 2 in
  let order := Decomposer.cellnodeorder dec in
  let ids := Decomposer.cellnodeids dec in
  let parts := [5; 0; 3; 0; 0; 2; 0; 0] in
  let limit := PrimFloat.div (Decomposer.of_Int 1) (Decomposer.of_Int 10) in
  ids = [0; 1; 0; 1; 0; 1; 0; 1] /\
  Decomposer.MPILoadBalanceWithMesh 2 parts ids
  = PrimFloat.div (Decomposer.of_Int 6) (Decomposer.of_Int 5) /\
  Decomposer.MPIRepartitionDomainDecompositionWithMesh
    (Decomposer.imbalance_exceeds_double limit 2 parts ids)
    (Decomposer.gt_optimalave_double 2 parts) 2 0 8 0 2 parts order ids
  = Decomposer.Returned false [0; 1; 0; 1; 0; 1; 1; 1]
      [0; 0; 0; 0; 0; 0; 0; 0] 8.
Proof. vm_compute. repeat split. Qed.

Example repartition_recut_aborts :
  let dec := Decomposer.MPIInitialDomainDecompositionWithMesh 2 2 in
  let order := Decomposer.cellnodeorder dec in
  let ids := Decomposer.cellnodeids dec in
  let parts := [0; 0; 0; 0; 0; 0; 0; 9] in
  let limit := PrimFloat.div (Decomposer.of_Int 1) (Decomposer.of_Int 10) in
  Decomposer.MPIRepartitionDomainDecompositionWithMesh
    (Decomposer.imbalance_exceeds_double limit 2 parts ids)
    (Decomposer.gt_optimalave_double 2 parts) 2 0 9 0 2 parts order ids
  = Decomposer.Aborted (Decomposer.mkDiagnostic 2 2 9 1).
Proof. vm_compute. reflexivity. Qed.

(** ** Compactor: what the run loop does to every run *)

Lemma get_app_middle {A} (d : A) (l1 l2 : list A) x :
  get d (l1 ++ x :: l2) (Z.of_nat (length l1)) = x.
Proof.
  unfold get. rewrite Nat2Z.id, lookup_app_r, Nat.sub_diag by lia. done.
Qed.

Lemma update_range_app {A} (f : A -> A) (l1 l2 l3 : list A) :
  update_range f (l1 ++ l2 ++ l3) (Z.of_nat (length l1))
               (Z.of_nat (length (l1 ++ l2)))
  = l1 ++ map f l2 ++ l3.
Proof.
  apply list_eq. intros j. rewrite update_range_lookup, length_app.
  destruct (decide (j < length l1)%nat) as [H1|H1].
  - rewrite !lookup_app_l by lia.
    destruct (l1 !! j); [cbn|done]. by rewrite decide_False by lia.
  - rewrite !(lookup_app_r l1) by lia.
    destruct (decide (j - length l1 < length l2)%nat) as [H2|H2].
    + rewrite !lookup_app_l by (rewrite ?length_map; lia).
      rewrite list_lookup_fmap.
      destruct (l2 !! (j - length l1)%nat); [cbn|done].
      by rewrite decide_True by lia.
    + rewrite !lookup_app_r by (rewrite ?length_map; lia).
      rewrite length_map.
      destruct (l3 !! _); [cbn|done]. by rewrite decide_False by lia.
Qed.

Section run_loop.
Import Compactor.
Variable minsize : Z.

(** Particles that carry the id of the open run are passed over. *)
Lemma run_loop_scan same : forall Pre start ngroups Rest todo,
  Forall (fun p => GetID p = GetID (get (mkParticle 0 0 0)
                                        (Pre ++ same ++ Rest) start)
                   /\ GetID p < 0) same ->
  run_loop minsize (length same + todo) (Z.of_nat (length Pre)) start ngroups
           (Pre ++ same ++ Rest)
  = run_loop minsize todo (Z.of_nat (length (Pre ++ same))) start ngroups
             (Pre ++ same ++ Rest).
Proof using Type.
  induction same as [|p same IH]; intros Pre start ngroups Rest todo Hsame.
  - by rewrite app_nil_r.
  - apply Forall_cons in Hsame as [[Hid Hneg] Hsame].
    assert (Pre ++ (p :: same) ++ Rest = (Pre ++ [p]) ++ same ++ Rest) as Heq
      by (by rewrite <- app_assoc).
    pose proof (get_app_middle (mkParticle 0 0 0) Pre (same ++ Rest) p) as Hget.
    cbn [length Nat.add run_loop]. cbn zeta.
    rewrite <- app_comm_cons in *. rewrite Hget.
    rewrite (decide_False (P := GetID p <> _)) by (intros H; by apply H).
    cbv beta iota zeta. rewrite Hget.
    rewrite (decide_False (P := GetID p >= 0)) by lia.
    replace (Z.of_nat (length Pre) + 1) with (Z.of_nat (length (Pre ++ [p])))
      by (rewrite length_app; cbn; lia).
    rewrite app_comm_cons, Heq in *.
    rewrite IH by done. by rewrite <- (app_assoc Pre [p] same).
Qed.
End run_loop.

Section run_loop_runs.
Import Compactor.
Variable minsize : Z.

Lemma keep_run_length run : length (keep_run minsize run) = length run.
Proof. unfold keep_run. case_decide; [apply length_map | done]. Qed.

(** Meeting the first particle [x] of what follows a run closes the run. *)
Lemma run_loop_close Pre run x Rest ngroups :
  run <> [] -> Forall (fun p => GetID p = run_id run) run ->
  GetID x <> run_id run ->
  let Part := Pre ++ run ++ x :: Rest in
  let i := Z.of_nat (length (Pre ++ run)) in
  let start := Z.of_nat (length Pre) in
  (if decide (GetID (get (mkParticle 0 0 0) Part i)
              <> GetID (get (mkParticle 0 0 0) Part start)) then
     if decide (i - start < minsize)
     then (update_range (fun p => SetID p 0) Part start i, i, ngroups)
     else (Part, i, ngroups + 1)
   else (Part, start, ngroups))
  = (Pre ++ keep_run minsize run ++ x :: Rest, i,
     ngroups + (if decide (Z.of_nat (length run) < minsize) then 0 else 1)).
Proof using Type.
  intros Hne Hall Hx Part i start.
  assert (get (mkParticle 0 0 0) Part i = x) as ->.
  { subst Part i. rewrite app_assoc. apply get_app_middle. }
  assert (GetID (get (mkParticle 0 0 0) Part start) = run_id run) as ->.
  { subst Part start. destruct run as [|r run]; [done|].
    rewrite <- app_comm_cons, get_app_middle. done. }
  rewrite decide_True by done.
  assert (i - start = Z.of_nat (length run)) as ->.
  { subst i start. rewrite length_app. lia. }
  unfold keep_run. case_decide.
  - subst Part i start. rewrite update_range_app. f_equal. f_equal. lia.
  - done.
Qed.

(** From a run that has been passed over and is still open, the loop
    filters this run and every later one; the last run is only filtered
    when a particle with a non-negative id follows it. *)
Lemma run_loop_runs runs : forall Pre run Tail ngroups,
  run <> [] -> run_id run < 0 ->
  Forall (fun p => GetID p = run_id run) run ->
  maximal_runs (Some (run_id run)) runs ->
  match Tail with [] => True | z :: _ => GetID z >= 0 end ->
  run_loop minsize (length (concat runs ++ Tail))
           (Z.of_nat (length (Pre ++ run))) (Z.of_nat (length Pre)) ngroups
           (Pre ++ run ++ concat runs ++ Tail)
  = (Pre ++ filter_runs minsize (bool_decide (Tail <> [])) run runs ++ Tail,
     ngroups + count_runs minsize (bool_decide (Tail <> [])) run runs).
Proof using Type.
  induction runs as [|next runs IH];
    intros Pre run Tail ngroups Hne Hneg Hall Hruns Htail.
  - cbn [concat app filter_runs count_runs].
    destruct Tail as [|z tail].
    + cbn. rewrite app_nil_r. f_equal. lia.
    + rewrite bool_decide_eq_true_2 by done.
      cbn [length run_loop]. cbv zeta.
      rewrite (run_loop_close Pre run z tail ngroups) by (done || lia).
      assert (get (mkParticle 0 0 0) (Pre ++ keep_run minsize run ++ z :: tail)
                  (Z.of_nat (length (Pre ++ run))) = z) as ->.
      { rewrite app_assoc, length_app, <- (keep_run_length run), <- length_app.
        apply get_app_middle. }
      rewrite decide_True by done. done.
  - cbn [maximal_runs] in Hruns.
    destruct Hruns as (Hne' & Hneg' & Hall' & Hdiff & Hruns).
    destruct next as [|n0 next]; [done|].
    assert (run_id (n0 :: next) = GetID n0) as Hid by done.
    cbn [concat]. rewrite <- !app_assoc, <- app_comm_cons.
    cbn [length run_loop]. cbv zeta.
    rewrite (run_loop_close Pre run n0 (next ++ concat runs ++ Tail) ngroups);
      [|done|done|congruence].
    assert (get (mkParticle 0 0 0)
              (Pre ++ keep_run minsize run ++ n0 :: next ++ concat runs ++ Tail)
              (Z.of_nat (length (Pre ++ run))) = n0) as Hget.
    { rewrite app_assoc, length_app, <- (keep_run_length run), <- length_app.
      apply get_app_middle. }
    rewrite Hget, decide_False by lia.
    set (Pre' := Pre ++ keep_run minsize run).
    assert (length (Pre ++ run) = length Pre') as Hlen.
    { subst Pre'. by rewrite !length_app, keep_run_length. }
    rewrite Hlen.
    replace (Pre ++ keep_run minsize run ++ n0 :: next ++ concat runs ++ Tail)
      with ((Pre' ++ [n0]) ++ next ++ concat runs ++ Tail)
      by (subst Pre'; by rewrite <- !app_assoc).
    replace (Z.of_nat (length Pre') + 1) with (Z.of_nat (length (Pre' ++ [n0])))
      by (rewrite length_app; cbn; lia).
    rewrite (length_app next).
    rewrite run_loop_scan.
    + replace ((Pre' ++ [n0]) ++ next ++ concat runs ++ Tail)
        with (Pre' ++ (n0 :: next) ++ concat runs ++ Tail)
        by (by rewrite <- !app_assoc).
      replace ((Pre' ++ [n0]) ++ next) with (Pre' ++ n0 :: next)
        by (by rewrite <- app_assoc).
      rewrite IH by done.
      cbn [filter_runs count_runs]. subst Pre'.
      rewrite <- !app_assoc. f_equal. lia.
    + replace ((Pre' ++ [n0]) ++ next ++ concat runs ++ Tail)
        with (Pre' ++ n0 :: (next ++ concat runs ++ Tail))
        by (by rewrite <- !app_assoc).
      rewrite get_app_middle.
      apply Forall_cons in Hall' as [_ Hall'].
      eapply Forall_impl; [exact Hall'|]. intros q Hq. cbn in Hq.
      rewrite Hid in *. split; [done | lia].
Qed.
End run_loop_runs.

(** The run loop of [MPICompileGroups] on particles that form maximal runs
    of grouped particles followed by [Tail], which is empty or starts with
    a non-negative id: every run is reset exactly when it is shorter than
    [minsize] and counted otherwise, except the last run when [Tail] is
    empty, which is neither reset nor counted whatever its length. *)
Lemma run_loop_filters_runs (minsize : Z) (run : list Particle)
    (runs : list (list Particle)) (Tail : list Particle) :
  Compactor.maximal_runs None (run :: runs) ->
  match Tail with [] => True | z :: _ => GetID z >= 0 end ->
  let Part := run ++ concat runs ++ Tail in
  Compactor.run_loop minsize (length Part) 0 0 0 Part
  = (Compactor.filter_runs minsize (bool_decide (Tail <> [])) run runs ++ Tail,
     Compactor.count_runs minsize (bool_decide (Tail <> [])) run runs).
Proof.
  intros (Hne & Hneg & Hall & _ & Hruns) Htail Part. subst Part.
  destruct run as [|r0 run]; [done|].
  assert (Compactor.run_id (r0 :: run) = GetID r0) as Hid by done.
  rewrite Hid in *.
  rewrite <- app_comm_cons. cbn [length Compactor.run_loop]. cbv zeta.
  pose proof (get_app_middle (mkParticle 0 0 0) [] (run ++ concat runs ++ Tail) r0)
    as Hget.
  cbn [app length] in Hget. change (Z.of_nat 0) with 0 in Hget.
  rewrite Hget, decide_False by (intros H; by apply H).
  cbv beta iota zeta. rewrite Hget, decide_False by lia.
  rewrite length_app.
  pose proof (run_loop_scan minsize run [r0] 0 0 (concat runs ++ Tail)
                (length (concat runs ++ Tail))) as Hscan.
  cbn [app length] in Hscan. change (Z.of_nat 1) with (0 + 1) in Hscan.
  rewrite Hscan.
  - pose proof (run_loop_runs minsize runs [] (r0 :: run) Tail 0) as Hrest.
    cbn [app length] in Hrest. change (Z.of_nat 0) with 0 in Hrest.
    by rewrite Hrest.
  - rewrite Hget. apply Forall_cons in Hall as [_ Hall].
    eapply Forall_impl; [exact Hall|]. intros q Hq. cbn in Hq.
    split; [done | lia].
Qed.

Example run_loop_filters_runs_last_open :
  Compactor.filter_runs 2 false [mkParticle (-7) 0 0]
    [[mkParticle (-5) 1 0]]
  = [mkParticle 0 0 0; mkParticle (-5) 1 0].
Proof. reflexivity. Qed.

(** * Further properties of the modelled routines *)

(** ** Compactor: comparators and runs *)

(** X3. [fof_id_cmp_vec] is a strict weak ordering, as [std::sort] requires: it
    is irreflexive and transitive, and two records are equivalent (neither
    before the other) exactly when group, type and id agree. *)
Theorem fof_id_cmp_vec_strict_weak_order :
  (forall a, Compactor.fof_id_cmp_vec a a = false) /\
  (forall a b c, Compactor.fof_id_cmp_vec a b = true ->
                 Compactor.fof_id_cmp_vec b c = true ->
                 Compactor.fof_id_cmp_vec a c = true) /\
  (forall a b,
     Compactor.fof_id_cmp_vec a b = false /\
     Compactor.fof_id_cmp_vec b a = false <->
     Compactor.iGroup a = Compactor.iGroup b /\
     GetType (Compactor.p a) = GetType (Compactor.p b) /\
     GetID (Compactor.p a) = GetID (Compactor.p b)).
Proof.
  split; [|split].
  - intros a. apply not_true_is_false. rewrite fof_id_cmp_vec_true. lia.
  - intros a b c. rewrite !fof_id_cmp_vec_true. lia.
  - intros a b. rewrite <- !not_true_iff_false, !fof_id_cmp_vec_true. lia.
Qed.

(** X4. [fof_id_cmp] is a consistent [qsort] comparator: swapping the arguments
    negates the result, and it is 0 exactly when group, type and id agree. *)
Theorem fof_id_cmp_antisymmetric a b :
  Compactor.fof_id_cmp b a = - Compactor.fof_id_cmp a b /\
  (Compactor.fof_id_cmp a b = 0 <->
   Compactor.iGroup a = Compactor.iGroup b /\
   GetType (Compactor.p a) = GetType (Compactor.p b) /\
   GetID (Compactor.p a) = GetID (Compactor.p b)).
Proof. unfold Compactor.fof_id_cmp. repeat case_decide; lia. Qed.

(** ** Transport: the two ends of a pair *)

Lemma chunk_loop_mirror tags nsend nrecv rounds :
  forall ichunk cs cr so ro,
  Transport.chunk_loop tags nrecv nsend rounds ichunk cr cs ro so
  = map (fun e => Transport.mkSendrecv (Transport.sr_tag e)
                    (Transport.sr_recvoffset e) (Transport.sr_recvsize e)
                    (Transport.sr_sendoffset e) (Transport.sr_sendsize e))
        (Transport.chunk_loop tags nsend nrecv rounds ichunk cs cr so ro).
Proof.
  induction rounds as [|r IH]; intros ichunk cs cr so ro; [done|].
  cbn [Transport.chunk_loop Transport.MPIUpdateCommChunks].
  rewrite map_app, map_map, IH. done.
Qed.

(** X5. The two processes of a pair call the chunk routines with the send and
    receive counts swapped. They run the same number of rounds with the
    same tags, and in every round what one sends (offset and size) is what
    the other receives. *)
Theorem chunk_exchange_mirror tags nsend nrecv maxchunksize :
  Transport.chunk_exchange tags nrecv nsend maxchunksize
  = map (fun e => Transport.mkSendrecv (Transport.sr_tag e)
                    (Transport.sr_recvoffset e) (Transport.sr_recvsize e)
                    (Transport.sr_sendoffset e) (Transport.sr_sendsize e))
        (Transport.chunk_exchange tags nsend nrecv maxchunksize).
Proof.
  unfold Transport.chunk_exchange, Transport.MPIInitialzeCommChunks.
  repeat case_decide;
    first
      [ apply chunk_loop_mirror
      | match goal with
        | |- context [Z.to_nat (Z.max ?a ?b)] => rewrite (Z.max_comm a b)
        end; apply chunk_loop_mirror ].
Qed.

(** ** Transport: round trip through the side channel *)

Lemma get_fields_map names m :
  Transport.get_fields names m = map (fun f => default 0 (m !! f)) names.
Proof. induction names as [|f names IH]; [done|]. cbn. by rewrite IH. Qed.

(** Fields read from consecutive buffer positions that hold the value
    [val] of each name. *)
Lemma set_fields_lookup (val : string -> Z) names : forall buff pos m f,
  (forall (i : nat) field, names !! i = Some field ->
     get 0 buff (pos + Z.of_nat i) = val field) ->
  Transport.set_fields names buff pos m !! f
  = if decide (f ∈ names) then Some (val f) else m !! f.
Proof.
  induction names as [|x names IH]; intros buff pos m f Hbuff.
  - cbn. rewrite decide_False; [done|]. apply not_elem_of_nil.
  - cbn [Transport.set_fields]. rewrite IH.
    + pose proof (Hbuff 0%nat x eq_refl) as Hx. rewrite Z.add_0_r in Hx.
      rewrite Hx. destruct (decide (f = x)) as [->|Hne].
      * rewrite lookup_insert_eq, (decide_True (P := x ∈ x :: names))
          by apply list_elem_of_here.
        by destruct (decide (x ∈ names)).
      * rewrite lookup_insert_ne by done.
        destruct (decide (f ∈ names)) as [Hin|Hin].
        -- rewrite decide_True; [done|]. by apply list_elem_of_further.
        -- rewrite decide_False; [done|].
           rewrite elem_of_cons. intros [?|?]; done.
    + intros i field Hi. rewrite <- (Hbuff (S i) field Hi). f_equal. lia.
Qed.

(** Position [k*n + t] of a buffer made of blocks of [n] values. *)
Lemma flat_map_block_lookup {A} (block : A -> list Z) (n : nat) l :
  (forall x, length (block x) = n) ->
  forall (k t : nat) x, l !! k = Some x -> (t < n)%nat ->
  flat_map block l !! (k * n + t)%nat = block x !! t.
Proof.
  intros Hlen. induction l as [|y l IH]; intros k t x Hk Ht; [done|].
  cbn [flat_map]. destruct k as [|k]; cbn in Hk.
  - injection Hk as ->. cbn. apply lookup_app_l. rewrite Hlen. done.
  - rewrite lookup_app_r by (rewrite Hlen; lia).
    rewrite Hlen. replace (S k * n + t - n)%nat with (k * n + t)%nat by lia.
    by apply IH.
Qed.

Section round_trip.
Import Transport.
Variables (opt : Options) (Pbuf : list (option HydroProperties)).

(** The sender's properties hold the configured fields and no other. *)
Hypothesis Hfields : forall j h, Pbuf !! j = Some (Some h) ->
  (forall f, is_Some (InternalProperties h !! f)
             <-> f ∈ gas_internalprop_unique_input_names opt) /\
  (forall f, is_Some (Chemistry h !! f)
             <-> f ∈ gas_chem_unique_input_names opt) /\
  (forall f, is_Some (ChemistryProduction h !! f)
             <-> f ∈ gas_chemproduction_unique_input_names opt).

Let indicessend := pack_indices (Z.of_nat (length Pbuf)) Pbuf.
Let propsendbuff := pack_properties opt Pbuf indicessend.

Lemma elem_of_pack_indices index :
  index ∈ indicessend <->
  0 <= index < Z.of_nat (length Pbuf) /\ is_Some (get None Pbuf index).
Proof using Type.
  unfold indicessend, pack_indices.
  rewrite list_elem_of_filter, elem_of_range. tauto.
Qed.

Lemma pack_indices_NoDup : NoDup indicessend.
Proof using Type.
  unfold indicessend, pack_indices.
  apply NoDup_filter, (NoDup_fmap_2 _), NoDup_seq.
Qed.

Lemma map_eq_fields (names : list string) (m m' : gmap string Z) :
  (forall f, is_Some (m !! f) <-> f ∈ names) ->
  (forall f, m' !! f = if decide (f ∈ names)
                       then Some (default 0 (m !! f)) else None) ->
  m' = m.
Proof using Type.
  intros Hdom Hm'. apply map_eq. intros f. rewrite Hm'.
  case_decide as Hf.
  - apply Hdom in Hf as [v ->]. done.
  - destruct (m !! f) eqn:Hmf; [|done]. exfalso. apply Hf, Hdom. by eexists.
Qed.

(** The [k]-th block of the send buffer unpacks to the properties of the
    [k]-th particle sent. *)
Lemma unpack_packed (k : nat) index h :
  indicessend !! k = Some index ->
  get None Pbuf index = Some h ->
  unpack_properties opt propsendbuff (Z.of_nat k) = h.
Proof using Hfields.
  intros Hk Hh.
  assert (Pbuf !! Z.to_nat index = Some (Some h)) as Hlook.
  { unfold get in Hh. destruct (Pbuf !! Z.to_nat index) as [o|]; [|done].
    cbn in Hh. by subst o. }
  destruct (Hfields _ _ Hlook) as (Hint & Hchem & Hprod).
  set (li := length (gas_internalprop_unique_input_names opt)).
  set (lc := length (gas_chem_unique_input_names opt)).
  set (lp := length (gas_chemproduction_unique_input_names opt)).
  set (block := fun index : Z =>
    let h := default HydroProperties_new (get None Pbuf index) in
    get_fields (gas_internalprop_unique_input_names opt) (InternalProperties h)
    ++ get_fields (gas_chem_unique_input_names opt) (Chemistry h)
    ++ get_fields (gas_chemproduction_unique_input_names opt)
                  (ChemistryProduction h)).
  assert (forall x, length (block x) = (li + lc + lp)%nat) as Hblen.
  { intros x. unfold block. cbn zeta.
    rewrite !length_app, !get_fields_map, !length_map. lia. }
  assert (numextrafields opt = Z.of_nat (li + lc + lp)) as Hnf.
  { unfold numextrafields. lia. }
  assert (forall t : nat, (t < li + lc + lp)%nat ->
            get 0 propsendbuff (Z.of_nat k * numextrafields opt + Z.of_nat t)
            = default 0 (block index !! t)) as Hpos.
  { intros t Ht. unfold get. f_equal. rewrite Hnf.
    replace (Z.to_nat (Z.of_nat k * Z.of_nat (li + lc + lp) + Z.of_nat t))
      with (k * (li + lc + lp) + t)%nat by lia.
    by apply (flat_map_block_lookup block (li + lc + lp)). }
  assert (block index
          = map (fun f => default 0 (InternalProperties h !! f))
                (gas_internalprop_unique_input_names opt)
            ++ map (fun f => default 0 (Chemistry h !! f))
                   (gas_chem_unique_input_names opt)
            ++ map (fun f => default 0 (ChemistryProduction h !! f))
                   (gas_chemproduction_unique_input_names opt)) as Hblock.
  { unfold block. cbn zeta. rewrite Hh. cbn [default].
    by rewrite !get_fields_map. }
  unfold unpack_properties. cbn zeta. destruct h as [mi mc mp].
  cbn [InternalProperties Chemistry ChemistryProduction] in *.
  f_equal.
  - apply (map_eq_fields (gas_internalprop_unique_input_names opt)); [done|].
    intros f. rewrite (set_fields_lookup (fun f => default 0 (mi !! f)));
      [by case_decide|].
    intros i field Hi.
    assert (i < li)%nat as Hlt by (by apply lookup_lt_Some in Hi).
    rewrite <- Z.add_assoc, Z.add_0_l, Hpos, Hblock by lia.
    rewrite lookup_app_l by (rewrite length_map; lia).
    by rewrite list_lookup_fmap, Hi.
  - apply (map_eq_fields (gas_chem_unique_input_names opt)); [done|].
    intros f. rewrite (set_fields_lookup (fun f => default 0 (mc !! f)));
      [by case_decide|].
    intros i field Hi.
    assert (i < lc)%nat as Hlt by (by apply lookup_lt_Some in Hi).
    replace (Z.of_nat k * numextrafields opt
             + (0 + Z.of_nat (length (gas_internalprop_unique_input_names opt)))
             + Z.of_nat i)
      with (Z.of_nat k * numextrafields opt + Z.of_nat (li + i)) by lia.
    rewrite Hpos, Hblock by lia.
    rewrite lookup_app_r by (rewrite length_map; lia).
    rewrite length_map. replace (li + i - _)%nat with i by lia.
    rewrite lookup_app_l by (rewrite length_map; lia).
    by rewrite list_lookup_fmap, Hi.
  - apply (map_eq_fields (gas_chemproduction_unique_input_names opt)); [done|].
    intros f. rewrite (set_fields_lookup (fun f => default 0 (mp !! f)));
      [by case_decide|].
    intros i field Hi.
    assert (i < lp)%nat as Hlt by (by apply lookup_lt_Some in Hi).
    replace (Z.of_nat k * numextrafields opt
             + (0 + Z.of_nat (length (gas_internalprop_unique_input_names opt))
                + Z.of_nat (length (gas_chem_unique_input_names opt)))
             + Z.of_nat i)
      with (Z.of_nat k * numextrafields opt + Z.of_nat (li + lc + i)) by lia.
    rewrite Hpos, Hblock by lia.
    rewrite lookup_app_r by (rewrite length_map; lia).
    rewrite length_map. replace (li + lc + i - _)%nat with (lc + i)%nat by lia.
    rewrite lookup_app_r by (rewrite length_map; lia).
    rewrite length_map. replace (lc + i - _)%nat with i by lia.
    by rewrite list_lookup_fmap, Hi.
Qed.
End round_trip.

(** X6. Round trip through the gas side channel.  When extra fields are
    configured, the sender's chunk has at least one particle with gas
    properties and each of them holds exactly the configured fields, then what
    [MPISendReceiveHydroInfoBetweenThreads] hands to the exchange on the
    sending process rebuilds, in the call of the receiving process on a
    chunk of the same length, the sender's gas properties particle by
    particle: absent where the sender has none, equal where it has some. *)
Theorem MPISendReceiveHydroInfoBetweenThreads_round_trip
    (opt : Transport.Options)
    (Pbuf Part : list (option Transport.HydroProperties))
    nlocal_s Part_s received_s nlocalbuff_r Pbuf_r :
  Transport.numextrafields opt <> 0 ->
  length Part = length Pbuf ->
  Exists is_Some Pbuf ->
  (forall j h, Pbuf !! j = Some (Some h) ->
    (forall f, is_Some (Transport.InternalProperties h !! f)
               <-> f ∈ Transport.gas_internalprop_unique_input_names opt) /\
    (forall f, is_Some (Transport.Chemistry h !! f)
               <-> f ∈ Transport.gas_chem_unique_input_names opt) /\
    (forall f, is_Some (Transport.ChemistryProduction h !! f)
               <-> f ∈ Transport.gas_chemproduction_unique_input_names opt)) ->
  exists msg,
    (Transport.MPISendReceiveHydroInfoBetweenThreads opt
       (Z.of_nat (length Pbuf)) Pbuf nlocal_s Part_s received_s).1 = Some msg /\
    (Transport.MPISendReceiveHydroInfoBetweenThreads opt
       nlocalbuff_r Pbuf_r (Z.of_nat (length Part)) Part msg).2 = Pbuf.
Proof.
  intros Hnf Hlen Hex Hfields.
  exists (Transport.pack_indices (Z.of_nat (length Pbuf)) Pbuf,
          Transport.pack_properties opt Pbuf
            (Transport.pack_indices (Z.of_nat (length Pbuf)) Pbuf)).
  split.
  { unfold Transport.MPISendReceiveHydroInfoBetweenThreads.
    rewrite decide_False by done. destruct received_s as [ir pr].
    cbv zeta. by case_decide. }
  unfold Transport.MPISendReceiveHydroInfoBetweenThreads.
  rewrite decide_False by done. cbv beta iota zeta.
  set (indices := Transport.pack_indices (Z.of_nat (length Pbuf)) Pbuf).
  set (buff := Transport.pack_properties opt Pbuf indices).
  assert (indices <> []) as Hne.
  { apply Exists_exists in Hex as (o & Ho & Hsome).
    apply list_elem_of_lookup in Ho as [j Hj].
    assert (Z.of_nat j ∈ indices) as Hin.
    { apply elem_of_pack_indices. split.
      - apply lookup_lt_Some in Hj. lia.
      - unfold get. rewrite Nat2Z.id, Hj. done. }
    intros Heq. rewrite Heq in Hin. by apply not_elem_of_nil in Hin. }
  rewrite decide_False by (destruct indices; [done | cbn; lia]).
  cbn [snd].
  assert (Forall (fun index => 0 <= index <
            Z.of_nat (length (update_range (fun _ => None) Part 0
                                (Z.of_nat (length Part))))) indices) as Hrange.
  { apply Forall_forall. intros index Hin.
    apply elem_of_pack_indices in Hin as [Hin _].
    rewrite update_range_length. lia. }
  apply list_eq. intros j.
  destruct (Pbuf !! j) as [[h|]|] eqn:Hj.
  - assert (Z.of_nat j ∈ indices) as Hin.
    { apply elem_of_pack_indices. split.
      - apply lookup_lt_Some in Hj. lia.
      - unfold get. rewrite Nat2Z.id, Hj. done. }
    apply list_elem_of_lookup in Hin as [k Hk].
    pose proof (reconstruct_received opt buff indices 0 _ k _
                  (pack_indices_NoDup Pbuf) Hrange Hk) as Hrec.
    rewrite Nat2Z.id in Hrec. rewrite Hrec. do 2 f_equal.
    apply (unpack_packed opt Pbuf Hfields k (Z.of_nat j)); [done|].
    unfold get. rewrite Nat2Z.id, Hj. done.
  - rewrite reconstruct_other.
    + rewrite update_range_lookup.
      assert (j < length Part)%nat as Hlt
        by (rewrite Hlen; by apply lookup_lt_Some in Hj).
      apply lookup_lt_is_Some in Hlt as [o Ho]. rewrite Ho. cbn.
      rewrite decide_True by (apply lookup_lt_Some in Ho; lia). done.
    + intros Hin. apply elem_of_pack_indices in Hin as [_ Hsome].
      unfold get in Hsome. rewrite Nat2Z.id, Hj in Hsome.
      by destruct Hsome.
  - apply lookup_ge_None. rewrite reconstruct_length, update_range_length.
    rewrite Hlen. by apply lookup_ge_None.
Qed.

Lemma MPISendReceiveHydroInfoBetweenThreads_round_trip_witness :
  let opt := Transport.mkOptions ["Temperature"%string] ["H"%string] [] in
  let h := Transport.mkHydroProperties
             {["Temperature"%string := 7]} {["H"%string := 3]} ∅ in
  let stale := Transport.mkHydroProperties
             {["Temperature"%string := 1]} {["H"%string := 1]} ∅ in
  exists msg,
    (Transport.MPISendReceiveHydroInfoBetweenThreads opt
       2 [None; Some h] 0 [] ([], [])).1 = Some msg /\
    (Transport.MPISendReceiveHydroInfoBetweenThreads opt
       0 [] 2 [Some stale; None] msg).2 = [None; Some h].
Proof.
  intros opt h stale.
  apply (MPISendReceiveHydroInfoBetweenThreads_round_trip opt
           [None; Some h] [Some stale; None] 0 [] ([], []) 0 []).
  - vm_compute. discriminate.
  - reflexivity.
  - apply Exists_cons_tl, Exists_cons_hd. by eexists.
  - intros j h' Hj.
    destruct j as [|[|j]]; cbn in Hj; try discriminate.
    injection Hj as <-. cbn.
    repeat split; intros Hf.
    + destruct (decide (f = "Temperature"%string)) as [->|Hne];
        [apply list_elem_of_here|].
      rewrite lookup_singleton_ne in Hf by done. by destruct Hf.
    + apply list_elem_of_singleton in Hf as ->.
      rewrite lookup_singleton_eq. by eexists.
    + destruct (decide (f = "H"%string)) as [->|Hne];
        [apply list_elem_of_here|].
      rewrite lookup_singleton_ne in Hf by done. by destruct Hf.
    + apply list_elem_of_singleton in Hf as ->.
      rewrite lookup_singleton_eq. by eexists.
    + rewrite lookup_empty in Hf. by destruct Hf.
    + by apply not_elem_of_nil in Hf.
Defined.

Lemma MPISendReceiveFOFHydroInfoBetweenThreads_keeps_witness :
  let opt := Transport.mkOptions ["Temperature"%string] [] [] in
  let h := Transport.mkHydroProperties {["Temperature"%string := 7]} ∅ ∅ in
  (Transport.MPISendReceiveFOFHydroInfoBetweenThreads opt
     [Some h; None] [] [] ([1], [5])).2 !! 0%nat
  = [Some h; None] !! 0%nat.
Proof.
  intros opt h.
  apply (MPISendReceiveFOFHydroInfoBetweenThreads_keeps opt
           [Some h; None] [] [] [1] [5] 0).
  rewrite list_elem_of_singleton. discriminate.
Defined.

(** ** Linker: passes that link nothing *)

Lemma relabel_chain_links env g t len fuel : forall ss st st',
  Linker.relabel_chain env g t len fuel ss st = Some st' ->
  Linker.links st' = Linker.links st /\
  Linker.mpi_gidoffset st' = Linker.mpi_gidoffset st.
Proof.
  induction fuel as [|fuel IH]; intros ss st st' H; [done|].
  cbn [Linker.relabel_chain] in H. cbv zeta in H.
  case_decide.
  - apply IH in H. cbn in H. done.
  - by injection H as <-.
Qed.

(** One candidate either leaves the state as it is or counts a link; the
    id counter grows by one at most, and only with a link. *)
Lemma link_candidate_step env fuel i k st st' :
  Linker.link_candidate env fuel i k st = Some st' ->
  (st' = st \/ Linker.links st' = Linker.links st + 1) /\
  0 <= Linker.mpi_gidoffset st' - Linker.mpi_gidoffset st
    <= Linker.links st' - Linker.links st.
Proof.
  unfold Linker.link_candidate. cbv zeta. intros H.
  repeat case_decide; simplify_eq/=; try (split; [by left | lia]);
    try (split; [by right | lia]).
  destruct (Linker.relabel_chain _ _ _ _ _ _ _) as [st1|] eqn:Hrel;
    simplify_eq/=.
  apply relabel_chain_links in Hrel as [Hl Hg].
  split; [right; lia | lia].
Qed.

Lemma link_candidates_step env fuel i nn : forall st st',
  Linker.link_candidates env fuel i nn st = Some st' ->
  (st' = st \/ Linker.links st < Linker.links st') /\
  0 <= Linker.mpi_gidoffset st' - Linker.mpi_gidoffset st
    <= Linker.links st' - Linker.links st.
Proof.
  induction nn as [|k nn IH]; intros st st' H; simplify_eq/=.
  - split; [by left | lia].
  - destruct (Linker.link_candidate env fuel i k st) as [st1|] eqn:H1;
      simplify_eq/=.
    apply link_candidate_step in H1 as [H1 G1].
    apply IH in H as [H2 G2].
    split; [|lia].
    destruct H1 as [->|H1], H2 as [->|H2]; auto; right; lia.
Qed.

Lemma link_imports_step env fuel search todo : forall i st st',
  Linker.link_imports env fuel search todo i st = Some st' ->
  (st' = st \/ Linker.links st < Linker.links st') /\
  0 <= Linker.mpi_gidoffset st' - Linker.mpi_gidoffset st
    <= Linker.links st' - Linker.links st.
Proof.
  induction todo as [|todo IH]; intros i st st' H; simplify_eq/=.
  - split; [by left | lia].
  - destruct (Linker.link_candidates env fuel i (search i) st) as [st1|] eqn:H1;
      simplify_eq/=.
    apply link_candidates_step in H1 as [H1 G1].
    apply IH in H as [H2 G2].
    split; [|lia].
    destruct H1 as [->|H1], H2 as [->|H2]; auto; right; lia.
Qed.

(** X8. A pass of [MPILinkAcross] that returns 0 links has changed
    nothing: group ids, group lengths, owner tasks, the id counter and the
    imported records are as before the call.  (The callers repeat the pass
    until it returns 0.) *)
Theorem MPILinkAcross_no_links_unchanged env fuel search NImport st st' :
  Linker.MPILinkAcross env fuel search NImport st = Some st' ->
  Linker.links st' = 0 ->
  Linker.pfof st' = Linker.pfof st /\
  Linker.Len st' = Linker.Len st /\
  Linker.mpi_foftask st' = Linker.mpi_foftask st /\
  Linker.mpi_gidoffset st' = Linker.mpi_gidoffset st /\
  Linker.FoFDataGet st' = Linker.FoFDataGet st.
Proof.
  unfold Linker.MPILinkAcross. intros H Hzero.
  apply link_imports_step in H as [[->|Hlt] _]; [done|].
  cbn in Hlt. lia.
Qed.

Lemma MPILinkAcross_no_links_unchanged_witness :
  let env := Linker.mkLinkEnv [mkParticle 0 9 1] [0] [-1] [mkParticle 0 4 1] 10 in
  let st := Linker.mkLinkState [5] [1] [0] 0
              [Linker.mkfofdata_in 0 1 0 1 1] 3 in
  exists st',
    Linker.MPILinkAcross env 1 (fun _ => [0]) 1 st = Some st' /\
    Linker.pfof st' = Linker.pfof st /\
    Linker.Len st' = Linker.Len st /\
    Linker.mpi_foftask st' = Linker.mpi_foftask st /\
    Linker.mpi_gidoffset st' = Linker.mpi_gidoffset st /\
    Linker.FoFDataGet st' = Linker.FoFDataGet st.
Proof.
  intros env st.
  exists (Linker.mkLinkState [5] [1] [0] 0 [Linker.mkfofdata_in 0 1 0 1 1] 0).
  split; [reflexivity|].
  apply (MPILinkAcross_no_links_unchanged env 1 (fun _ => [0]) 1 st);
    reflexivity.
Defined.

(** X9. The value returned by [MPILinkAcross] is not negative, and the
    pass hands out at most one new group id per link it counts: the id
    counter never decreases and grows by no more than the value returned. *)
Theorem MPILinkAcross_new_ids_bounded env fuel search NImport st st' :
  Linker.MPILinkAcross env fuel search NImport st = Some st' ->
  0 <= Linker.mpi_gidoffset st' - Linker.mpi_gidoffset st <= Linker.links st'.
Proof.
  unfold Linker.MPILinkAcross. intros H.
  apply link_imports_step in H as [_ H]. cbn in H. lia.
Qed.

Lemma MPILinkAcross_new_ids_bounded_witness :
  let env := Linker.mkLinkEnv [mkParticle 0 9 1] [0] [-1] [mkParticle 0 4 1] 10 in
  let st := Linker.mkLinkState [0] [0] [0] 2
              [Linker.mkfofdata_in 0 1 0 1 1] 0 in
  exists st',
    Linker.MPILinkAcross env 1 (fun _ => [0]) 1 st = Some st' /\
    0 <= Linker.mpi_gidoffset st' - Linker.mpi_gidoffset st <= Linker.links st'.
Proof.
  intros env st.
  exists (Linker.mkLinkState [12] [1] [1] 3 [Linker.mkfofdata_in 0 1 0 1 1] 1).
  split; [reflexivity|].
  apply (MPILinkAcross_new_ids_bounded env 1 (fun _ => [0]) 1 st).
  reflexivity.
Defined.

(** ** Planner: the counting pass and the layout of the export buffer *)

Lemma count_particle_export ThisTask i grp len cellnodeidlist :
  forall nexport nsend_local sent_mpi_domain,
  Counting.count_particle cellnodeidlist nexport nsend_local sent_mpi_domain
  = let '(recs, nsend_local', sent') :=
      Planner.export_particle ThisTask i grp len cellnodeidlist
                              nsend_local sent_mpi_domain in
    (nexport + Z.of_nat (length recs), nsend_local', sent').
Proof.
  induction cellnodeidlist as [|c rest IH]; intros nexport ns sent.
  - cbn. f_equal. f_equal. lia.
  - cbn [Counting.count_particle Planner.export_particle].
    case_decide; [apply IH|]. rewrite IH.
    destruct (Planner.export_particle _ _ _ _ _ _ _) as [[recs ns'] s'].
    cbn [length]. do 2 f_equal. lia.
Qed.

Lemma count_loop_export opt ThisTask NProcs Part pfof Len boxes :
  forall i nexport nsend_local,
  Counting.count_loop opt ThisTask NProcs boxes nexport nsend_local
  = let '(recs, nsend_local') :=
      Planner.export_loop opt ThisTask NProcs Part pfof Len boxes i
                          nsend_local in
    (nexport + Z.of_nat (length recs), nsend_local').
Proof.
  induction boxes as [|xsearch boxes IH]; intros i nexport ns.
  - cbn. f_equal. lia.
  - cbn [Counting.count_loop Planner.export_loop]. cbv zeta.
    rewrite (count_particle_export ThisTask i
               (get 0 pfof (GetID (get (mkParticle 0 0 0) Part i)))
               (get 0 Len i)).
    destruct (Planner.export_particle _ _ _ _ _ _ _) as [[recs ns'] s'].
    rewrite (IH (i + 1)).
    destruct (Planner.export_loop _ _ _ _ _ _ _ _ _) as [more ns''].
    rewrite length_app. f_equal. lia.
Qed.

(** X10. The counting pass agrees with the building pass.  For the same
    mesh and the same search regions, [MPIGetExportNumUsingMesh] sets
    [NExport] to the number of records that
    [MPIBuildParticleExportListUsingMesh] writes to [FoFDataIn], and both
    compute the same send counts [nsend_local]. *)
Theorem MPIGetExportNumUsingMesh_matches_build (opt : Planner.Mesh)
    (ThisTask NProcs : Z) (Part : list Particle) (pfof Len : list Z)
    (boxes : list Planner.SearchBox) :
  let plan := Planner.MPIBuildParticleExportListUsingMesh
                opt ThisTask NProcs Part pfof Len boxes in
  Counting.MPIGetExportNumUsingMesh opt ThisTask NProcs boxes
  = (Z.of_nat (length plan.1), plan.2).
Proof.
  cbv zeta.
  unfold Counting.MPIGetExportNumUsingMesh,
    Planner.MPIBuildParticleExportListUsingMesh.
  rewrite (count_loop_export opt ThisTask NProcs Part pfof Len boxes 0).
  destruct (Planner.export_loop _ _ _ _ _ _ _ _ _) as [recs ns].
  cbn [fst snd]. by rewrite std_sort_perm.
Qed.

Lemma sumZ_app l1 l2 : sumZ (l1 ++ l2) = sumZ l1 + sumZ l2.
Proof.
  induction l1 as [|x l1 IH]; [done|].
  rewrite <- app_comm_cons, !sumZ_cons, IH. lia.
Qed.

(** Entry [j] of [noffset] is the sum of the entries of [nsend_local]
    before [j]. *)
Lemma noffset_from_lookup nsend_local : forall prev (j : nat),
  (j < length nsend_local)%nat ->
  Counting.noffset_from prev nsend_local !! j
  = Some (prev + sumZ (take j nsend_local)).
Proof.
  induction nsend_local as [|n ns IH]; intros prev j Hj; cbn in Hj; [lia|].
  destruct j as [|j]; cbn.
  - f_equal. unfold sumZ. cbn. lia.
  - rewrite IH by lia. f_equal. unfold sumZ. cbn. lia.
Qed.

Section export_layout.
Import Planner.
Variables (ThisTask NProcs : Z).

(** The number of records of [recs] sent to process [j]. *)
Let sent_to (j : Z) (recs : list Linker.fofdata_in) : Z :=
  Z.of_nat (length (filter (fun r => Linker.Task r = j) recs)).

Lemma export_particle_counts i grp len cellnodeidlist :
  forall nsend_local sent_mpi_domain,
  Forall (fun c => 0 <= c < NProcs) cellnodeidlist ->
  length nsend_local = Z.to_nat NProcs ->
  exists recs nsend_local' sent',
    export_particle ThisTask i grp len cellnodeidlist nsend_local
                    sent_mpi_domain = (recs, nsend_local', sent') /\
    length nsend_local' = Z.to_nat NProcs /\
    Forall (fun r => 0 <= Linker.Task r < NProcs) recs /\
    forall j, 0 <= j ->
      get 0 nsend_local' j = get 0 nsend_local j + sent_to j recs.
Proof using Type.
  induction cellnodeidlist as [|c rest IH]; intros ns sent Hall Hlen.
  - do 3 eexists. split; [done|]. split; [done|]. split; [constructor|].
    intros j _. unfold sent_to. cbn. lia.
  - apply Forall_cons in Hall as [Hc Hall]. cbn [export_particle].
    case_decide.
    + by apply IH.
    + destruct (IH (set ns c (get 0 ns c + 1))
                   (set sent c (get 0 sent c + 1)) Hall)
        as (recs & ns' & s' & -> & Hlen' & Hrange & Hcount).
      { by rewrite set_length. }
      do 3 eexists. split; [done|]. split; [done|]. split.
      * constructor; [done | done].
      * intros j Hj. rewrite (Hcount j Hj). unfold sent_to.
        rewrite filter_cons. cbn [Linker.Task].
        destruct (decide (c = j)) as [->|Hne].
        -- rewrite get_set_eq by lia. cbn [length]. lia.
        -- rewrite get_set_ne by done. lia.
Qed.

Variables (opt : Mesh) (Part : list Particle) (pfof Len : list Z).
Hypothesis HThisTask : 0 <= ThisTask < NProcs.
Hypothesis Hids : Forall (fun c => 0 <= c < NProcs) (cellnodeids opt).
Hypothesis Hnew :
  Forall (Forall (fun c => 0 <= c < NProcs)) (newcellnodeids opt).

Lemma export_loop_counts boxes : forall i nsend_local,
  length nsend_local = Z.to_nat NProcs ->
  exists recs nsend_local',
    export_loop opt ThisTask NProcs Part pfof Len boxes i nsend_local
    = (recs, nsend_local') /\
    length nsend_local' = Z.to_nat NProcs /\
    Forall (fun r => 0 <= Linker.Task r < NProcs) recs /\
    forall j, 0 <= j ->
      get 0 nsend_local' j = get 0 nsend_local j + sent_to j recs.
Proof using HThisTask Hids Hnew.
  induction boxes as [|xsearch boxes IH]; intros i ns Hlen.
  - do 2 eexists. split; [done|]. split; [done|]. split; [constructor|].
    intros j _. unfold sent_to. cbn. lia.
  - cbn [export_loop]. cbv zeta.
    destruct (export_particle_counts i
                (get 0 pfof (GetID (get (mkParticle 0 0 0) Part i)))
                (get 0 Len i)
                (MPIGetCellNodeIDListInSearchUsingMesh opt ThisTask xsearch)
                ns (replicate (Z.to_nat NProcs) 0))
      as (recs & ns1 & s1 & -> & Hlen1 & Hrange1 & Hcount1); [|done|].
    { eapply Forall_impl;
        [apply (cellnodeidlist_spec opt ThisTask NProcs HThisTask Hids Hnew)|].
      intros c [_ Hc]. done. }
    destruct (IH (i + 1) ns1 Hlen1)
      as (more & ns2 & -> & Hlen2 & Hrange2 & Hcount2).
    do 2 eexists. split; [done|]. split; [done|]. split.
    + by apply Forall_app.
    + intros j Hj. rewrite (Hcount2 j Hj), (Hcount1 j Hj). unfold sent_to.
      rewrite filter_app, length_app. lia.
Qed.
End export_layout.

Lemma filter_none {A} (P : A -> Prop) `{forall x, Decision (P x)} l :
  Forall (fun x => ~ P x) l -> filter P l = [].
Proof.
  induction 1 as [|x l Hx _ IH]; [done|]. by rewrite filter_cons_False.
Qed.

Lemma filter_all {A} (P : A -> Prop) `{forall x, Decision (P x)} l :
  Forall P l -> filter P l = l.
Proof.
  induction 1 as [|x l Hx _ IH]; [done|].
  rewrite filter_cons_True by done. by f_equal.
Qed.

(** A list sorted by a key splits at every key value. *)
Lemma sorted_split {A} (key : A -> Z) (j : Z) (l : list A) :
  Sorted (fun a b => key a <= key b) l ->
  l = filter (fun a => key a < j) l ++ filter (fun a => j <= key a) l.
Proof.
  intros Hs. apply Sorted_StronglySorted in Hs; [|intros a b c; lia].
  induction Hs as [|x l Hs IH Hall]; [done|].
  rewrite !filter_cons. destruct (decide (key x < j)) as [Hlt|Hge].
  - rewrite decide_False by lia. rewrite <- app_comm_cons. by f_equal.
  - rewrite decide_True by lia.
    rewrite filter_none, filter_all; [done| |].
    + eapply Forall_impl; [exact Hall|]. intros a Ha. cbn in Ha. lia.
    + eapply Forall_impl; [exact Hall|]. intros a Ha. cbn in Ha. lia.
Qed.

(** Counting the keys below [j + 1]: those below [j] and those equal to
    [j]. *)
Lemma length_filter_succ {A} (key : A -> Z) (j : Z) (l : list A) :
  Z.of_nat (length (filter (fun a => key a < j + 1) l))
  = Z.of_nat (length (filter (fun a => key a < j) l))
    + Z.of_nat (length (filter (fun a => key a = j) l)).
Proof.
  induction l as [|x l IH]; [done|].
  rewrite !filter_cons.
  destruct (decide (key x < j)), (decide (key x = j));
    [lia | |  |];
    [rewrite decide_True by lia | rewrite decide_True by lia
     | rewrite decide_False by lia]; cbn [length]; lia.
Qed.

(** In a list sorted by a key, the element at position [k] has a key below
    [j] exactly when [k] is below the number of such elements. *)
Lemma sorted_position {A} (key : A -> Z) (j : Z) (l : list A) (k : nat) r :
  Sorted (fun a b => key a <= key b) l ->
  l !! k = Some r ->
  Z.of_nat k < Z.of_nat (length (filter (fun a => key a < j) l))
  <-> key r < j.
Proof.
  intros Hs Hk. pose proof (sorted_split key j l Hs) as Hsplit.
  remember (filter (fun a => key a < j) l) as l1 eqn:E1.
  remember (filter (fun a => j <= key a) l) as l2 eqn:E2.
  rewrite Hsplit in Hk.
  destruct (decide (k < length l1)%nat) as [Hlt|Hge].
  - rewrite lookup_app_l in Hk by done.
    apply list_elem_of_lookup_2 in Hk. rewrite E1 in Hk.
    apply list_elem_of_filter in Hk as [Hr _]. lia.
  - rewrite lookup_app_r in Hk by lia.
    apply list_elem_of_lookup_2 in Hk. rewrite E2 in Hk.
    apply list_elem_of_filter in Hk as [Hr _]. lia.
Qed.


(** X11. The layout of the export buffer.  On a mesh whose owner tables
    only hold process ids, after [MPIBuildParticleExportListUsingMesh] has
    sorted [FoFDataIn]: the buffer holds as many records as the send counts
    add up to; [nsend_local[j]] is the number of records for process [j];
    and the records for process [j] are exactly those at the positions
    [noffset[j] <= k < noffset[j] + nsend_local[j]], the slice the exchange
    with [j] sends. *)
Theorem mesh_export_layout (opt : Planner.Mesh) (ThisTask NProcs : Z)
    (Part : list Particle) (pfof Len : list Z)
    (boxes : list Planner.SearchBox) :
  let plan := Planner.MPIBuildParticleExportListUsingMesh
                opt ThisTask NProcs Part pfof Len boxes in
  let offs := Counting.noffset plan.2 in
  0 <= ThisTask < NProcs ->
  Forall (fun c => 0 <= c < NProcs) (Planner.cellnodeids opt) ->
  Forall (Forall (fun c => 0 <= c < NProcs)) (Planner.newcellnodeids opt) ->
  Z.of_nat (length plan.1) = sumZ plan.2 /\
  (forall j, 0 <= j < NProcs ->
     get 0 plan.2 j
     = Z.of_nat (length (filter (fun r => Linker.Task r = j) plan.1))) /\
  (forall (k : nat) r j, plan.1 !! k = Some r -> 0 <= j < NProcs ->
     (Linker.Task r = j <->
      get 0 offs j <= Z.of_nat k < get 0 offs j + get 0 plan.2 j)).
Proof.
  intros plan offs HThisTask Hids Hnew. subst offs plan.
  unfold Planner.MPIBuildParticleExportListUsingMesh.
  destruct (export_loop_counts ThisTask NProcs opt Part pfof Len HThisTask
              Hids Hnew boxes 0 (replicate (Z.to_nat NProcs) 0))
    as (recs & ns & -> & Hlen & Hrange & Hcount); [apply length_replicate|].
  cbn [fst snd].
  set (l := std_sort Planner.fof_export_cmp_vec recs).
  assert (Sorted (fun a b => Linker.Task a <= Linker.Task b) l) as Hsorted.
  { apply std_sort_sorted; intros x y; unfold Planner.fof_export_cmp_vec;
      case_decide; intros; simplify_eq; lia. }
  assert (Forall (fun r => 0 <= Linker.Task r < NProcs) l) as Hrange'.
  { unfold l. by rewrite std_sort_perm. }
  assert (forall j, 0 <= j ->
            get 0 ns j
            = Z.of_nat (length (filter (fun r => Linker.Task r = j) l)))
    as Hcount'.
  { intros j Hj. rewrite (Hcount j Hj), get_replicate_0. unfold l.
    by rewrite std_sort_perm. }
  assert (forall j : nat, (j <= Z.to_nat NProcs)%nat ->
            sumZ (take j ns)
            = Z.of_nat (length (filter
                (fun r => Linker.Task r < Z.of_nat j) l))) as Hcum.
  { induction j as [|j IH]; intros Hj.
    - rewrite filter_none; [done|].
      eapply Forall_impl; [exact Hrange'|]. intros r Hr. cbn in *. lia.
    - destruct (lookup_lt_is_Some_2 ns j ltac:(lia)) as [x Hx].
      rewrite (take_S_r _ _ _ Hx), sumZ_app, IH by lia.
      replace (Z.of_nat (S j)) with (Z.of_nat j + 1) by lia.
      rewrite length_filter_succ, <- Hcount' by lia.
      unfold get. rewrite Nat2Z.id, Hx. unfold sumZ. cbn. lia. }
  assert (forall j, 0 <= j < NProcs ->
            get 0 (Counting.noffset ns) j
            = Z.of_nat (length (filter (fun r => Linker.Task r < j) l)))
    as Hoff.
  { intros j Hj. unfold get, Counting.noffset.
    rewrite noffset_from_lookup by lia. cbn [default].
    rewrite Hcum by lia. rewrite Z2Nat.id by lia. apply Z.add_0_l. }
  split; [|split].
  - rewrite <- (take_ge ns (Z.to_nat NProcs)) by lia.
    rewrite Hcum by lia. rewrite filter_all; [done|].
    eapply Forall_impl; [exact Hrange'|]. intros r Hr. cbn in *. lia.
  - intros j Hj. apply Hcount'. lia.
  - intros k r j Hk Hj.
    rewrite Hoff, Hcount' by lia. rewrite <- length_filter_succ.
    pose proof (sorted_position Linker.Task j l k r Hsorted Hk).
    pose proof (sorted_position Linker.Task (j + 1) l k r Hsorted Hk).
    lia.
Qed.

Lemma mesh_export_layout_witness :
  let opt := Planner.mkMesh 2 [0; 0; 2; 0; 1; 1; 1; 1] [] in
  let boxes := [Planner.mkSearchBox 0 1 0 1 (-1) 0;
                Planner.mkSearchBox 0 0 1 1 0 0] in
  let plan := Planner.MPIBuildParticleExportListUsingMesh
                opt 0 3 [mkParticle 0 7 0; mkParticle 1 8 0] [0; 0] [1; 1]
                boxes in
  let offs := Counting.noffset plan.2 in
  Z.of_nat (length plan.1) = sumZ plan.2 /\
  (forall j, 0 <= j < 3 ->
     get 0 plan.2 j
     = Z.of_nat (length (filter (fun r => Linker.Task r = j) plan.1))) /\
  (forall (k : nat) r j, plan.1 !! k = Some r -> 0 <= j < 3 ->
     (Linker.Task r = j <->
      get 0 offs j <= Z.of_nat k < get 0 offs j + get 0 plan.2 j)).
Proof.
  intros opt boxes.
  apply (mesh_export_layout opt 0 3 [mkParticle 0 7 0; mkParticle 1 8 0]
           [0; 0] [1; 1] boxes).
  - lia.
  - repeat constructor; lia.
  - constructor.
Defined.

(** ** Planner: comparators and cell lists *)

(** X12. For the export records the change of sorting routine changes
    nothing but the order of the records of one destination.
    [fof_export_cmp_vec a b] holds exactly when [fof_export_cmp a b] is
    negative and [fof_export_cmp] is antisymmetric; and whatever order of
    equal records the library routines choose, an arrangement [l1] of the
    records that is sorted as [std::sort] with [fof_export_cmp_vec] leaves
    it (no record precedes an earlier one) and an arrangement [l2] sorted
    as the [qsort] call with [fof_export_cmp], which the source keeps in a
    comment, leaves it (no later record compares below an earlier one)
    list the destination tasks in the same sequence. *)
Theorem fof_export_cmp_vec_agrees (l l1 l2 : list Linker.fofdata_in) :
  l1 ≡ₚ l -> l2 ≡ₚ l ->
  StronglySorted (fun a b => Planner.fof_export_cmp_vec b a = false) l1 ->
  StronglySorted (fun a b => Counting.fof_export_cmp a b <= 0) l2 ->
  (forall a b, Planner.fof_export_cmp_vec a b = true
               <-> Counting.fof_export_cmp a b < 0) /\
  (forall a b, Counting.fof_export_cmp b a = - Counting.fof_export_cmp a b) /\
  map Linker.Task l1 = map Linker.Task l2.
Proof.
  intros Hp1 Hp2 Hs1 Hs2. split; [|split].
  - intros a b. unfold Planner.fof_export_cmp_vec, Counting.fof_export_cmp.
    repeat case_decide; split; intros; try done; lia.
  - intros a b. unfold Counting.fof_export_cmp. repeat case_decide; lia.
  - apply (StronglySorted_unique Z.le).
    + eapply StronglySorted_fmap; [|exact Hs1]. intros a b.
      unfold Planner.fof_export_cmp_vec. case_decide; [done | lia].
    + eapply StronglySorted_fmap; [|exact Hs2]. intros a b.
      unfold Counting.fof_export_cmp. repeat case_decide; lia.
    + apply fmap_Permutation. by rewrite Hp1, Hp2.
Qed.

(** The theorem on three records, two of them for task 2: [l1] is what the
    insertion leaves, [l2] has the two records for task 2 in the other
    order. *)
Lemma fof_export_cmp_vec_agrees_witness :
  let rec index task := Linker.mkfofdata_in index task 0 0 0 in
  let l := [rec 7 2; rec 8 0; rec 9 2] in
  let l1 := std_sort Planner.fof_export_cmp_vec l in
  let l2 := [rec 8 0; rec 7 2; rec 9 2] in
  l1 = [rec 8 0; rec 9 2; rec 7 2] /\
  (forall a b, Planner.fof_export_cmp_vec a b = true
               <-> Counting.fof_export_cmp a b < 0) /\
  (forall a b, Counting.fof_export_cmp b a = - Counting.fof_export_cmp a b) /\
  map Linker.Task l1 = map Linker.Task l2.
Proof.
  intros rec l l1 l2. split; [reflexivity|].
  apply (fof_export_cmp_vec_agrees l l1 l2).
  - apply std_sort_perm.
  - apply Permutation_swap.
  - vm_compute. repeat constructor.
  - repeat first [apply SSorted_nil | apply SSorted_cons
                 | apply List.Forall_nil | apply List.Forall_cons];
      vm_compute; discriminate.
Defined.

Lemma flat_map_map {A B C} (f : B -> C) (g : A -> list B) l :
  map f (flat_map g l) = flat_map (fun x => map f (g x)) l.
Proof.
  induction l as [|x l IH]; [done|]. cbn. by rewrite map_app, IH.
Qed.

Lemma filter_flat_map {A B} (P : B -> Prop) `{forall x, Decision (P x)}
    (g : A -> list B) l :
  filter P (flat_map g l) = flat_map (fun x => filter P (g x)) l.
Proof.
  induction l as [|x l IH]; [done|]. cbn. by rewrite filter_app, IH.
Qed.

(** X13. The two scans of the cells a search region covers agree.  With
    [ignorelocalcells] the cell list is the full cell list without the
    cells this process owns; and on a mesh without newly associated
    processes the list of [MPIGetCellNodeIDListInSearchUsingMesh] is the
    list of the owners of those cells, in the same order. *)
Theorem MPIGetCellListInSearchUsingMesh_owners (opt : Planner.Mesh)
    (ThisTask : Z) (xsearch : Planner.SearchBox) :
  Planner.newcellnodeids opt = [] ->
  Counting.MPIGetCellListInSearchUsingMesh opt ThisTask xsearch true
  = filter (fun index => get 0 (Planner.cellnodeids opt) index <> ThisTask)
      (Counting.MPIGetCellListInSearchUsingMesh opt ThisTask xsearch false) /\
  Planner.MPIGetCellNodeIDListInSearchUsingMesh opt ThisTask xsearch
  = map (fun index => get 0 (Planner.cellnodeids opt) index)
      (Counting.MPIGetCellListInSearchUsingMesh opt ThisTask xsearch true).
Proof.
  intros Hnew.
  unfold Counting.MPIGetCellListInSearchUsingMesh,
    Planner.MPIGetCellNodeIDListInSearchUsingMesh.
  split.
  - rewrite filter_flat_map. apply flat_map_ext. intros ix.
    rewrite filter_flat_map. apply flat_map_ext. intros iy.
    rewrite filter_flat_map. apply flat_map_ext. intros iz.
    cbn [andb]. rewrite filter_cons, filter_nil.
    case_bool_decide; [by rewrite decide_False by tauto|].
    by rewrite decide_True.
  - rewrite flat_map_map. apply flat_map_ext. intros ix.
    rewrite flat_map_map. apply flat_map_ext. intros iy.
    rewrite flat_map_map. apply flat_map_ext. intros iz.
    unfold Planner.cell_owners. rewrite Hnew. cbn [andb length].
    rewrite (decide_True (P := 0%nat = 0%nat)) by done.
    rewrite app_nil_r.
    case_bool_decide; [by rewrite decide_False by tauto|].
    by rewrite decide_True.
Qed.

Lemma MPIGetCellListInSearchUsingMesh_owners_witness :
  let opt := Planner.mkMesh 2 [0; 0; 2; 0; 1; 1; 1; 1] [] in
  let xsearch := Planner.mkSearchBox 0 1 0 1 (-1) 0 in
  Counting.MPIGetCellListInSearchUsingMesh opt 0 xsearch true
  = filter (fun index => get 0 (Planner.cellnodeids opt) index <> 0)
      (Counting.MPIGetCellListInSearchUsingMesh opt 0 xsearch false) /\
  Planner.MPIGetCellNodeIDListInSearchUsingMesh opt 0 xsearch
  = map (fun index => get 0 (Planner.cellnodeids opt) index)
      (Counting.MPIGetCellListInSearchUsingMesh opt 0 xsearch true).
Proof.
  intros opt xsearch.
  apply (MPIGetCellListInSearchUsingMesh_owners opt 0 xsearch).
  reflexivity.
Defined.

(** ** Pairing of the processes *)

Lemma NoDup_zrange a b : NoDup (Planner.zrange a b).
Proof.
  unfold Planner.zrange.
  assert (Inj (=) (=) (fun k : nat => a + Z.of_nat k)) by (intros x y ?; lia).
  apply (NoDup_fmap_2 (fun k : nat => a + Z.of_nat k)), NoDup_seq.
Qed.

Lemma NoDup_flat_map_key {A B} (key : B -> A) (g : A -> list B) l :
  NoDup l ->
  (forall x y, y ∈ g x -> key y = x) ->
  (forall x, NoDup (g x)) ->
  NoDup (flat_map g l).
Proof.
  intros Hnd Hkey Hg. induction Hnd as [|x l Hx Hnd IH]; [constructor|].
  cbn [flat_map]. apply NoDup_app. split; [apply Hg|]. split; [|done].
  intros y Hy1 Hy2. apply elem_of_flat_map in Hy2 as (x' & Hx' & Hy2).
  apply Hkey in Hy1, Hy2. congruence.
Qed.

Section pairing.
Import Pairing.
Variables (NProcs : Z) (send_info : list Z).

(** Traffic between two processes, in one direction at least. *)
Let traffic (a b : Z) : Prop :=
  ~ (get 0 send_info (a * NProcs + b) = 0 /\
     get 0 send_info (b * NProcs + a) = 0).

Lemma elem_of_comm_candidates a b :
  (a, b) ∈ comm_candidates NProcs send_info
  <-> 0 <= a /\ a < b /\ b < NProcs /\ traffic a b.
Proof using Type.
  unfold comm_candidates, traffic. rewrite elem_of_flat_map. split.
  - intros (t1 & H1 & H). apply elem_of_flat_map in H as (t2 & H2 & H).
    apply elem_of_zrange in H1, H2.
    case_decide; [by apply elem_of_nil in H|].
    apply list_elem_of_singleton in H. injection H as -> ->.
    repeat split; (lia || done).
  - intros (Ha & Hab & Hb & Ht). exists a. split; [apply elem_of_zrange; lia|].
    apply elem_of_flat_map. exists b. split; [apply elem_of_zrange; lia|].
    rewrite decide_False by done. apply list_elem_of_here.
Qed.

Lemma comm_candidates_NoDup : NoDup (comm_candidates NProcs send_info).
Proof using Type.
  unfold comm_candidates.
  apply (NoDup_flat_map_key fst); [apply NoDup_zrange | |].
  - intros t1 y Hy. apply elem_of_flat_map in Hy as (t2 & _ & Hy).
    case_decide; [by apply elem_of_nil in Hy|].
    apply list_elem_of_singleton in Hy. by subst y.
  - intros t1. apply (NoDup_flat_map_key snd); [apply NoDup_zrange | |].
    + intros t2 y Hy. case_decide; [by apply elem_of_nil in Hy|].
      apply list_elem_of_singleton in Hy. by subst y.
    + intros t2. case_decide; [constructor | apply NoDup_singleton].
Qed.
End pairing.

(** X15. The pairs of [MPIGenerateCommPairs].  Whatever rearrangement the
    shuffle makes, the list holds no pair twice, and it holds [(a, b)]
    exactly when [0 <= a < b < NProcs] and one of the two processes has
    something to send to the other. *)
Theorem MPIGenerateCommPairs_pairs (shuffle : list (Z * Z) -> list (Z * Z))
    (NProcs : Z) (send_info : list Z) :
  (forall l, shuffle l ≡ₚ l) ->
  let commpair := Pairing.MPIGenerateCommPairs shuffle NProcs send_info in
  NoDup commpair /\
  forall a b, (a, b) ∈ commpair <->
    0 <= a /\ a < b /\ b < NProcs /\
    ~ (get 0 send_info (a * NProcs + b) = 0 /\
       get 0 send_info (b * NProcs + a) = 0).
Proof.
  intros Hperm commpair. subst commpair. unfold Pairing.MPIGenerateCommPairs.
  split.
  - rewrite Hperm. apply comm_candidates_NoDup.
  - intros a b. rewrite Hperm. apply elem_of_comm_candidates.
Qed.

Lemma MPIGenerateCommPairs_pairs_witness :
  let commpair :=
    Pairing.MPIGenerateCommPairs reverse 3 [0; 4; 0; 0; 0; 0; 0; 2; 0] in
  NoDup commpair /\
  forall a b, (a, b) ∈ commpair <->
    0 <= a /\ a < b /\ b < 3 /\
    ~ (get 0 [0; 4; 0; 0; 0; 0; 0; 2; 0] (a * 3 + b) = 0 /\
       get 0 [0; 4; 0; 0; 0; 0; 0; 2; 0] (b * 3 + a) = 0).
Proof.
  apply (MPIGenerateCommPairs_pairs reverse 3 [0; 4; 0; 0; 0; 0; 0; 2; 0]).
  intros l. apply reverse_Permutation.
Defined.

(** X16. The exchanges a process makes.  In the loop over the pairs,
    process [p] takes part in one exchange with every process [r] that it
    has traffic with, in either direction, and in no other; in each of them
    [MPISetSendRecvTask] names [p] itself [sendTask] and the partner
    [recvTask].  Hence [p] exchanges with [r] exactly when [r] exchanges
    with [p]. *)
Theorem comm_loop_partners (shuffle : list (Z * Z) -> list (Z * Z))
    (NProcs p : Z) (send_info : list Z) :
  (forall l, shuffle l ≡ₚ l) ->
  0 <= p < NProcs ->
  NoDup (Pairing.comm_loop shuffle NProcs p send_info) /\
  forall sendTask recvTask,
    (sendTask, recvTask) ∈ Pairing.comm_loop shuffle NProcs p send_info <->
    sendTask = p /\ 0 <= recvTask < NProcs /\ recvTask <> p /\
    ~ (get 0 send_info (p * NProcs + recvTask) = 0 /\
       get 0 send_info (recvTask * NProcs + p) = 0).
Proof.
  intros Hperm Hp. unfold Pairing.comm_loop, Pairing.MPIGenerateCommPairs.
  set (l := shuffle (Pairing.comm_candidates NProcs send_info)).
  assert (forall a b, (a, b) ∈ l <->
            0 <= a /\ a < b /\ b < NProcs /\
            ~ (get 0 send_info (a * NProcs + b) = 0 /\
               get 0 send_info (b * NProcs + a) = 0)) as Hl.
  { intros a b. unfold l. rewrite Hperm. apply elem_of_comm_candidates. }
  assert (NoDup l) as Hnd.
  { unfold l. rewrite Hperm. apply comm_candidates_NoDup. }
  split.
  - apply NoDup_fmap_2_strong; [|by apply NoDup_filter].
    intros [a b] [a' b'] Hin Hin' Heq.
    apply list_elem_of_filter in Hin as [Hf Hin].
    apply list_elem_of_filter in Hin' as [Hf' Hin'].
    apply Hl in Hin, Hin'. cbn in *.
    unfold Pairing.MPISetSendRecvTask in Heq. cbn in Heq.
    repeat case_decide; simplify_eq; try done; try lia.
  - intros s r. rewrite list_elem_of_fmap. split.
    + intros ([a b] & Heq & Hin).
      apply list_elem_of_filter in Hin as [Hf Hin]. apply Hl in Hin.
      cbn in *. unfold Pairing.MPISetSendRecvTask in Heq. cbn in Heq.
      case_decide; simplify_eq.
      * repeat split; try lia; tauto.
      * assert (p = a) as -> by lia. repeat split; try lia; tauto.
    + intros (-> & Hr & Hne & Ht).
      destruct (decide (p < r)) as [Hlt|Hge].
      * exists (p, r). split.
        -- unfold Pairing.MPISetSendRecvTask. cbn.
           by rewrite decide_False by lia.
        -- apply list_elem_of_filter. split; [cbn; lia|].
           apply Hl. repeat split; try lia; done.
      * exists (r, p). split.
        -- unfold Pairing.MPISetSendRecvTask. cbn.
           by rewrite decide_True.
        -- apply list_elem_of_filter. split; [cbn; lia|].
           apply Hl. repeat split; try lia; tauto.
Qed.

Lemma comm_loop_partners_witness :
  NoDup (Pairing.comm_loop reverse 3 1 [0; 4; 0; 0; 0; 0; 0; 2; 0]) /\
  forall sendTask recvTask,
    (sendTask, recvTask)
      ∈ Pairing.comm_loop reverse 3 1 [0; 4; 0; 0; 0; 0; 0; 2; 0] <->
    sendTask = 1 /\ 0 <= recvTask < 3 /\ recvTask <> 1 /\
    ~ (get 0 [0; 4; 0; 0; 0; 0; 0; 2; 0] (1 * 3 + recvTask) = 0 /\
       get 0 [0; 4; 0; 0; 0; 0; 0; 2; 0] (recvTask * 3 + 1) = 0).
Proof.
  apply (comm_loop_partners reverse 3 1 [0; 4; 0; 0; 0; 0; 0; 2; 0]).
  - intros l. apply reverse_Permutation.
  - lia.
Defined.

(** ** Reading tasks *)

Lemma zrange_snoc (m : nat) :
  Planner.zrange 0 (Z.of_nat (S m) - 1)
  = Planner.zrange 0 (Z.of_nat m - 1) ++ [Z.of_nat m].
Proof.
  unfold Planner.zrange.
  replace (Z.to_nat (Z.of_nat (S m) - 1 - 0 + 1)) with (S m) by lia.
  replace (Z.to_nat (Z.of_nat m - 1 - 0 + 1)) with m by lia.
  rewrite seq_S, map_app. cbn. done.
Qed.

(** The assignment loop of [MPIDistributeReadTasks] after [m] rounds. *)
Lemma distribute_loop (NProcs spacing : Z) (ireadtask readtaskID : list Z)
    (m : nat) :
  0 < spacing ->
  Z.of_nat m * spacing <= NProcs ->
  length ireadtask = Z.to_nat NProcs ->
  (m <= length readtaskID)%nat ->
  exists irt rid,
    foldl (fun '(ireadtask, readtaskID) i =>
             (set ireadtask (i * spacing) i, set readtaskID i (i * spacing)))
          (update_range (fun _ => -1) ireadtask 0 NProcs, readtaskID)
          (Planner.zrange 0 (Z.of_nat m - 1)) = (irt, rid) /\
    length irt = Z.to_nat NProcs /\
    length rid = length readtaskID /\
    (forall i, 0 <= i < Z.of_nat m -> get 0 rid i = i * spacing) /\
    (forall t, 0 <= t < NProcs ->
       get 0 irt t = if decide (t mod spacing = 0 /\ t / spacing < Z.of_nat m)
                     then t / spacing else -1).
Proof.
  intros Hsp. induction m as [|m IH]; intros Hm Hlen Hrid.
  - do 2 eexists. split; [done|]. rewrite update_range_length.
    split; [done|]. split; [done|]. split; [intros i Hi; lia|].
    intros t Ht. rewrite decide_False.
    + unfold get. rewrite update_range_lookup.
      destruct (lookup_lt_is_Some_2 ireadtask (Z.to_nat t) ltac:(lia))
        as [x ->].
      cbn. by rewrite decide_True by lia.
    + intros [_ H]. pose proof (Z.div_pos t spacing). lia.
  - destruct IH as (irt & rid & Hfold & Hlirt & Hlrid & Hrids & Hirt);
      [nia | done | lia |].
    rewrite zrange_snoc, foldl_app, Hfold. cbn [foldl].
    do 2 eexists. split; [done|]. rewrite !set_length.
    split; [done|]. split; [done|]. split.
    + intros i Hi. destruct (decide (i = Z.of_nat m)) as [->|Hne].
      * apply get_set_eq. lia.
      * rewrite get_set_ne by lia. apply Hrids. lia.
    + intros t Ht.
      destruct (decide (t = Z.of_nat m * spacing)) as [->|Hne].
      * rewrite get_set_eq by nia.
        rewrite Z.mod_mul, Z.div_mul by lia.
        by rewrite decide_True by lia.
      * rewrite get_set_ne by lia. rewrite Hirt by done.
        pose proof (Z.div_mod t spacing ltac:(lia)).
        repeat case_decide; try done; exfalso; nia.
Qed.

(** What [MPIDistributeReadTasks] leaves in [opt.nsnapread], [ireadtask]
    and [readtaskID]. *)
Lemma MPIDistributeReadTasks_spec (NProcs nsnapread num_files : Z)
    (ireadtask readtaskID : list Z) :
  0 < NProcs < 16777216 -> 0 < nsnapread -> 0 < num_files ->
  length ireadtask = Z.to_nat NProcs ->
  (Z.to_nat nsnapread <= length readtaskID)%nat ->
  exists ns irt rid,
    Reader.MPIDistributeReadTasks NProcs nsnapread num_files
      ireadtask readtaskID = (ns, irt, rid) /\
    0 < ns /\ ns <= NProcs /\ ns <= num_files /\ ns <= nsnapread /\
    (forall i, 0 <= i < ns ->
       0 <= get 0 rid i < NProcs /\ get 0 irt (get 0 rid i) = i) /\
    (forall t, 0 <= t < NProcs ->
       get 0 irt t = -1 \/
       (0 <= get 0 irt t < ns /\ get 0 rid (get 0 irt t) = t)).
Proof.
  intros HP Hn Hf Hlen Hrid. unfold Reader.MPIDistributeReadTasks.
  set (ns1 := if decide (nsnapread > NProcs) then NProcs else nsnapread).
  set (ns := if decide (num_files < ns1) then num_files else ns1).
  assert (0 < ns /\ ns <= NProcs /\ ns <= num_files /\ ns <= nsnapread)
    as Hns.
  { unfold ns, ns1. repeat case_decide; lia. }
  cbv zeta.
  assert (NProcs `quot` ns = NProcs / ns) as Hq
    by (apply Z.quot_div_nonneg; lia).
  assert (1 <= NProcs / ns) as Hd.
  { apply Z.div_le_lower_bound; lia. }
  assert (NProcs / ns * ns <= NProcs) as Hmul.
  { pose proof (Z.mul_div_le NProcs ns ltac:(lia)). lia. }
  assert (Z.max 1 (to_int (NProcs `quot` ns)) = NProcs / ns) as ->.
  { rewrite Hq, to_int_id; [lia|]. unfold INT_MAX in *. nia. }
  set (sp := NProcs / ns) in *.
  destruct (distribute_loop NProcs sp ireadtask readtaskID (Z.to_nat ns))
    as (irt & rid & Hfold & Hlirt & Hlrid & Hrids & Hirt);
    [lia | lia | done | lia |].
  rewrite Z2Nat.id in Hfold, Hrids, Hirt by lia. rewrite Hfold.
  exists ns, irt, rid. split; [done|].
  split; [lia|]. split; [lia|]. split; [lia|]. split; [lia|]. split.
  - intros i Hi. rewrite Hrids by done.
    assert (0 <= i * sp < NProcs) as Hrange by nia.
    split; [done|]. rewrite Hirt by done.
    rewrite Z.mod_mul, Z.div_mul by lia.
    by rewrite decide_True by lia.
  - intros t Ht. rewrite Hirt by done. case_decide as Hc; [|by left].
    right. destruct Hc as [Hmod Hlt].
    pose proof (Z.div_pos t sp ltac:(lia) ltac:(lia)).
    split; [lia|]. rewrite Hrids by lia.
    pose proof (Z.div_mod t sp ltac:(lia)). lia.
Qed.

(** X17. [ireadtask] and [readtaskID] are inverse to each other.  For at
    least one process, one requested reader and one file (fewer than
    [2^24] processes, where the [float] quotient is exact), after
    [MPIDistributeReadTasks] the number of readers is at least 1 and at most the number of processes, of files and of readers asked
    for; reader [i] is a process of the job and that process has reader
    number [i]; and every process either is no reader ([-1]) or is the
    process of its reader number. *)
Theorem MPIDistributeReadTasks_inverse (NProcs nsnapread num_files : Z)
    (ireadtask readtaskID : list Z) :
  0 < NProcs < 16777216 -> 0 < nsnapread -> 0 < num_files ->
  length ireadtask = Z.to_nat NProcs ->
  (Z.to_nat nsnapread <= length readtaskID)%nat ->
  exists ns irt rid,
    Reader.MPIDistributeReadTasks NProcs nsnapread num_files
      ireadtask readtaskID = (ns, irt, rid) /\
    0 < ns /\ ns <= NProcs /\ ns <= num_files /\ ns <= nsnapread /\
    (forall i, 0 <= i < ns ->
       0 <= get 0 rid i < NProcs /\ get 0 irt (get 0 rid i) = i) /\
    (forall t, 0 <= t < NProcs ->
       get 0 irt t = -1 \/
       (0 <= get 0 irt t < ns /\ get 0 rid (get 0 irt t) = t)).
Proof. apply MPIDistributeReadTasks_spec. Qed.

Lemma MPIDistributeReadTasks_inverse_witness :
  exists ns irt rid,
    Reader.MPIDistributeReadTasks 7 3 5 [9; 9; 9; 9; 9; 9; 9] [9; 9; 9]
    = (ns, irt, rid) /\
    0 < ns /\ ns <= 7 /\ ns <= 5 /\ ns <= 3 /\
    (forall i, 0 <= i < ns ->
       0 <= get 0 rid i < 7 /\ get 0 irt (get 0 rid i) = i) /\
    (forall t, 0 <= t < 7 ->
       get 0 irt t = -1 \/
       (0 <= get 0 irt t < ns /\ get 0 rid (get 0 irt t) = t)).
Proof.
  apply (MPIDistributeReadTasks_inverse 7 3 5
           [9; 9; 9; 9; 9; 9; 9] [9; 9; 9]).
  - lia.
  - lia.
  - lia.
  - reflexivity.
  - cbn. lia.
Defined.

(** The files a reader flags: those from [r * nread] up to the start of the
    next reader, up to the last file for the last reader. *)
Lemma MPISetFilesRead_flags (ThisTask ns num_files : Z)
    (ireadfile ireadtask : list Z) (f : Z) :
  0 < ns <= num_files -> num_files <= INT_MAX ->
  length ireadfile = Z.to_nat num_files ->
  0 <= f < num_files ->
  let r := get 0 ireadtask ThisTask in
  let nread := num_files / ns in
  get 0 (Reader.MPISetFilesRead ThisTask ns num_files ireadfile ireadtask).2 f
  = if decide (r * nread <= f <
               if decide (r = ns - 1) then num_files else (r + 1) * nread)
    then 1 else 0.
Proof.
  intros Hns Hmax Hlen Hf r nread. unfold Reader.MPISetFilesRead.
  cbv zeta. cbn [snd].
  assert (to_int (num_files `quot` ns) = nread) as ->.
  { rewrite Z.quot_div_nonneg by lia. apply to_int_id.
    pose proof (Z.div_pos num_files ns ltac:(lia) ltac:(lia)).
    pose proof (Z.mul_div_le num_files ns ltac:(lia)).
    unfold nread, INT_MAX in *. nia. }
  fold r. unfold get at 1. rewrite !update_range_lookup.
  destruct (lookup_lt_is_Some_2 ireadfile (Z.to_nat f) ltac:(lia)) as [x ->].
  cbn. rewrite Z2Nat.id by lia.
  rewrite (decide_True (P := 0 <= f < num_files)) by done.
  repeat case_decide; done.
Qed.

(** X18. Every input file is read by exactly one process.  After
    [MPIDistributeReadTasks] (at least one process, one requested reader
    and one file; fewer than [2^24] processes and files, where the [float]
    quotients are exact), among the processes that are readers, the only
    ones that call [MPISetFilesRead], each file [f] is flagged in
    [ireadfile] by one process and by no other. *)
Theorem MPISetFilesRead_partition (NProcs nsnapread num_files : Z)
    (ireadtask readtaskID ireadfile : list Z) :
  0 < NProcs < 16777216 -> 0 < nsnapread -> 0 < num_files < 16777216 ->
  length ireadtask = Z.to_nat NProcs ->
  (Z.to_nat nsnapread <= length readtaskID)%nat ->
  length ireadfile = Z.to_nat num_files ->
  exists ns irt rid,
    Reader.MPIDistributeReadTasks NProcs nsnapread num_files
      ireadtask readtaskID = (ns, irt, rid) /\
    forall f, 0 <= f < num_files ->
      exists t,
        (0 <= t < NProcs /\ 0 <= get 0 irt t /\
         get 0 (Reader.MPISetFilesRead t ns num_files ireadfile irt).2 f = 1)
        /\
        forall t', 0 <= t' < NProcs -> 0 <= get 0 irt t' ->
          get 0 (Reader.MPISetFilesRead t' ns num_files ireadfile irt).2 f = 1
          -> t' = t.
Proof.
  intros HP Hn Hf Hlen Hrid Hlfile.
  destruct (MPIDistributeReadTasks_spec NProcs nsnapread num_files
              ireadtask readtaskID HP Hn ltac:(lia) Hlen Hrid)
    as (ns & irt & rid & Heq & Hns0 & HnsP & Hnsf & Hnsn & Hfwd & Hback).
  exists ns, irt, rid. split; [done|]. intros f Hfile.
  set (nread := num_files / ns).
  assert (1 <= nread) as Hnread.
  { apply Z.div_le_lower_bound; lia. }
  assert (forall t, get 0 (Reader.MPISetFilesRead t ns num_files ireadfile irt).2 f
            = if decide (get 0 irt t * nread <= f <
                         if decide (get 0 irt t = ns - 1) then num_files
                         else (get 0 irt t + 1) * nread)
              then 1 else 0) as Hflag.
  { intros t. apply MPISetFilesRead_flags; (done || unfold INT_MAX; lia). }
  set (r := Z.min (f / nread) (ns - 1)).
  pose proof (Z.div_mod f nread ltac:(lia)) as Hdm.
  pose proof (Z.mod_pos_bound f nread ltac:(lia)) as Hmod.
  pose proof (Z.div_pos f nread ltac:(lia) ltac:(lia)) as Hdiv.
  assert (0 <= r < ns) as Hr by (unfold r; lia).
  destruct (Hfwd r Hr) as [Ht Hirt].
  exists (get 0 rid r). split.
  - split; [done|]. split; [lia|]. rewrite Hflag, Hirt.
    rewrite decide_True; [done|]. unfold r.
    destruct (decide (f / nread < ns - 1)) as [Hlt|Hge].
    + rewrite Z.min_l by lia. rewrite decide_False by lia. nia.
    + rewrite Z.min_r by lia. rewrite decide_True by lia. nia.
  - intros t' Ht' Hreader Hflagged. rewrite Hflag in Hflagged.
    case_decide as Hin; [|done].
    destruct (Hback t' Ht') as [Hnone|[Hr' Hinv]]; [lia|].
    rewrite <- Hinv. f_equal.
    set (r' := get 0 irt t') in *. unfold r.
    destruct (decide (r' = ns - 1)) as [Hlast|Hnot].
    + assert (ns - 1 <= f / nread) by (apply Z.div_le_lower_bound; nia).
      lia.
    + assert (f / nread = r') as ->; [|lia].
      symmetry. apply (Z.div_unique f nread r' (f - r' * nread)); lia.
Qed.

Lemma MPISetFilesRead_partition_witness :
  exists ns irt rid,
    Reader.MPIDistributeReadTasks 7 3 5 [9; 9; 9; 9; 9; 9; 9] [9; 9; 9]
    = (ns, irt, rid) /\
    forall f, 0 <= f < 5 ->
      exists t,
        (0 <= t < 7 /\ 0 <= get 0 irt t /\
         get 0 (Reader.MPISetFilesRead t ns 5 [9; 9; 9; 9; 9] irt).2 f = 1)
        /\
        forall t', 0 <= t' < 7 -> 0 <= get 0 irt t' ->
          get 0 (Reader.MPISetFilesRead t' ns 5 [9; 9; 9; 9; 9] irt).2 f = 1
          -> t' = t.
Proof.
  apply (MPISetFilesRead_partition 7 3 5
           [9; 9; 9; 9; 9; 9; 9] [9; 9; 9] [9; 9; 9; 9; 9]).
  - lia.
  - lia.
  - lia.
  - reflexivity.
  - cbn. lia.
  - reflexivity.
Defined.

(** ** Global group ids *)

(** The offset loop of [MPIAdjustGroupIDs] adds up the group counts of the
    processes before this one. *)
Lemma noffset_loop (mpi_ngroups : list Z) (m : nat) :
  (m <= length mpi_ngroups)%nat ->
  foldl (fun noffset j => noffset + get 0 mpi_ngroups j) 0
        (Planner.zrange 0 (Z.of_nat m - 1))
  = sumZ (take m mpi_ngroups).
Proof.
  induction m as [|m IH]; intros Hm; [done|].
  rewrite zrange_snoc, foldl_app, IH by lia. cbn [foldl].
  destruct (lookup_lt_is_Some_2 mpi_ngroups m ltac:(lia)) as [x Hx].
  rewrite (take_S_r _ _ _ Hx), sumZ_app. unfold get.
  rewrite Nat2Z.id, Hx. unfold sumZ. cbn. lia.
Qed.

Lemma sumZ_take_le (l : list Z) (m m' : nat) :
  Forall (fun x => 0 <= x) l -> (m <= m')%nat ->
  sumZ (take m l) <= sumZ (take m' l).
Proof.
  intros Hpos Hle.
  rewrite <- (take_drop m (take m' l)), sumZ_app, take_take.
  replace (m `min` m')%nat with m by lia.
  pose proof (sumZ_nonneg (drop m (take m' l))
                (Forall_drop _ _ _ (Forall_take _ _ _ Hpos))).
  lia.
Qed.

Lemma MPIAdjustGroupIDs_lookup (ThisTask : Z) (mpi_ngroups : list Z)
    (nbodies : Z) (pfof : list Z) (i : Z) :
  0 <= ThisTask <= Z.of_nat (length mpi_ngroups) ->
  0 <= i < nbodies -> nbodies <= Z.of_nat (length pfof) ->
  get 0 (GroupIDs.MPIAdjustGroupIDs ThisTask mpi_ngroups nbodies pfof) i
  = if decide (get 0 pfof i > 0)
    then get 0 pfof i + sumZ (take (Z.to_nat ThisTask) mpi_ngroups)
    else get 0 pfof i.
Proof.
  intros HT Hi Hn. unfold GroupIDs.MPIAdjustGroupIDs. cbv zeta.
  pose proof (noffset_loop mpi_ngroups (Z.to_nat ThisTask) ltac:(lia)) as Hoff.
  rewrite Z2Nat.id in Hoff by lia. rewrite Hoff.
  unfold get. rewrite update_range_lookup.
  destruct (lookup_lt_is_Some_2 pfof (Z.to_nat i) ltac:(lia)) as [g ->].
  cbn. rewrite decide_True by lia. done.
Qed.

(** X19. The adjusted group ids are unique over the job.  With group
    counts that are not negative, a particle in local group [g] of process
    [a] ([0 < g <= mpi_ngroups[a]]) gets the id [g] plus the number of groups
    of the processes before [a]; for [a < b] every adjusted id of [a] is
    below every adjusted id of [b], and no id is above the total number of
    groups. *)
Theorem MPIAdjustGroupIDs_unique (mpi_ngroups : list Z) (a b : Z)
    (na nb : Z) (pfa pfb : list Z) (i j : Z) :
  Forall (fun n => 0 <= n) mpi_ngroups ->
  0 <= a -> a < b -> b < Z.of_nat (length mpi_ngroups) ->
  0 <= i < na -> na <= Z.of_nat (length pfa) ->
  0 <= j < nb -> nb <= Z.of_nat (length pfb) ->
  0 < get 0 pfa i <= get 0 mpi_ngroups a ->
  0 < get 0 pfb j <= get 0 mpi_ngroups b ->
  let ida := get 0 (GroupIDs.MPIAdjustGroupIDs a mpi_ngroups na pfa) i in
  let idb := get 0 (GroupIDs.MPIAdjustGroupIDs b mpi_ngroups nb pfb) j in
  ida = get 0 pfa i + sumZ (take (Z.to_nat a) mpi_ngroups) /\
  0 < ida /\ ida < idb /\ idb <= sumZ mpi_ngroups.
Proof.
  intros Hpos Ha Hab Hb Hi Hna Hj Hnb Hga Hgb ida idb. subst ida idb.
  rewrite !MPIAdjustGroupIDs_lookup by lia.
  rewrite !decide_True by lia.
  assert (forall m : nat, (m < length mpi_ngroups)%nat ->
            sumZ (take (S m) mpi_ngroups)
            = sumZ (take m mpi_ngroups) + get 0 mpi_ngroups (Z.of_nat m))
    as Hstep.
  { intros m Hm.
    destruct (lookup_lt_is_Some_2 mpi_ngroups m Hm) as [x Hx].
    rewrite (take_S_r _ _ _ Hx), sumZ_app. unfold get.
    rewrite Nat2Z.id, Hx. unfold sumZ. cbn. lia. }
  pose proof (Hstep (Z.to_nat a) ltac:(lia)) as Hsa.
  pose proof (Hstep (Z.to_nat b) ltac:(lia)) as Hsb.
  rewrite Z2Nat.id in Hsa, Hsb by lia.
  pose proof (sumZ_take_le mpi_ngroups 0 (Z.to_nat a) Hpos ltac:(lia)) as H0.
  pose proof (sumZ_take_le mpi_ngroups (S (Z.to_nat a)) (Z.to_nat b) Hpos
                ltac:(lia)) as H1.
  pose proof (sumZ_take_le mpi_ngroups (S (Z.to_nat b))
                (length mpi_ngroups) Hpos ltac:(lia)) as H2.
  rewrite firstn_all in H2. rewrite take_0 in H0. unfold sumZ at 1 in H0.
  cbn in H0. lia.
Qed.

Lemma MPIAdjustGroupIDs_unique_witness :
  let ida := get 0 (GroupIDs.MPIAdjustGroupIDs 0 [2; 0; 3] 3 [1; 0; 2]) 2 in
  let idb := get 0 (GroupIDs.MPIAdjustGroupIDs 2 [2; 0; 3] 2 [3; 1]) 1 in
  ida = get 0 [1; 0; 2] 2 + sumZ (take (Z.to_nat 0) [2; 0; 3]) /\
  0 < ida /\ ida < idb /\ idb <= sumZ [2; 0; 3].
Proof.
  apply (MPIAdjustGroupIDs_unique [2; 0; 3] 0 2 3 2 [1; 0; 2] [3; 1] 2 1);
    try lia; try (cbn; lia);
    try (vm_compute; split; [reflexivity | discriminate]).
  repeat constructor; lia.
Defined.

(** The copy loop of [MPICollectFOF] after [m] rounds, for index lists
    without repetition. *)
Lemma collect_loop (mpi_pfof mpi_indexlist pfof : list Z) (m : nat) :
  (m <= length mpi_indexlist)%nat ->
  NoDup mpi_indexlist ->
  Forall (fun k => 0 <= k < Z.of_nat (length mpi_pfof)) mpi_indexlist ->
  let res := foldl (fun mpi_pfof i =>
                      set mpi_pfof (get 0 mpi_indexlist i) (get 0 pfof i))
                   mpi_pfof (Planner.zrange 0 (Z.of_nat m - 1)) in
  length res = length mpi_pfof /\
  (forall i : nat, (i < m)%nat ->
     get 0 res (get 0 mpi_indexlist (Z.of_nat i)) = get 0 pfof (Z.of_nat i)) /\
  (forall k, 0 <= k -> k ∉ take m mpi_indexlist ->
     get 0 res k = get 0 mpi_pfof k).
Proof.
  intros Hm Hnd Hrange. cbv zeta. induction m as [|m IH].
  - split; [done|]. split; [intros i Hi; lia | done].
  - destruct IH as (Hlen & Hwritten & Hother); [lia|].
    rewrite zrange_snoc, foldl_app. cbn [foldl].
    set (res := foldl _ mpi_pfof (Planner.zrange 0 (Z.of_nat m - 1))) in *.
    destruct (lookup_lt_is_Some_2 mpi_indexlist m ltac:(lia)) as [x Hx].
    assert (get 0 mpi_indexlist (Z.of_nat m) = x) as Hgx
      by (unfold get; by rewrite Nat2Z.id, Hx).
    assert (0 <= x < Z.of_nat (length mpi_pfof)) as Hxr
      by (by eapply (Forall_lookup_1 _ _ _ _ Hrange Hx)).
    rewrite Hgx. split; [by rewrite set_length|]. split.
    + intros i Hi. destruct (decide (i = m)) as [->|Hne].
      * rewrite Hgx. apply get_set_eq. lia.
      * destruct (lookup_lt_is_Some_2 mpi_indexlist i ltac:(lia)) as [y Hy].
        assert (get 0 mpi_indexlist (Z.of_nat i) = y) as Hgy
          by (unfold get; by rewrite Nat2Z.id, Hy).
        assert (0 <= y < Z.of_nat (length mpi_pfof)) as Hyr
          by (by eapply (Forall_lookup_1 _ _ _ _ Hrange Hy)).
        assert (x <> y) as Hxy.
        { intros ->. apply Hne. by eapply NoDup_lookup. }
        rewrite Hgy, get_set_ne by lia. rewrite <- Hgy. apply Hwritten. lia.
    + intros k Hk Hnotin. rewrite (take_S_r _ _ _ Hx) in Hnotin.
      rewrite not_elem_of_app, list_elem_of_singleton in Hnotin.
      destruct Hnotin as [Hnotin Hkx].
      rewrite get_set_ne by (lia || congruence). by apply Hother.
Qed.

Lemma collect_from_spec (mpi_ngroups : list Z)
    (tasks : list (list Z * list Z)) : forall (j : Z) (mpi_pfof : list Z),
  Forall (fun t => length t.2 = length t.1) tasks ->
  NoDup (concat (map snd tasks)) ->
  Forall (fun k => 0 <= k < Z.of_nat (length mpi_pfof))
         (concat (map snd tasks)) ->
  let res := GroupIDs.collect_from mpi_ngroups j tasks mpi_pfof in
  length res = length mpi_pfof /\
  (forall k, 0 <= k -> k ∉ concat (map snd tasks) ->
     get 0 res k = get 0 mpi_pfof k) /\
  (forall (q i : nat) pfof mpi_indexlist,
     tasks !! q = Some (pfof, mpi_indexlist) -> (i < length pfof)%nat ->
     get 0 res (get 0 mpi_indexlist (Z.of_nat i))
     = get 0 (GroupIDs.MPIAdjustGroupIDs (j + Z.of_nat q) mpi_ngroups
                (Z.of_nat (length pfof)) pfof) (Z.of_nat i)).
Proof.
  induction tasks as [|[pfof idx] tasks IH]; intros j mpi_pfof Hlens Hnd Hrange.
  - cbn. split; [done|]. split; [done|]. intros q i ? ? Hq. done.
  - apply Forall_cons in Hlens as [Hlen Hlens]. cbn in Hlen.
    cbn [map concat snd] in Hnd, Hrange.
    apply NoDup_app in Hnd as (Hnd1 & Hdisj & Hnd2).
    apply Forall_app in Hrange as [Hrange1 Hrange2].
    cbn [GroupIDs.collect_from]. cbv zeta.
    set (pfof' := GroupIDs.MPIAdjustGroupIDs j mpi_ngroups
                    (Z.of_nat (length pfof)) pfof).
    destruct (collect_loop mpi_pfof idx pfof' (length pfof))
      as (Hlen1 & Hwritten1 & Hother1); [lia | done | done |].
    fold (GroupIDs.collect mpi_pfof idx pfof' (Z.of_nat (length pfof)))
      in Hlen1, Hwritten1, Hother1.
    set (mp1 := GroupIDs.collect mpi_pfof idx pfof' (Z.of_nat (length pfof)))
      in *.
    destruct (IH (j + 1) mp1 Hlens Hnd2) as (Hlen2 & Hother2 & Hwritten2).
    { by rewrite Hlen1. }
    cbv zeta in *. split; [congruence|]. split.
    + intros k Hk Hnotin. cbn [map concat snd] in Hnotin.
      rewrite not_elem_of_app in Hnotin. destruct Hnotin as [Hn1 Hn2].
      rewrite Hother2 by done. apply Hother1; [done|].
      by rewrite <- Hlen, firstn_all.
    + intros q i pf ix Hq Hi. destruct q as [|q]; cbn in Hq.
      * injection Hq as <- <-. rewrite Z.add_0_r.
        destruct (lookup_lt_is_Some_2 idx i ltac:(lia)) as [y Hy].
        assert (get 0 idx (Z.of_nat i) = y) as Hgy
          by (unfold get; by rewrite Nat2Z.id, Hy).
        assert (y ∈ idx) as Hin by (by eapply list_elem_of_lookup_2).
        rewrite Hother2.
        -- by apply Hwritten1.
        -- rewrite Hgy. rewrite Forall_forall in Hrange1.
           apply Hrange1 in Hin. lia.
        -- rewrite Hgy. by apply Hdisj.
      * rewrite (Hwritten2 q i pf ix Hq Hi). do 2 f_equal. lia.
Qed.

(** X20. What [MPICollectFOF] gathers on rank 0.  With one index list per
    process as long as its [pfof], the index lists together naming every
    slot of [mpi_pfof] at most once and no slot outside it: the slot named
    by entry [i] of the index list of process [q] ends up holding the
    adjusted group id of particle [i] of process [q], and the slots no
    index list names keep their value. *)
Theorem MPICollectFOF_gathers (mpi_ngroups : list Z)
    (tasks : list (list Z * list Z)) (mpi_pfof : list Z) :
  Forall (fun t => length t.2 = length t.1) tasks ->
  NoDup (concat (map snd tasks)) ->
  Forall (fun k => 0 <= k < Z.of_nat (length mpi_pfof))
         (concat (map snd tasks)) ->
  let res := GroupIDs.MPICollectFOF mpi_ngroups tasks mpi_pfof in
  (forall (q i : nat) pfof mpi_indexlist,
     tasks !! q = Some (pfof, mpi_indexlist) -> (i < length pfof)%nat ->
     get 0 res (get 0 mpi_indexlist (Z.of_nat i))
     = get 0 (GroupIDs.MPIAdjustGroupIDs (Z.of_nat q) mpi_ngroups
                (Z.of_nat (length pfof)) pfof) (Z.of_nat i)) /\
  (forall k, 0 <= k -> k ∉ concat (map snd tasks) ->
     get 0 res k = get 0 mpi_pfof k).
Proof.
  intros Hlens Hnd Hrange res. subst res. unfold GroupIDs.MPICollectFOF.
  destruct (collect_from_spec mpi_ngroups tasks 0 mpi_pfof Hlens Hnd Hrange)
    as (_ & Hother & Hwritten).
  split; [|done]. intros q i pfof idx Hq Hi.
  rewrite (Hwritten q i pfof idx Hq Hi). by rewrite Z.add_0_l.
Qed.

Lemma MPICollectFOF_gathers_witness :
  let tasks := [([1; 0], [2; 0]); ([0; 1; 1], [4; 1; 3])] in
  let res := GroupIDs.MPICollectFOF [1; 1] tasks [9; 9; 9; 9; 9; 9] in
  (forall (q i : nat) pfof mpi_indexlist,
     tasks !! q = Some (pfof, mpi_indexlist) -> (i < length pfof)%nat ->
     get 0 res (get 0 mpi_indexlist (Z.of_nat i))
     = get 0 (GroupIDs.MPIAdjustGroupIDs (Z.of_nat q) [1; 1]
                (Z.of_nat (length pfof)) pfof) (Z.of_nat i)) /\
  (forall k, 0 <= k -> k ∉ concat (map snd tasks) ->
     get 0 res k = get 0 [9; 9; 9; 9; 9; 9] k).
Proof.
  intros tasks.
  apply (MPICollectFOF_gathers [1; 1] tasks [9; 9; 9; 9; 9; 9]).
  - repeat constructor.
  - cbn. apply (NoDup_fmap_1 Z.to_nat). vm_compute.
    repeat (constructor; [rewrite ?elem_of_cons; rewrite ?elem_of_nil; lia|]).
    constructor.
  - cbn. repeat constructor; lia.
Defined.

(** ** Utilities *)

Lemma rfind_spec (c : Ascii.ascii) (s : string) :
  match Utilities.rfind c s with
  | None => ~ In c (String.list_ascii_of_string s)
  | Some pos =>
      exists dir,
        s = String.append dir (String c (Utilities.substr (S pos) s)) /\
        ~ In c (String.list_ascii_of_string (Utilities.substr (S pos) s))
  end.
Proof.
  induction s as [|a s IH]; [cbn; tauto|].
  cbn [Utilities.rfind]. destruct (Utilities.rfind c s) as [pos|].
  - destruct IH as (dir & Hs & Hno). exists (String a dir).
    change (Utilities.substr (S (S pos)) (String a s))
      with (Utilities.substr (S pos) s).
    split; [|done].
    change (String a s
            = String a (String.append dir
                          (String c (Utilities.substr (S pos) s)))).
    f_equal. exact Hs.
  - case_decide as Hac.
    + subst a. exists EmptyString. cbn. done.
    + cbn. intros [?|?]; [congruence | done].
Qed.

(** X21. [vr::basename] returns what follows the last ['/'].  The result
    holds no ['/'], and the file name is either the result itself or a
    directory part, a ['/'] and the result. *)
Theorem basename_spec (filename : string) :
  ~ In Utilities.sep (String.list_ascii_of_string (Utilities.basename filename)) /\
  (filename = Utilities.basename filename \/
   exists dir,
     filename = String.append dir
                  (String Utilities.sep (Utilities.basename filename))).
Proof.
  unfold Utilities.basename. cbv zeta.
  pose proof (rfind_spec Utilities.sep filename) as H.
  destruct (Utilities.rfind Utilities.sep filename) as [pos|].
  - rewrite Nat.add_1_r. destruct H as (dir & Hs & Hno).
    split; [done|]. right. by exists dir.
  - split; [done | by left].
Qed.

(** X22. [CompareInt] returns the difference cut to an [int].  Its sign
    orders the two values when their difference fits an [int]; two values
    that differ by a multiple of [2^32] compare as equal. *)
Theorem CompareInt_sign (val1 val2 : Z) :
  (- 2147483648 <= val1 - val2 <= INT_MAX ->
     (Utilities.CompareInt val1 val2 < 0 <-> val1 < val2) /\
     (Utilities.CompareInt val1 val2 = 0 <-> val1 = val2) /\
     (0 < Utilities.CompareInt val1 val2 <-> val2 < val1)) /\
  (forall k, Utilities.CompareInt (val2 + k * 4294967296) val2 = 0).
Proof.
  unfold Utilities.CompareInt. split.
  - intros H. rewrite to_int_id by done. lia.
  - intros k. unfold to_int.
    replace (val2 + k * 4294967296 - val2 + 2147483648)
      with (2147483648 + k * 4294967296) by lia.
    rewrite Z.mod_add by lia. done.
Qed.

(** ** Decomposer: the Z-curve key *)

Section interleave.
Variables zx zy zz : Z.

(** The bit that the loops write at position [p] of the key. *)
Let source_bit (p : Z) : bool :=
  Z.testbit (nth (Z.to_nat (p mod 3)) [zx; zy; zz] 0) (p / 3).

Let step (key j : Z) : Z :=
  foldl (fun key i =>
    let bit := Z.testbit (nth (Z.to_nat i) [zx; zy; zz] 0) j in
    if bit then Z.setbit key (j * 3 + i) else Z.clearbit key (j * 3 + i))
    key [0; 1; 2].

Lemma interleave_step key j p :
  0 <= j -> 0 <= p ->
  Z.testbit (step key j) p
  = if decide (p / 3 = j) then source_bit p else Z.testbit key p.
Proof using Type.
  intros Hj Hp. unfold step, source_bit. cbn [foldl]. cbv zeta.
  change (nth (Z.to_nat 0) [zx; zy; zz] 0) with zx.
  change (nth (Z.to_nat 1) [zx; zy; zz] 0) with zy.
  change (nth (Z.to_nat 2) [zx; zy; zz] 0) with zz.
  pose proof (Z.div_mod p 3 ltac:(lia)) as Hdm.
  pose proof (Z.mod_pos_bound p 3 ltac:(lia)) as Hmod.
  assert (forall (key n m : Z) (b : bool), 0 <= n ->
            Z.testbit (if b then Z.setbit key n else Z.clearbit key n) m
            = if decide (n = m) then b else Z.testbit key m) as Hbit.
  { intros k n m b Hn. destruct b.
    - rewrite Z.setbit_eqb by done.
      case_decide; [by rewrite (proj2 (Z.eqb_eq n m))|].
      by rewrite (proj2 (Z.eqb_neq n m)).
    - rewrite Z.clearbit_eqb.
      case_decide; [by rewrite (proj2 (Z.eqb_eq n m)), andb_false_r|].
      by rewrite (proj2 (Z.eqb_neq n m)), andb_true_r. }
  rewrite !Hbit by lia.
  destruct (decide (p / 3 = j)) as [Hdiv|Hdiv].
  - subst j.
    destruct (decide (p mod 3 = 0)) as [H0|H0];
      [rewrite H0 | destruct (decide (p mod 3 = 1)) as [H1|H1];
        [rewrite H1 | assert (p mod 3 = 2) as H2 by lia; rewrite H2]];
      cbn [Z.to_nat nth]; repeat case_decide; try done; exfalso; lia.
  - repeat case_decide; try done; exfalso; lia.
Qed.

Lemma interleave_steps js : forall key p,
  Forall (fun j => 0 <= j) js -> 0 <= p ->
  Z.testbit (foldl step key js) p
  = if decide (p / 3 ∈ js) then source_bit p else Z.testbit key p.
Proof using Type.
  induction js as [|j js IH]; intros key p Hjs Hp.
  - cbn. rewrite decide_False; [done | apply not_elem_of_nil].
  - apply Forall_cons in Hjs as [Hj Hjs]. cbn [foldl].
    rewrite IH, interleave_step by done.
    destruct (decide (p / 3 ∈ js)) as [Hin|Hin].
    + rewrite decide_True; [done | by apply list_elem_of_further].
    + destruct (decide (p / 3 = j)) as [Heq|Hne].
      * rewrite decide_True; [done|]. rewrite Heq. apply list_elem_of_here.
      * rewrite decide_False; [done|]. rewrite elem_of_cons.
        intros [?|?]; done.
Qed.

(** Bit [3j + i] of the key is bit [j] of coordinate [i]. *)
Lemma interleave_testbit (j i : Z) :
  0 <= j < 16 -> 0 <= i < 3 ->
  Z.testbit (Decomposer.interleave zx zy zz) (j * 3 + i)
  = Z.testbit (nth (Z.to_nat i) [zx; zy; zz] 0) j.
Proof using Type.
  intros Hj Hi. unfold Decomposer.interleave. fold step.
  rewrite interleave_steps; [| |lia].
  - assert ((j * 3 + i) / 3 = j) as Hdiv.
    { symmetry. apply (Z.div_unique _ 3 j i); lia. }
    assert ((j * 3 + i) mod 3 = i) as Hmod.
    { symmetry. apply (Z.mod_unique _ 3 j i); lia. }
    rewrite decide_True.
    + unfold source_bit. by rewrite Hdiv, Hmod.
    + rewrite Hdiv.
      change (map Z.of_nat (seq 0 16))
        with (map Z.of_nat (seq 0 (Z.to_nat 16))).
      apply elem_of_range. lia.
  - apply Forall_forall. intros x Hx.
    change (map Z.of_nat (seq 0 16))
      with (map Z.of_nat (seq 0 (Z.to_nat 16))) in Hx.
    apply elem_of_range in Hx. lia.
Qed.
End interleave.

Lemma testbit_above_16 x n : 0 <= x < 65536 -> 16 <= n -> Z.testbit x n = false.
Proof.
  intros Hx Hn. destruct (decide (x = 0)) as [->|Hx0]; [apply Z.bits_0|].
  apply Z.bits_above_log2; [lia|].
  assert (Z.log2 x < 16); [|lia].
  apply Z.log2_lt_pow2; [lia|]. change (2 ^ 16) with 65536. lia.
Qed.

Lemma interleave_inj x y z x' y' z' :
  0 <= x < 65536 -> 0 <= y < 65536 -> 0 <= z < 65536 ->
  0 <= x' < 65536 -> 0 <= y' < 65536 -> 0 <= z' < 65536 ->
  Decomposer.interleave x y z = Decomposer.interleave x' y' z' ->
  x = x' /\ y = y' /\ z = z'.
Proof.
  intros Hx Hy Hz Hx' Hy' Hz' Heq.
  assert (forall j i, 0 <= j < 16 -> 0 <= i < 3 ->
            Z.testbit (nth (Z.to_nat i) [x; y; z] 0) j
            = Z.testbit (nth (Z.to_nat i) [x'; y'; z'] 0) j) as Hbits.
  { intros j i Hj Hi. rewrite <- !interleave_testbit by done. by rewrite Heq. }
  assert (forall a b, 0 <= a < 65536 -> 0 <= b < 65536 ->
            (forall j, 0 <= j < 16 -> Z.testbit a j = Z.testbit b j) -> a = b)
    as Hinj.
  { intros a b Ha Hb Hab. apply Z.bits_inj'. intros n Hn.
    destruct (decide (n < 16)) as [Hlt|Hge]; [apply Hab; lia|].
    rewrite !testbit_above_16 by lia. done. }
  split; [|split]; apply Hinj; try done; intros j Hj.
  - apply (Hbits j 0); lia.
  - apply (Hbits j 1); lia.
  - apply (Hbits j 2); lia.
Qed.

(** X23. The Z-curve key tells the cells apart.  On a mesh of at most
    65536 cells per dimension, two cells with the same 48-bit key are the
    same cell, so the order of the sorted curve is fixed by the keys
    alone; bit [3j + i] of the key of a cell is bit [j] of its coordinate
    [i]. *)
Theorem zcurve_key_injective (numcellsperdim : Z) (c1 c2 : Decomposer.zcurvestruct) :
  numcellsperdim <= 65536 ->
  c1 ∈ Decomposer.cells numcellsperdim ->
  c2 ∈ Decomposer.cells numcellsperdim ->
  (forall j i, 0 <= j < 16 -> 0 <= i < 3 ->
     Z.testbit (Decomposer.zcurvevalue c1) (j * 3 + i)
     = let '(ix, iy, iz) := Decomposer.coord c1 in
       Z.testbit (nth (Z.to_nat i) [ix; iy; iz] 0) j) /\
  (Decomposer.zcurvevalue c1 = Decomposer.zcurvevalue c2 -> c1 = c2).
Proof.
  intros Hn Hc1 Hc2.
  apply elem_of_cells in Hc1 as (x & y & z & Hx & Hy & Hz & ->).
  apply elem_of_cells in Hc2 as (x' & y' & z' & Hx' & Hy' & Hz' & ->).
  assert (forall a, 0 <= a < numcellsperdim -> Decomposer.bitset16 a = a)
    as Hbs.
  { intros a Ha. unfold Decomposer.bitset16.
    change 65535 with (Z.ones 16). rewrite Z.land_ones by lia.
    apply Z.mod_small. change (2 ^ 16) with 65536. lia. }
  cbn [Decomposer.zcurvevalue Decomposer.coord].
  rewrite !Hbs by done. split.
  - intros j i Hj Hi. by apply interleave_testbit.
  - intros Heq.
    apply interleave_inj in Heq as (-> & -> & ->); (done || lia).
Qed.

Lemma zcurve_key_injective_witness :
  let c1 := Decomposer.mkzcurvestruct (1, 0, 1) 5
              (Decomposer.interleave 1 0 1) in
  (forall j i, 0 <= j < 16 -> 0 <= i < 3 ->
     Z.testbit (Decomposer.zcurvevalue c1) (j * 3 + i)
     = let '(ix, iy, iz) := Decomposer.coord c1 in
       Z.testbit (nth (Z.to_nat i) [ix; iy; iz] 0) j) /\
  (Decomposer.zcurvevalue c1 = Decomposer.zcurvevalue c1 -> c1 = c1).
Proof.
  intros c1.
  apply (zcurve_key_injective 2 c1 c1).
  - lia.
  - apply elem_of_cells. exists 1, 0, 1. repeat split; lia.
  - apply elem_of_cells. exists 1, 0, 1. repeat split; lia.
Defined.

(** ** Decomposer: the re-cut along the curve *)

(** The re-cut loop hands the cells out in curve order: the first cell
    goes to the current process, every further cell to the process of the
    cell before it or to the next one. *)
Lemma recut_loop_chain (gt_optimalave : Z -> bool) (NProcs : Z)
    (cellnodenumparts : list Z) (order : list Z) :
  forall itask numparts numcellspertask mpinumparts ids,
  itask <= NProcs - 1 ->
  NoDup order ->
  Forall (fun c => 0 <= c < Z.of_nat (length ids)) order ->
  exists itask' numparts' percell mp ids',
    Decomposer.recut_loop gt_optimalave NProcs cellnodenumparts order itask
      numparts numcellspertask mpinumparts ids
    = (itask', numparts', percell, mp, ids') /\
    itask <= itask' <= NProcs - 1 /\
    length ids' = length ids /\
    (forall k : nat, Z.of_nat k ∉ order -> ids' !! k = ids !! k) /\
    Forall (fun c => itask <= get 0 ids' c <= itask') order /\
    (forall c, head order = Some c -> get 0 ids' c = itask) /\
    (forall (k : nat) c d, order !! k = Some c -> order !! S k = Some d ->
       get 0 ids' c <= get 0 ids' d <= get 0 ids' c + 1).
Proof.
  induction order as [|index order IH];
    intros itask numparts nct mp0 ids Htask Hnd Hrange.
  - do 5 eexists. split; [done|]. split; [lia|]. split; [done|].
    split; [done|]. split; [constructor|]. split; intros; done.
  - apply NoDup_cons in Hnd as [Hnotin Hnd].
    apply Forall_cons in Hrange as [Hindex Hrange].
    cbn [Decomposer.recut_loop]. cbv zeta.
    set (ids1 := set ids index itask).
    assert (length ids1 = length ids) as Hl1 by apply set_length.
    assert (exists itask1, itask <= itask1 <= itask + 1 /\
              itask1 <= NProcs - 1 /\
              exists numparts1 mp1,
                (if gt_optimalave (numparts + get 0 cellnodenumparts index)
                    && bool_decide (itask < NProcs - 1)
                 then Decomposer.recut_loop gt_optimalave NProcs
                        cellnodenumparts order (itask + 1) 0
                        (set nct itask (get 0 nct itask + 1))
                        (set mp0 itask
                           (to_int (numparts + get 0 cellnodenumparts index)))
                        ids1
                 else Decomposer.recut_loop gt_optimalave NProcs
                        cellnodenumparts order itask
                        (numparts + get 0 cellnodenumparts index)
                        (set nct itask (get 0 nct itask + 1)) mp0 ids1)
                = Decomposer.recut_loop gt_optimalave NProcs cellnodenumparts
                    order itask1 numparts1
                    (set nct itask (get 0 nct itask + 1)) mp1 ids1)
      as (itask1 & Hstep & Hin & np1 & mp1 & ->).
    { destruct (gt_optimalave _ && bool_decide _) eqn:Hcut.
      - apply andb_prop in Hcut as [_ Hlt]. apply bool_decide_eq_true in Hlt.
        exists (itask + 1). split; [lia|]. split; [lia|]. by do 2 eexists.
      - exists itask. split; [lia|]. split; [lia|]. by do 2 eexists. }
    destruct (IH itask1 np1 (set nct itask (get 0 nct itask + 1)) mp1 ids1)
      as (itask' & np' & pc & mp & ids' & -> & Htask' & Hlen & Hkeep & Hall
          & Hhead & Hchain); [done | done | by rewrite Hl1 |].
    assert (get 0 ids' index = itask) as Hidx.
    { unfold get. rewrite Hkeep by (rewrite Z2Nat.id by lia; done).
      unfold ids1. rewrite set_lookup_eq by done. done. }
    do 5 eexists. split; [done|]. split; [lia|]. split; [congruence|].
    split; [|split; [|split]].
    + intros k Hk. rewrite not_elem_of_cons in Hk. destruct Hk as [Hne Hk].
      rewrite Hkeep by done. unfold ids1. apply set_lookup_ne. done.
    + constructor; [lia|]. eapply Forall_impl; [exact Hall|].
      intros c Hc. cbn in Hc. lia.
    + intros c [= <-]. done.
    + intros k c d Hc Hd. destruct k as [|k]; cbn in Hc, Hd.
      * injection Hc as <-. rewrite Hidx.
        rewrite (Hhead d) by (destruct order; [done | cbn in *; congruence]).
        lia.
      * by apply (Hchain k).
Qed.

(** X24. The re-cut gives every process one stretch of the curve.  For a
    curve order without repetition that names cells of the mesh only,
    walking the cells in curve order after the re-cut: the first cell
    belongs to process 0, every further cell to the process of the cell
    before it or to the next process, and no cell of the curve to a process
    beyond [NProcs - 1]. *)
Theorem recut_contiguous (gt_optimalave : Z -> bool) (NProcs : Z)
    (parts order ids : list Z) :
  0 < NProcs ->
  NoDup order ->
  Forall (fun c => 0 <= c < Z.of_nat (length ids)) order ->
  let ids' := (Decomposer.recut gt_optimalave NProcs parts order ids).1 in
  Forall (fun c => 0 <= get 0 ids' c < NProcs) order /\
  (forall c, head order = Some c -> get 0 ids' c = 0) /\
  (forall (k : nat) c d, order !! k = Some c -> order !! S k = Some d ->
     get 0 ids' c <= get 0 ids' d <= get 0 ids' c + 1).
Proof.
  intros HP Hnd Hrange. unfold Decomposer.recut.
  destruct (recut_loop_chain gt_optimalave NProcs parts order 0 0
              (replicate (Z.to_nat NProcs) 0) (replicate (Z.to_nat NProcs) 0)
              ids)
    as (itask' & np' & pc & mp & ids' & -> & Htask' & _ & _ & Hall
        & Hhead & Hchain); [lia | done | done |].
  cbn [fst]. split; [|done].
  eapply Forall_impl; [exact Hall|]. intros c Hc. cbn in Hc. lia.
Qed.

Lemma recut_contiguous_witness :
  let ids' := (Decomposer.recut (fun n => bool_decide (n > 2)) 2
                 [1; 2; 1; 1] [0; 2; 1; 3] [0; 0; 0; 0]).1 in
  Forall (fun c => 0 <= get 0 ids' c < 2) [0; 2; 1; 3] /\
  (forall c, head [0; 2; 1; 3] = Some c -> get 0 ids' c = 0) /\
  (forall (k : nat) c d, [0; 2; 1; 3] !! k = Some c ->
     [0; 2; 1; 3] !! S k = Some d ->
     get 0 ids' c <= get 0 ids' d <= get 0 ids' c + 1).
Proof.
  apply (recut_contiguous (fun n => bool_decide (n > 2)) 2
           [1; 2; 1; 1] [0; 2; 1; 3] [0; 0; 0; 0]).
  - lia.
  - apply (NoDup_fmap_1 Z.to_nat). vm_compute.
    repeat (constructor; [rewrite ?elem_of_cons; rewrite ?elem_of_nil; lia|]).
    constructor.
  - repeat constructor; cbn; lia.
Defined.

Lemma sumZ_map_add {A} (f g : A -> Z) l :
  sumZ (map (fun x => f x + g x) l) = sumZ (map f l) + sumZ (map g l).
Proof.
  induction l as [|x l IH]; [done|]. cbn [map]. rewrite !sumZ_cons, IH. lia.
Qed.

Lemma sumZ_indicator (a v : Z) (n : nat) :
  sumZ (map (fun p => if decide (a = p) then v else 0)
            (map Z.of_nat (seq 0 n)))
  = if decide (0 <= a < Z.of_nat n) then v else 0.
Proof.
  induction n as [|n IH].
  - cbn. by rewrite decide_False by lia.
  - rewrite seq_S, !map_app, sumZ_app, IH. cbn [map Nat.add].
    unfold sumZ at 1. cbn [foldr].
    repeat case_decide; lia.
Qed.

(** Every particle is counted for one process: the counts of the
    processes add up to the particles of the cells. *)
Lemma assigned_particles_total (NProcs : Z) (parts ids : list Z) :
  length ids = length parts ->
  Forall (fun c => 0 <= get 0 ids c < NProcs)
         (map Z.of_nat (seq 0 (length ids))) ->
  sumZ (map (Decomposer.assigned_particles parts ids)
            (map Z.of_nat (seq 0 (Z.to_nat NProcs))))
  = sumZ parts.
Proof.
  intros Hlen Hall. rewrite <- (sumZ_get_seq parts), <- Hlen.
  unfold Decomposer.assigned_particles.
  induction (map Z.of_nat (seq 0 (length ids))) as [|c l IH].
  - cbn [map]. induction (map Z.of_nat (seq 0 (Z.to_nat NProcs))); [done|].
    cbn [map]. rewrite sumZ_cons. unfold sumZ at 1. cbn. done.
  - apply Forall_cons in Hall as [Hc Hall]. cbn [map].
    rewrite (map_ext _ (fun p =>
               (if decide (get 0 ids c = p) then get 0 parts c else 0)
               + sumZ (map (fun c0 => if decide (get 0 ids c0 = p)
                                      then get 0 parts c0 else 0) l)))
      by (intros p; apply sumZ_cons).
    rewrite sumZ_map_add, sumZ_indicator, IH by done.
    rewrite decide_True by lia. by rewrite sumZ_cons.
Qed.


(** X25. The local counts after a rebalancing.  Under the conditions of
    the re-cut (counts not negative and within [int] range, a curve order
    that lists every cell once), when the imbalance exceeds the threshold
    and the call returns, on every process: the [Nlocal] it returns is the
    number of particles in the cells the new assignment gives to this
    process, every cell belongs to a process of the job, and the new counts
    of all processes add up to the total number of particles. *)
Theorem repartition_local_counts (gt_optimalave : Z -> bool)
    (NProcs ThisTask Nlocal iBaryonSearch numcellsperdim : Z)
    (parts order ids : list Z)
    (reread : bool) (ids' parts' : list Z) (Nlocal' : Z) :
  0 < NProcs ->
  (forall n, gt_optimalave n = true -> 0 < n) ->
  length ids = length parts ->
  order ≡ₚ map Z.of_nat (seq 0 (length ids)) ->
  Forall (fun x => 0 <= x) parts ->
  sumZ parts <= INT_MAX ->
  0 <= ThisTask < NProcs ->
  Decomposer.MPIRepartitionDomainDecompositionWithMesh true gt_optimalave
    NProcs ThisTask Nlocal iBaryonSearch numcellsperdim parts order ids
  = Decomposer.Returned reread ids' parts' Nlocal' ->
  Nlocal' = Decomposer.assigned_particles parts ids' ThisTask /\
  Forall (fun c => 0 <= get 0 ids' c < NProcs) order /\
  sumZ (map (Decomposer.assigned_particles parts ids')
            (map Z.of_nat (seq 0 (Z.to_nat NProcs))))
  = sumZ parts.
Proof.
  intros HP Hgt Hlen Hperm Hpos Hmax HT.
  unfold Decomposer.MPIRepartitionDomainDecompositionWithMesh.
  pose proof (recut_counts gt_optimalave NProcs parts order ids HP Hgt Hlen
                Hperm Hpos Hmax) as Hcounts.
  cbv zeta in Hcounts.
  destruct (Decomposer.recut gt_optimalave NProcs parts order ids)
    as [ids1 mp] eqn:Hrecut.
  cbn [fst snd] in Hcounts.
  case_bool_decide as Hzero; [done|]. intros [= _ <- _ <-].
  destruct (Hcounts Hzero) as (Hlids & Hrange & Hmp).
  split; [by apply Hmp|]. split; [done|].
  apply assigned_particles_total; [congruence|].
  rewrite Hlids. apply Forall_forall. intros c Hc.
  rewrite <- Hperm in Hc. rewrite Forall_forall in Hrange. by apply Hrange.
Qed.

Lemma repartition_local_counts_witness :
  let gt := fun n => bool_decide (n > 2) in
  exists reread ids' parts' Nlocal',
    Decomposer.MPIRepartitionDomainDecompositionWithMesh true gt
      2 1 0 0 2 [1; 2; 1; 1] [0; 2; 1; 3] [0; 0; 0; 0]
    = Decomposer.Returned reread ids' parts' Nlocal' /\
    Nlocal' = Decomposer.assigned_particles [1; 2; 1; 1] ids' 1 /\
    Forall (fun c => 0 <= get 0 ids' c < 2) [0; 2; 1; 3] /\
    sumZ (map (Decomposer.assigned_particles [1; 2; 1; 1] ids')
              (map Z.of_nat (seq 0 (Z.to_nat 2))))
    = sumZ [1; 2; 1; 1].
Proof.
  intros gt. exists false, [0; 0; 0; 1], [0; 0; 0; 0], 1.
  split; [reflexivity|].
  apply (repartition_local_counts gt 2 1 0 0 2
           [1; 2; 1; 1] [0; 2; 1; 3] [0; 0; 0; 0]
           false [0; 0; 0; 1] [0; 0; 0; 0] 1).
  - lia.
  - intros n Hn. apply bool_decide_eq_true in Hn. lia.
  - reflexivity.
  - cbn. apply perm_skip, Permutation_swap.
  - repeat constructor; lia.
  - unfold INT_MAX. cbn. lia.
  - lia.
  - reflexivity.
Defined.

(** ** Planner: the overlap count *)

Lemma size_new_owner (c : Z) (rest : list Z) (seen : gset Z) :
  c ∉ seen ->
  size (list_to_set (c :: rest) ∖ seen : gset Z)
  = S (size (list_to_set rest ∖ ({[c]} ∪ seen) : gset Z)).
Proof.
  intros Hc.
  assert ((list_to_set (c :: rest) ∖ seen : gset Z)
          = {[c]} ∪ (list_to_set rest ∖ ({[c]} ∪ seen))) as ->.
  { apply set_eq. intros x. cbn [list_to_set].
    rewrite !elem_of_union, !elem_of_difference, !elem_of_union,
      !elem_of_singleton.
    destruct (decide (x = c)) as [->|Hne]; tauto. }
  rewrite size_union.
  - by rewrite size_singleton.
  - apply disjoint_singleton_l.
    rewrite elem_of_difference, elem_of_union, elem_of_singleton. tauto.
Qed.

Lemma overlap_loop_spec (NProcs : Z) (cellnodeidlist : list Z) :
  forall numoverlap sent_mpi_domain (seen : gset Z),
  Forall (fun c => 0 <= c < NProcs) cellnodeidlist ->
  length sent_mpi_domain = Z.to_nat NProcs ->
  (forall c, 0 <= c < NProcs ->
     (c ∈ seen -> get 0 sent_mpi_domain c = 1) /\
     (c ∉ seen -> get 0 sent_mpi_domain c = 0)) ->
  Counting.overlap_loop cellnodeidlist numoverlap sent_mpi_domain
  = numoverlap + Z.of_nat (size (list_to_set cellnodeidlist ∖ seen : gset Z)).
Proof.
  induction cellnodeidlist as [|c rest IH];
    intros n sent seen Hall Hlen Hflags.
  - cbn. rewrite empty_difference_L, size_empty. lia.
  - apply Forall_cons in Hall as [Hc Hall]. cbn [Counting.overlap_loop].
    destruct (Hflags c Hc) as [Hin Hout].
    destruct (decide (c ∈ seen)) as [Hseen|Hnew].
    + rewrite decide_True by auto. rewrite (IH n sent seen) by done.
      do 3 f_equal. apply set_eq. intros x. cbn [list_to_set].
      rewrite !elem_of_difference, elem_of_union, elem_of_singleton.
      split; [tauto|]. intros [? ?]. split; [|done].
      destruct (decide (x = c)) as [->|?]; tauto.
    + rewrite decide_False by (rewrite Hout by done; lia).
      rewrite (IH (n + 1) _ ({[c]} ∪ seen)); [|done| |].
      * rewrite size_new_owner by done. lia.
      * by rewrite set_length.
      * intros d Hd. rewrite elem_of_union, elem_of_singleton.
        destruct (decide (d = c)) as [->|Hne].
        -- rewrite get_set_eq by lia. rewrite Hout by done.
           split; [done | tauto].
        -- rewrite get_set_ne by lia. destruct (Hflags d Hd) as [H1 H0].
           split; [intros [?|?]; [done | auto] | intros ?; apply H0; tauto].
Qed.

(** X14. [MPISearchForOverlapUsingMesh] counts every other process once.
    On a mesh whose owner tables only hold process ids, the value returned
    is the number of distinct processes, other than this one, that own (or
    are newly associated with) a cell the search region covers; it is below
    [NProcs]. *)
Theorem MPISearchForOverlapUsingMesh_distinct (opt : Planner.Mesh)
    (ThisTask NProcs : Z) (xsearch : Planner.SearchBox) :
  0 <= ThisTask < NProcs ->
  Forall (fun c => 0 <= c < NProcs) (Planner.cellnodeids opt) ->
  Forall (Forall (fun c => 0 <= c < NProcs)) (Planner.newcellnodeids opt) ->
  let owners : gset Z :=
    list_to_set (Planner.MPIGetCellNodeIDListInSearchUsingMesh
                   opt ThisTask xsearch) in
  Counting.MPISearchForOverlapUsingMesh opt ThisTask NProcs xsearch
  = Z.of_nat (size owners) /\
  (ThisTask ∉ owners) /\
  Z.of_nat (size owners) < NProcs.
Proof.
  intros HT Hids Hnew owners.
  pose proof (cellnodeidlist_spec opt ThisTask NProcs HT Hids Hnew xsearch)
    as Hlist.
  assert (ThisTask ∉ owners) as Hself.
  { unfold owners. rewrite elem_of_list_to_set. intros Hin.
    rewrite Forall_forall in Hlist. apply Hlist in Hin. lia. }
  split; [|split; [done|]].
  - unfold Counting.MPISearchForOverlapUsingMesh. cbv zeta.
    rewrite (overlap_loop_spec NProcs _ 0 _ ∅).
    + rewrite difference_empty_L. done.
    + eapply Forall_impl; [exact Hlist|]. intros c [_ Hc]. done.
    + apply length_replicate.
    + intros c Hc. split; [|intros _; apply get_replicate_0].
      intros Hin. by apply not_elem_of_empty in Hin.
  - assert (owners ⊆ list_to_set (map Z.of_nat (seq 0 (Z.to_nat NProcs)))
                      ∖ {[ThisTask]}) as Hsub.
    { intros c Hc. apply elem_of_difference. split.
      - apply elem_of_list_to_set, elem_of_range.
        unfold owners in Hc. apply elem_of_list_to_set in Hc.
        rewrite Forall_forall in Hlist. apply Hlist in Hc. lia.
      - intros Heq. apply elem_of_singleton in Heq. congruence. }
    apply subseteq_size in Hsub.
    rewrite size_difference in Hsub.
    + rewrite size_singleton in Hsub.
      rewrite size_list_to_set in Hsub
        by (apply (NoDup_fmap_2 _), NoDup_seq).
      rewrite length_map, length_seq in Hsub. lia.
    + apply singleton_subseteq_l, elem_of_list_to_set, elem_of_range. lia.
Qed.

Lemma MPISearchForOverlapUsingMesh_distinct_witness :
  let opt := Planner.mkMesh 2 [0; 0; 2; 0; 1; 1; 1; 1] [] in
  let xsearch := Planner.mkSearchBox 0 1 0 1 (-1) 0 in
  let owners : gset Z :=
    list_to_set (Planner.MPIGetCellNodeIDListInSearchUsingMesh
                   opt 0 xsearch) in
  Counting.MPISearchForOverlapUsingMesh opt 0 3 xsearch
  = Z.of_nat (size owners) /\
  (0 ∉ owners) /\
  Z.of_nat (size owners) < 3.
Proof.
  intros opt xsearch.
  apply (MPISearchForOverlapUsingMesh_distinct opt 0 3 xsearch).
  - lia.
  - repeat constructor; lia.
  - constructor.
Defined.

(** ** Decomposer: the load per process *)

(** The accumulation loop of [MPILoadBalanceWithMesh] over the cells [l]. *)
Lemma load_loop (NProcs : Z) (parts ids : list Z) (l : list Z) :
  forall mpinumparts p,
  Forall (fun c => 0 <= get 0 ids c < NProcs) l ->
  length mpinumparts = Z.to_nat NProcs ->
  0 <= p ->
  get 0 (foldl (fun mpinumparts i =>
                  let itask := get 0 ids i in
                  set mpinumparts itask
                      (get 0 mpinumparts itask + get 0 parts i))
               mpinumparts l) p
  = get 0 mpinumparts p
    + sumZ (map (fun c => if decide (get 0 ids c = p)
                          then get 0 parts c else 0) l).
Proof.
  induction l as [|c l IH]; intros mp p Hall Hlen Hp.
  - cbn. unfold sumZ. cbn. lia.
  - apply Forall_cons in Hall as [Hc Hall]. cbn [foldl map]. cbv zeta.
    rewrite IH, sumZ_cons by (done || by rewrite set_length).
    destruct (decide (get 0 ids c = p)) as [Heq|Hne].
    + rewrite Heq, get_set_eq by lia. lia.
    + rewrite get_set_ne by lia. lia.
Qed.

Lemma load_loop_length (parts ids : list Z) (l : list Z) :
  forall mpinumparts,
  length (foldl (fun mpinumparts i =>
                   let itask := get 0 ids i in
                   set mpinumparts itask
                       (get 0 mpinumparts itask + get 0 parts i))
                mpinumparts l) = length mpinumparts.
Proof.
  induction l as [|c l IH]; intros mp; [done|].
  cbn [foldl]. cbv zeta. by rewrite IH, set_length.
Qed.

(** X26. The loads that [MPILoadBalanceWithMesh] compares.  When every
    cell belongs to a process of the job, the load accumulated for process
    [p] is the number of particles in the cells of [p], and the loads of
    all processes add up to the particles of all cells. *)
Theorem MPILoadBalanceWithMesh_loads (NProcs : Z) (parts ids : list Z) (p : Z) :
  length ids = length parts ->
  Forall (fun c => 0 <= get 0 ids c < NProcs)
         (map Z.of_nat (seq 0 (length ids))) ->
  0 <= p < NProcs ->
  get 0 (Decomposer.load_per_task NProcs parts ids) p
  = Decomposer.assigned_particles parts ids p /\
  sumZ (Decomposer.load_per_task NProcs parts ids) = sumZ parts.
Proof.
  intros Hlen Hall Hp.
  assert (forall q, 0 <= q ->
            get 0 (Decomposer.load_per_task NProcs parts ids) q
            = Decomposer.assigned_particles parts ids q) as Hload.
  { intros q Hq. unfold Decomposer.load_per_task.
    rewrite (load_loop NProcs) by (done || apply length_replicate).
    rewrite get_replicate_0. apply Z.add_0_l. }
  split; [apply Hload; lia|].
  assert (length (Decomposer.load_per_task NProcs parts ids)
          = Z.to_nat NProcs) as Hlload.
  { unfold Decomposer.load_per_task.
    by rewrite load_loop_length, length_replicate. }
  rewrite <- (sumZ_get_seq (Decomposer.load_per_task NProcs parts ids)).
  rewrite Hlload.
  rewrite <- (assigned_particles_total NProcs parts ids Hlen Hall).
  f_equal. apply map_ext_in. intros q Hq.
  apply list_elem_of_In, elem_of_range in Hq. apply Hload. lia.
Qed.

Lemma MPILoadBalanceWithMesh_loads_witness :
  get 0 (Decomposer.load_per_task 2 [1; 2; 1; 1] [0; 1; 0; 1]) 1
  = Decomposer.assigned_particles [1; 2; 1; 1] [0; 1; 0; 1] 1 /\
  sumZ (Decomposer.load_per_task 2 [1; 2; 1; 1] [0; 1; 0; 1])
  = sumZ [1; 2; 1; 1].
Proof.
  apply (MPILoadBalanceWithMesh_loads 2 [1; 2; 1; 1] [0; 1; 0; 1] 1).
  - reflexivity.
  - cbn [length seq map].
    repeat (apply List.Forall_cons;
            [vm_compute; split; [discriminate | reflexivity]|]).
    apply List.Forall_nil.
  - lia.
Defined.

(** ** Compactor: the groups [MPICompileGroups] returns *)

(** The counting loop passes over labels that equal the label at [start]
    and are not 0. *)
Lemma count_loop_skip (pfof : list Z) (start : Z) (n : nat) :
  forall todo i,
  (forall j, i <= j < i + Z.of_nat n ->
     get 0 pfof j = get 0 pfof start /\ get 0 pfof j <> 0) ->
  Compactor.count_loop (n + todo) i start pfof
  = Compactor.count_loop todo (i + Z.of_nat n) start pfof.
Proof.
  induction n as [|n IH]; intros todo i Hsame.
  - cbn. by rewrite Z.add_0_r.
  - destruct (Hsame i ltac:(lia)) as [Heq Hne].
    cbn [Nat.add Compactor.count_loop]. cbv zeta.
    destruct (decide (get 0 pfof i <> get 0 pfof start)) as [Hd|_]; [done|].
    rewrite decide_False by done. cbn [bool_decide].
    rewrite IH by (intros j Hj; apply Hsame; lia).
    f_equal. lia.
Qed.

Lemma get_app_l {A} (d : A) l1 l2 (j : Z) :
  0 <= j < Z.of_nat (length l1) -> get d (l1 ++ l2) j = get d l1 j.
Proof. intros Hj. unfold get. by rewrite lookup_app_l by lia. Qed.

Lemma get_app_r {A} (d : A) l1 l2 (j : Z) :
  Z.of_nat (length l1) <= j ->
  get d (l1 ++ l2) j = get d l2 (j - Z.of_nat (length l1)).
Proof.
  intros Hj. unfold get. rewrite lookup_app_r by lia. do 2 f_equal. lia.
Qed.

Lemma get_replicate {A} (d x : A) (n : nat) (j : Z) :
  0 <= j < Z.of_nat n -> get d (replicate n x) j = x.
Proof.
  intros Hj. unfold get. by rewrite lookup_replicate_2 by lia.
Qed.

(** The counting loop on blocks of equal labels followed by zeros: with
    the block [(g, n)] open and passed over, it closes this block and every
    later one. *)
Lemma count_loop_blocks (bs : list (Z * nat)) :
  forall (Pre : list Z) (g : Z) (n m : nat),
  (0 < n)%nat -> (0 < m)%nat ->
  Forall (fun b => b.1 <> 0 /\ (0 < b.2)%nat) ((g, n) :: bs) ->
  StronglySorted (fun b1 b2 => b1.1 <> b2.1) ((g, n) :: bs) ->
  let rest := concat (map (fun b => replicate b.2 b.1) bs) ++ replicate m 0 in
  Compactor.count_loop (length rest)
    (Z.of_nat (length Pre) + Z.of_nat n) (Z.of_nat (length Pre))
    (Pre ++ replicate n g ++ rest)
  = Z.of_nat n :: map (fun b => Z.of_nat b.2) bs.
Proof.
  induction bs as [|[g1 n1] bs IH]; intros Pre g n m Hn Hm Hall Hdiff rest.
  - subst rest. cbn [map concat app] in *.
    apply Forall_cons in Hall as [[Hg _] _]. cbn in Hg.
    destruct m as [|m]; [lia|]. cbn [length replicate Compactor.count_loop].
    cbv zeta.
    assert (get 0 (Pre ++ replicate n g ++ 0 :: replicate m 0)
              (Z.of_nat (length Pre) + Z.of_nat n) = 0) as Hi.
    { rewrite get_app_r, get_app_r by (rewrite ?length_replicate; lia).
      rewrite length_replicate. unfold get.
      replace (Z.to_nat _) with 0%nat by lia. done. }
    assert (get 0 (Pre ++ replicate n g ++ 0 :: replicate m 0)
              (Z.of_nat (length Pre)) = g) as Hs.
    { rewrite get_app_r by lia.
      rewrite get_app_l by (rewrite length_replicate; lia).
      apply get_replicate. lia. }
    rewrite Hi, Hs.
    destruct (decide (0 <> g)) as [_|Hd]; [|exfalso; apply Hd; congruence].
    rewrite decide_True by done. cbn. f_equal. lia.
  - subst rest. cbn [map concat fst snd] in *.
    apply Forall_cons in Hall as [[Hg _] Hall].
    pose proof Hall as Hall'.
    apply Forall_cons in Hall' as [[Hg1 Hn1] _]. cbn in Hg, Hg1, Hn1.
    apply StronglySorted_inv in Hdiff as [Hdiff Hhead].
    pose proof Hhead as Hhead'.
    apply Forall_cons in Hhead' as [Hgg1 _]. cbn in Hgg1.
    set (tail := concat (map (fun b => replicate b.2 b.1) bs)
                 ++ replicate m 0).
    rewrite <- (app_assoc (replicate n1 g1)). fold tail.
    set (pfof := Pre ++ replicate n g ++ replicate n1 g1 ++ tail).
    destruct n1 as [|n1]; [lia|].
    rewrite length_app, length_replicate.
    cbn [Nat.add Compactor.count_loop]. cbv zeta.
    assert (forall j, Z.of_nat (length Pre) + Z.of_nat n <= j
                      < Z.of_nat (length Pre) + Z.of_nat n + Z.of_nat (S n1) ->
              get 0 pfof j = g1) as Hblock.
    { intros j Hj. unfold pfof.
      rewrite get_app_r, get_app_r by (rewrite ?length_replicate; lia).
      rewrite length_replicate.
      rewrite get_app_l by (rewrite length_replicate; lia).
      apply get_replicate. lia. }
    assert (get 0 pfof (Z.of_nat (length Pre)) = g) as Hs.
    { unfold pfof. rewrite get_app_r by lia.
      rewrite get_app_l by (rewrite length_replicate; lia).
      apply get_replicate. lia. }
    rewrite (Hblock (Z.of_nat (length Pre) + Z.of_nat n)) by lia. rewrite Hs.
    destruct (decide (g1 <> g)) as [_|Hd]; [|exfalso; apply Hd; congruence].
    rewrite decide_False by done.
    rewrite count_loop_skip.
    + replace (Z.of_nat (length Pre) + Z.of_nat n + 1 + Z.of_nat n1)
        with (Z.of_nat (length (Pre ++ replicate n g)) + Z.of_nat (S n1))
        by (rewrite length_app, length_replicate; lia).
      replace (Z.of_nat (length Pre) + Z.of_nat n)
        with (Z.of_nat (length (Pre ++ replicate n g)))
        by (rewrite length_app, length_replicate; lia).
      unfold pfof. rewrite (app_assoc Pre).
      unfold tail.
      rewrite (IH (Pre ++ replicate n g) g1 (S n1) m) by (done || lia).
      f_equal. rewrite length_app, length_replicate. lia.
    + intros j Hj. rewrite !Hblock by lia. done.
Qed.

(** The counting loop from the start: the sizes of the blocks. *)
Lemma count_loop_sizes (bs : list (Z * nat)) (m : nat) :
  (0 < m)%nat ->
  Forall (fun b => b.1 <> 0 /\ (0 < b.2)%nat) bs ->
  StronglySorted (fun b1 b2 => b1.1 <> b2.1) bs ->
  let pfof := concat (map (fun b => replicate b.2 b.1) bs) ++ replicate m 0 in
  Compactor.count_loop (length pfof) 0 0 pfof
  = map (fun b => Z.of_nat b.2) bs.
Proof.
  intros Hm Hall Hdiff pfof. subst pfof.
  destruct bs as [|[g n] bs].
  - cbn [map concat app]. destruct m as [|m]; [lia|].
    cbn [length replicate Compactor.count_loop]. cbv zeta.
    change (get 0 (0 :: replicate m 0) 0) with 0.
    destruct (decide (0 <> 0)) as [Hd|_]; [done|].
    by rewrite decide_True.
  - pose proof Hall as Hall'.
    apply Forall_cons in Hall' as [[Hg Hn] _]. cbn in Hg, Hn.
    cbn [map concat fst snd].
    set (tail := concat (map (fun b => replicate b.2 b.1) bs)
                 ++ replicate m 0).
    rewrite <- (app_assoc (replicate n g)). fold tail.
    destruct n as [|n]; [lia|].
    rewrite length_app, length_replicate.
    cbn [Nat.add Compactor.count_loop]. cbv zeta.
    assert (forall j, 0 <= j < Z.of_nat (S n) ->
              get 0 (replicate (S n) g ++ tail) j = g) as Hblock.
    { intros j Hj. rewrite get_app_l by (rewrite length_replicate; lia).
      apply get_replicate. lia. }
    rewrite (Hblock 0) by lia.
    destruct (decide (g <> g)) as [Hd|_]; [done|].
    rewrite decide_False by done.
    rewrite count_loop_skip.
    + pose proof (count_loop_blocks bs [] g (S n) m ltac:(lia) Hm Hall Hdiff)
        as Hb.
      cbv zeta in Hb. cbn [length app] in Hb.
      change (Z.of_nat 0 + Z.of_nat (S n)) with (0 + Z.of_nat (S n)) in Hb.
      change (Z.of_nat 0) with 0 in Hb.
      replace (0 + 1 + Z.of_nat n) with (0 + Z.of_nat (S n)) by lia.
      exact Hb.
    + intros j Hj. rewrite !Hblock by lia. done.
Qed.

Lemma StronglySorted_filter {A} (R : relation A) (P : A -> Prop)
    `{forall x, Decision (P x)} (l : list A) :
  StronglySorted R l -> StronglySorted R (filter P l).
Proof.
  induction 1 as [|x l Hl IH Hx]; [constructor|].
  rewrite filter_cons. case_decide; [|done].
  constructor; [done|].
  apply Forall_forall. intros y Hy. apply list_elem_of_filter in Hy as [_ Hy].
  rewrite List.Forall_forall in Hx. by apply Hx, list_elem_of_In.
Qed.

Lemma elem_of_concat_filter {A} (P : list A -> Prop)
    `{forall x, Decision (P x)} (lls : list (list A)) (x : A) :
  x ∈ concat (filter P lls) -> x ∈ concat lls.
Proof.
  induction lls as [|l lls IH]; [done|].
  rewrite filter_cons. cbn [concat]. case_decide.
  - cbn [concat]. rewrite !elem_of_app. intros [?|?]; auto.
  - rewrite elem_of_app. auto.
Qed.

Lemma StronglySorted_concat_filter {A} (R : relation A) (P : list A -> Prop)
    `{forall x, Decision (P x)} (lls : list (list A)) :
  StronglySorted R (concat lls) -> StronglySorted R (concat (filter P lls)).
Proof.
  induction lls as [|l lls IH]; [done|].
  cbn [concat]. intros Hs. apply StronglySorted_app in Hs as (Hcross & Hl & Hs).
  rewrite filter_cons. case_decide; [|by apply IH].
  cbn [concat]. apply StronglySorted_app_2; [|done|by apply IH].
  intros x1 x2 Hx1 Hx2. apply Hcross; [done|].
  by apply elem_of_concat_filter in Hx2.
Qed.

Lemma StronglySorted_replicate_0 (n : nat) :
  StronglySorted Z.le (replicate n 0).
Proof.
  induction n as [|n IH]; [constructor|]. cbn. constructor; [done|].
  apply List.Forall_forall. intros x Hx. apply list_elem_of_In in Hx.
  apply elem_of_replicate in Hx as [-> _]. done.
Qed.

Lemma update_range_ids (l : list Particle) (a b : Z) :
  map GetID (update_range (fun p => SetID p 0) l a b)
  = update_range (fun _ => 0) (map GetID l) a b.
Proof.
  apply list_eq. intros j.
  rewrite list_lookup_fmap, !update_range_lookup, list_lookup_fmap.
  destruct (l !! j) as [p|]; [cbn|done]. by case_decide.
Qed.

Lemma update_range_zeros (K : list Z) (z : nat) (a b : Z) :
  Z.of_nat (length K) <= a ->
  update_range (fun _ => 0) (K ++ replicate z 0) a b = K ++ replicate z 0.
Proof.
  intros Ha. apply list_eq. intros j. rewrite update_range_lookup.
  destruct (decide (j < length K)%nat) as [Hj|Hj].
  - rewrite lookup_app_l by done.
    destruct (K !! j); [cbn|done]. by rewrite decide_False by lia.
  - rewrite lookup_app_r by lia.
    destruct (replicate z 0 !! (j - length K)%nat) as [x|] eqn:Hx; [cbn|done].
    apply lookup_replicate in Hx as [-> _]. by case_decide.
Qed.

Section compile_groups.
Import Compactor.
Variable minsize : Z.

Let big (r : list Particle) : Prop := minsize <= Z.of_nat (length r).

Lemma filter_runs_concat run runs :
  filter_runs minsize true run runs
  = concat (map (keep_run minsize) (run :: runs)).
Proof using Type.
  revert run. induction runs as [|next runs IH]; intros run.
  - cbn. by rewrite app_nil_r.
  - cbn [filter_runs map concat]. rewrite IH. done.
Qed.

(** The ids after the run loop: those of the runs that are kept, and a
    zero for every particle of a run that is reset. *)
Lemma keep_run_ids (rs : list (list Particle)) :
  exists k : nat,
    length (concat rs) = (length (concat (filter big rs)) + k)%nat /\
    map GetID (concat (map (keep_run minsize) rs))
    ≡ₚ map GetID (concat (filter big rs)) ++ replicate k 0.
Proof using Type.
  induction rs as [|r rs (k & Hlen & Hperm)].
  - exists 0%nat. done.
  - destruct (decide (big r)) as [Hbig|Hsmall].
    + exists k. rewrite filter_cons_True by done. cbn [map concat]. split.
      * rewrite !length_app, Hlen. lia.
      * rewrite !map_app, Hperm, <- app_assoc.
        unfold keep_run. unfold big in Hbig. by rewrite decide_False by lia.
    + exists (length r + k)%nat. rewrite filter_cons_False by done.
      cbn [map concat]. split.
      * rewrite length_app, Hlen. lia.
      * rewrite map_app, Hperm, replicate_add.
        rewrite (Permutation_app_swap_app _ (replicate (length r) 0)).
        f_equiv. unfold keep_run. unfold big in Hsmall.
        rewrite decide_True by lia. rewrite map_map. cbn [SetID GetID].
        clear. induction r as [|p r IH]; [done|]. cbn. by rewrite IH.
Qed.

Lemma maximal_runs_Forall prev rs :
  maximal_runs prev rs ->
  Forall (fun r => r <> [] /\ run_id r < 0
                   /\ Forall (fun p => GetID p = run_id r) r) rs.
Proof using Type.
  revert prev. induction rs as [|r rs IH]; intros prev; [constructor|].
  cbn [maximal_runs]. intros (Hne & Hneg & Hall & _ & Hrs).
  constructor; [done|]. by eapply IH.
Qed.

(** Sorted runs whose neighbours differ have ids that grow along the list. *)
Lemma maximal_runs_strict prev rs :
  maximal_runs prev rs ->
  StronglySorted (fun a b => GetID a <= GetID b) (concat rs) ->
  StronglySorted (fun r1 r2 => run_id r1 < run_id r2) rs.
Proof using Type.
  revert prev. induction rs as [|r rs IH]; intros prev; [constructor|].
  cbn [maximal_runs concat]. intros (Hne & Hneg & Hall & _ & Hrs) Hs.
  apply StronglySorted_app in Hs as (Hcross & _ & Hs).
  constructor; [by eapply IH|].
  pose proof (maximal_runs_Forall _ _ Hrs) as Hfacts.
  assert (forall r2, r2 ∈ rs -> run_id r <= run_id r2) as Hle.
  { intros r2 Hr2. rewrite Forall_forall in Hfacts.
    destruct (Hfacts r2 Hr2) as (Hne2 & _ & _).
    destruct r as [|p r]; [done|]. destruct r2 as [|p2 r2]; [done|].
    apply (Hcross p p2); [left|].
    apply list_elem_of_In, in_concat. exists (p2 :: r2).
    split; [by apply list_elem_of_In | left; done]. }
  destruct rs as [|next rs]; [constructor|].
  cbn [maximal_runs] in Hrs. destruct Hrs as (_ & _ & _ & Hdiff & _).
  assert (run_id r < run_id next) as Hlt.
  { pose proof (Hle next ltac:(left)). 
    assert (run_id r <> run_id next) by congruence. lia. }
  apply List.Forall_forall. intros r2 Hr2. apply list_elem_of_In in Hr2.
  apply elem_of_cons in Hr2 as [->|Hr2]; [done|].
  cbn [concat] in Hs. apply StronglySorted_app in Hs as (Hcross' & _ & _).
  rewrite Forall_forall in Hfacts.
  destruct (Hfacts next ltac:(left)) as (Hnen & _ & _).
  destruct (Hfacts r2 ltac:(by right)) as (Hne2 & _ & _).
  destruct next as [|pn next]; [done|]. destruct r2 as [|p2 r2]; [done|].
  assert (GetID pn <= GetID p2).
  { apply Hcross'; [left|].
    apply list_elem_of_In, in_concat. exists (p2 :: r2).
    split; [by apply list_elem_of_In | left; done]. }
  unfold run_id in *. cbn [hd] in *. lia.
Qed.

(** The labels of runs, as blocks. *)
Lemma runs_as_blocks (rs : list (list Particle)) :
  Forall (fun r => Forall (fun p => GetID p = run_id r) r) rs ->
  map (fun p => - GetID p) (concat rs)
  = concat (map (fun b : Z * nat => replicate b.2 b.1)
                (map (fun r => (- run_id r, length r)) rs)).
Proof using Type.
  induction 1 as [|r rs Hr _ IH]; [done|].
  cbn [concat map fst snd]. rewrite map_app, IH. f_equal.
  clear IH. generalize (run_id r) Hr. clear. intros g Hr.
  induction Hr as [|p r Hp _ IH]; [done|]. cbn. by rewrite Hp, IH.
Qed.
End compile_groups.

(** X2. What [MPICompileGroups] returns when ungrouped particles follow the
    groups.  After the first sort let the particles be maximal runs of
    grouped particles (ids below 0) followed by at least one ungrouped
    particle (id 0), with the last [NExport] particles among the ungrouped
    ones.  Then [pfof] holds, in the order of the runs, the group id of
    every particle of a run with at least [minsize] members, and 0 for
    every other particle; and [numingroup] holds the sizes of exactly those
    runs.  (The result does not depend on how the sort orders particles
    that carry the same id.) *)
Theorem MPICompileGroups_group_sizes (Part : list Particle)
    (minsize NExport : Z) (groups : list (list Particle))
    (Tail : list Particle) :
  std_sort IDCompareVec Part = concat groups ++ Tail ->
  Compactor.maximal_runs None groups ->
  Tail <> [] -> Forall (fun p => GetID p = 0) Tail ->
  0 <= NExport <= Z.of_nat (length Tail) ->
  let kept := filter (fun r => minsize <= Z.of_nat (length r)) groups in
  Compactor.MPICompileGroups Part minsize NExport
  = (map (fun p => - GetID p) (concat kept)
       ++ replicate (length Part - length (concat kept)) 0,
     map (fun r => Z.of_nat (length r)) kept).
Proof.
  intros Hsort Hruns Htail Hzeros HNE kept.
  unfold Compactor.MPICompileGroups. cbv zeta. rewrite Hsort.
  assert (exists ng,
            Compactor.run_loop minsize (length (concat groups ++ Tail)) 0 0 0
              (concat groups ++ Tail)
            = (concat (map (Compactor.keep_run minsize) groups) ++ Tail, ng))
    as [ng ->].
  { destruct groups as [|run runs].
    - destruct Tail as [|z tail]; [done|].
      apply Forall_cons in Hzeros as [Hz _].
      exists 0. cbn [concat app map length Compactor.run_loop]. cbv zeta.
      change (get (mkParticle 0 0 0) (z :: tail) 0) with z.
      destruct (decide (GetID z <> GetID z)) as [Hd|_]; [done|].
      change (get (mkParticle 0 0 0) (z :: tail) 0) with z.
      by rewrite decide_True by lia.
    - eexists. cbn [concat]. rewrite <- app_assoc.
      pose proof (run_loop_filters_runs minsize run runs Tail Hruns) as Hloop.
      cbv zeta in Hloop. rewrite Hloop.
      + rewrite bool_decide_eq_true_2 by done.
        by rewrite filter_runs_concat.
      + destruct Tail as [|z tail]; [done|].
        apply Forall_cons in Hzeros as [Hz _]. lia. }
  set (P1 := concat (map (Compactor.keep_run minsize) groups) ++ Tail).
  destruct (keep_run_ids minsize groups) as (k & Hlen & Hperm).
  fold kept in Hlen, Hperm.
  assert (length Part = (length (concat groups) + length Tail)%nat) as HlenP.
  { rewrite <- (Permutation_length (std_sort_perm IDCompareVec Part)), Hsort.
    apply length_app. }
  assert ((length Part - length (concat kept))%nat
          = (k + length Tail)%nat) as -> by lia.
  assert (map GetID Tail = replicate (length Tail) 0) as HidsTail.
  { clear -Hzeros. induction Hzeros as [|p t Hp _ IH]; [done|].
    cbn. by rewrite Hp, IH. }
  pose proof (maximal_runs_Forall None groups Hruns) as Hfacts.
  assert (StronglySorted (fun a b => GetID a <= GetID b) (concat groups))
    as Hsorted.
  { apply (StronglySorted_app_1_l _ _ Tail). rewrite <- Hsort.
    apply Sorted_StronglySorted; [intros a b c; lia|].
    apply std_sort_sorted; intros x y Hxy; unfold IDCompareVec in Hxy.
    - apply bool_decide_eq_true in Hxy. lia.
    - apply bool_decide_eq_false in Hxy. lia. }
  assert (Forall (fun r => r <> [] /\ Compactor.run_id r < 0
                           /\ Forall (fun p => GetID p = Compactor.run_id r) r) kept)
    as Hkept.
  { apply Forall_forall. intros r Hr.
    apply list_elem_of_filter in Hr as [_ Hr].
    rewrite Forall_forall in Hfacts. by apply Hfacts. }
  assert (map GetID (std_sort IDCompareVec P1)
          = map GetID (concat kept) ++ replicate (k + length Tail) 0) as Hids.
  { apply (Sorted_unique Z.le).
    - apply (Sorted_fmap _ (fun a b => GetID a <= GetID b)); [done|].
      apply std_sort_sorted; intros x y Hxy; unfold IDCompareVec in Hxy.
      + apply bool_decide_eq_true in Hxy. lia.
      + apply bool_decide_eq_false in Hxy. lia.
    - apply StronglySorted_Sorted, StronglySorted_app_2.
      + intros x1 x2 Hx1 Hx2. apply elem_of_replicate in Hx2 as [-> _].
        apply list_elem_of_fmap in Hx1 as (p & -> & Hp).
        apply list_elem_of_In, in_concat in Hp as (r & Hr & Hp).
        apply list_elem_of_In in Hr, Hp. rewrite Forall_forall in Hkept.
        destruct (Hkept r Hr) as (_ & Hneg & Hall).
        rewrite Forall_forall in Hall. rewrite (Hall p Hp). lia.
      + apply (StronglySorted_fmap _ (fun a b => GetID a <= GetID b));
          [done|].
        by apply StronglySorted_concat_filter.
      + apply StronglySorted_replicate_0.
    - rewrite std_sort_perm. unfold P1.
      rewrite map_app, Hperm, HidsTail, <- app_assoc.
      by rewrite <- replicate_add. }
  assert (map (fun p => - GetID p)
            (update_range (fun p => SetID p 0) (std_sort IDCompareVec P1)
               (Z.of_nat (length Part) - NExport) (Z.of_nat (length Part)))
          = map (fun p => - GetID p) (concat kept)
            ++ replicate (k + length Tail) 0) as ->.
  { rewrite <- (map_map GetID Z.opp), update_range_ids, Hids.
    rewrite update_range_zeros by (rewrite length_map; lia).
    rewrite map_app, map_map. f_equal.
    generalize (k + length Tail)%nat. intros n.
    induction n as [|n IH]; [done|]. cbn. by rewrite IH. }
  f_equal.
  rewrite (runs_as_blocks kept)
    by (eapply Forall_impl; [exact Hkept|]; intros r (_ & _ & Hr); done).
  rewrite count_loop_sizes.
  - by rewrite map_map.
  - destruct Tail; [done | cbn; lia].
  - apply Forall_fmap. eapply Forall_impl; [exact Hkept|].
    intros r (Hne & Hneg & _). cbn. split; [lia|].
    destruct r; [done | cbn; lia].
  - apply (StronglySorted_fmap _ (fun r1 r2 => Compactor.run_id r1 < Compactor.run_id r2)).
    + intros r1 r2 Hlt. cbn. lia.
    + apply StronglySorted_filter.
      by apply (maximal_runs_strict None).
Qed.

Lemma MPICompileGroups_group_sizes_witness :
  let Part := [mkParticle 0 0 0; mkParticle (-5) 1 0; mkParticle (-7) 2 0;
               mkParticle 0 4 0; mkParticle (-7) 3 0] in
  let groups := [[mkParticle (-7) 3 0; mkParticle (-7) 2 0];
                 [mkParticle (-5) 1 0]] in
  let kept := filter (fun r => 2 <= Z.of_nat (length r)) groups in
  Compactor.MPICompileGroups Part 2 1
  = (map (fun p => - GetID p) (concat kept)
       ++ replicate (length Part - length (concat kept)) 0,
     map (fun r => Z.of_nat (length r)) kept).
Proof.
  intros Part groups.
  apply (MPICompileGroups_group_sizes Part 2 1 groups
           [mkParticle 0 4 0; mkParticle 0 0 0]).
  - reflexivity.
  - cbn. repeat split; try discriminate; try lia; repeat constructor.
  - discriminate.
  - repeat constructor.
  - cbn. lia.
Defined.

(** ** Planner: the slices of the receive buffer *)

(** The column sums that [nbuffer] and [NImport] accumulate grow with the
    number of rows added. *)
Lemma column_sum_step (f : Z -> Z) (m : nat) :
  foldl (fun acc k => acc + f k) 0 (Planner.zrange 0 (Z.of_nat (S m) - 1))
  = foldl (fun acc k => acc + f k) 0 (Planner.zrange 0 (Z.of_nat m - 1))
    + f (Z.of_nat m).
Proof. by rewrite zrange_snoc, foldl_app. Qed.

Lemma column_sum_mono (f : Z -> Z) (m m' : nat) :
  (forall k, 0 <= f k) -> (m <= m')%nat ->
  foldl (fun acc k => acc + f k) 0 (Planner.zrange 0 (Z.of_nat m - 1))
  <= foldl (fun acc k => acc + f k) 0 (Planner.zrange 0 (Z.of_nat m' - 1)).
Proof.
  intros Hf Hle. induction Hle as [|m' Hle IH]; [lia|].
  rewrite column_sum_step. pose proof (Hf (Z.of_nat m')). lia.
Qed.

(** X27. The slices of the receive buffer do not overlap.  With counts
    that are not negative, for two partners [r1 < r2] of process [p]: the
    slice for [r1], which starts at [nbuffer[r1]] and takes the
    [mpi_nsend[p + r1*NProcs]] records that [r1] sends, ends at or before
    the start of the slice for [r2], and every slice ends within the
    [NImport] records the buffer is given. *)
Theorem receive_slices_disjoint (NProcs p r1 r2 : Z) (mpi_nsend : list Z) :
  Forall (fun n => 0 <= n) mpi_nsend ->
  0 <= r1 -> r1 < r2 -> r2 < NProcs ->
  0 <= Counting.nbuffer NProcs mpi_nsend p r1 /\
  Counting.nbuffer NProcs mpi_nsend p r1
    + get 0 mpi_nsend (p + r1 * NProcs)
  <= Counting.nbuffer NProcs mpi_nsend p r2 /\
  Counting.nbuffer NProcs mpi_nsend p r2
    + get 0 mpi_nsend (p + r2 * NProcs)
  <= Counting.NImport NProcs p mpi_nsend.
Proof.
  intros Hpos Hr1 Hr12 Hr2. unfold Counting.nbuffer, Counting.NImport.
  set (f := fun k => get 0 mpi_nsend (p + k * NProcs)).
  assert (forall k, 0 <= f k) as Hf.
  { intros k. unfold f. apply (get_Forall (fun n => 0 <= n)); [lia | done]. }
  change (fun nbuffer k => nbuffer + get 0 mpi_nsend (p + k * NProcs))
    with (fun acc k => acc + f k).
  change (fun NImport j => NImport + get 0 mpi_nsend (p + j * NProcs))
    with (fun acc k => acc + f k).
  change (get 0 mpi_nsend (p + r1 * NProcs)) with (f r1).
  change (get 0 mpi_nsend (p + r2 * NProcs)) with (f r2).
  pose proof (column_sum_mono f 0 (Z.to_nat r1) Hf ltac:(lia)) as H0.
  pose proof (column_sum_step f (Z.to_nat r1)) as H1.
  pose proof (column_sum_mono f (S (Z.to_nat r1)) (Z.to_nat r2) Hf ltac:(lia))
    as H2.
  pose proof (column_sum_step f (Z.to_nat r2)) as H3.
  pose proof (column_sum_mono f (S (Z.to_nat r2)) (Z.to_nat NProcs) Hf
                ltac:(lia)) as H4.
  rewrite !Z2Nat.id in * by lia.
  change (Z.of_nat 0 - 1) with (-1) in H0.
  change (foldl (fun acc k => acc + f k) 0 (Planner.zrange 0 (-1)))
    with 0 in H0.
  lia.
Qed.

Lemma receive_slices_disjoint_witness :
  0 <= Counting.nbuffer 3 [0; 4; 1; 2; 0; 0; 5; 3; 0] 1 0 /\
  Counting.nbuffer 3 [0; 4; 1; 2; 0; 0; 5; 3; 0] 1 0
    + get 0 [0; 4; 1; 2; 0; 0; 5; 3; 0] (1 + 0 * 3)
  <= Counting.nbuffer 3 [0; 4; 1; 2; 0; 0; 5; 3; 0] 1 2 /\
  Counting.nbuffer 3 [0; 4; 1; 2; 0; 0; 5; 3; 0] 1 2
    + get 0 [0; 4; 1; 2; 0; 0; 5; 3; 0] (1 + 2 * 3)
  <= Counting.NImport 3 1 [0; 4; 1; 2; 0; 0; 5; 3; 0].
Proof.
  apply (receive_slices_disjoint 3 1 0 2 [0; 4; 1; 2; 0; 0; 5; 3; 0]).
  - repeat constructor; lia.
  - lia.
  - lia.
  - lia.
Defined.
